(** * Transcript processor: queue, extraction orchestrator, proxy rotator

    A shallow embedding of the decision logic of
    [ml-services/transcript-processor/src]:

    - [models.py]               the data model,
    - [utils.py]                [calculate_confidence_score],
                                [validate_video_id], [chunk_segments],
                                [merge_overlapping_segments],
                                [normalize_language_code],
    - [transcript_extractor.py] [TranscriptExtractor.extract_transcript],
    - [vpn_rotator.py]          [VPNRotator.rotate_proxy] and friends,
    - [queue_manager.py]        [QueueManager] over a model of the Redis
                                commands it issues,
    - [main.py]                 the worker [process_background_jobs].

    Python [int] is [Z]; [float] scores, starts and durations are exact
    rationals ([Q]), except in [merge_overlapping_segments], which is
    kept over an arbitrary arithmetic with IEEE doubles as an instance;
    [datetime] values are integer microsecond counts and
    [time.time()] readings are integer clock readings; [str] is [string].
    A pydantic model is a record and [model_dump_json] followed by
    [model_validate_json] is the identity on it. *)

From Stdlib Require Import ZArith QArith Qround Qminmax Lqa String Ascii List
  Sorted PrimFloat Lia.
From stdpp Require Import gmap strings list fin_maps pretty.

Local Open Scope string_scope.
Local Open Scope Z_scope.

(** ** models.py *)

Inductive TranscriptMethod : Type :=
  | YOUTUBE_TRANSCRIPT_API
  | XML_DIRECT
  | YT_DLP
  | WHISPER_AUDIO.

Inductive JobStatus : Type :=
  | QUEUED
  | PROCESSING
  | COMPLETED
  | FAILED.

#[global] Instance TranscriptMethod_eq_dec : EqDecision TranscriptMethod.
Proof. solve_decision. Defined.

#[global] Instance JobStatus_eq_dec : EqDecision JobStatus.
Proof. solve_decision. Defined.

(** The [str] value of the enumeration members. *)
Definition method_value (m : TranscriptMethod) : string :=
  match m with
  | YOUTUBE_TRANSCRIPT_API => "youtube_transcript_api"
  | XML_DIRECT => "xml_direct"
  | YT_DLP => "yt_dlp"
  | WHISPER_AUDIO => "whisper_audio"
  end.

(** A segment, as the adapters build it:
    [{"text": ..., "start": ..., "duration": ...}]. *)
Record TranscriptSegment : Type := {
  text : string;
  start : Q;
  duration : Q
}.

(** The end of a segment, [start + duration]. *)
Definition segment_end (s : TranscriptSegment) : Q := (start s + duration s)%Q.

Record TranscriptResponse : Type := {
  resp_video_id : string;
  success : bool;
  method_used : option TranscriptMethod;
  language : option string;
  segments : list TranscriptSegment;
  total_duration : option Q;
  word_count : option Z;
  confidence_score : option Q;
  processing_time_ms : option Z;
  resp_error : option string;
  metadata : list (string * string)
}.

Record TranscriptJob : Type := {
  job_id : option string;
  video_id : string;
  status : JobStatus;
  created_at : Z;
  started_at : option Z;
  completed_at : option Z;
  result : option TranscriptResponse;
  error : option string;
  retry_count : Z;
  max_retries : Z;
  priority : Z
}.

(** Attribute assignments on a job object. *)
Definition set_job_id (v : option string) (j : TranscriptJob) : TranscriptJob :=
  {| job_id := v; video_id := video_id j; status := status j;
     created_at := created_at j; started_at := started_at j;
     completed_at := completed_at j; result := result j; error := error j;
     retry_count := retry_count j; max_retries := max_retries j;
     priority := priority j |}.

Definition set_status (v : JobStatus) (j : TranscriptJob) : TranscriptJob :=
  {| job_id := job_id j; video_id := video_id j; status := v;
     created_at := created_at j; started_at := started_at j;
     completed_at := completed_at j; result := result j; error := error j;
     retry_count := retry_count j; max_retries := max_retries j;
     priority := priority j |}.

Definition set_created_at (v : Z) (j : TranscriptJob) : TranscriptJob :=
  {| job_id := job_id j; video_id := video_id j; status := status j;
     created_at := v; started_at := started_at j;
     completed_at := completed_at j; result := result j; error := error j;
     retry_count := retry_count j; max_retries := max_retries j;
     priority := priority j |}.

Definition set_started_at (v : option Z) (j : TranscriptJob) : TranscriptJob :=
  {| job_id := job_id j; video_id := video_id j; status := status j;
     created_at := created_at j; started_at := v;
     completed_at := completed_at j; result := result j; error := error j;
     retry_count := retry_count j; max_retries := max_retries j;
     priority := priority j |}.

Definition set_completed_at (v : option Z) (j : TranscriptJob) : TranscriptJob :=
  {| job_id := job_id j; video_id := video_id j; status := status j;
     created_at := created_at j; started_at := started_at j;
     completed_at := v; result := result j; error := error j;
     retry_count := retry_count j; max_retries := max_retries j;
     priority := priority j |}.

Definition set_error (v : option string) (j : TranscriptJob) : TranscriptJob :=
  {| job_id := job_id j; video_id := video_id j; status := status j;
     created_at := created_at j; started_at := started_at j;
     completed_at := completed_at j; result := result j; error := v;
     retry_count := retry_count j; max_retries := max_retries j;
     priority := priority j |}.

Definition set_retry_count (v : Z) (j : TranscriptJob) : TranscriptJob :=
  {| job_id := job_id j; video_id := video_id j; status := status j;
     created_at := created_at j; started_at := started_at j;
     completed_at := completed_at j; result := result j; error := error j;
     retry_count := v; max_retries := max_retries j;
     priority := priority j |}.

Definition set_result (v : option TranscriptResponse) (j : TranscriptJob)
    : TranscriptJob :=
  {| job_id := job_id j; video_id := video_id j; status := status j;
     created_at := created_at j; started_at := started_at j;
     completed_at := completed_at j; result := v; error := error j;
     retry_count := retry_count j; max_retries := max_retries j;
     priority := priority j |}.

(** ** utils.py *)

Module Utils.

(** Texts are ASCII strings.  [str.split()] separates on these. *)
Definition is_space (c : ascii) : bool :=
  let n := N_of_ascii c in
  ((9 <=? n) && (n <=? 13) || (28 <=? n) && (n <=? 32))%N.

(** [\w] on ASCII text. *)
Definition is_word (c : ascii) : bool :=
  let n := N_of_ascii c in
  ((48 <=? n) && (n <=? 57) || (65 <=? n) && (n <=? 90)
   || (97 <=? n) && (n <=? 122) || (n =? 95))%N.

Definition lower_char (c : ascii) : ascii :=
  let n := N_of_ascii c in
  if ((65 <=? n) && (n <=? 90))%N then ascii_of_N (n + 32) else c.

(** [s.lower()] *)
Fixpoint lower (s : string) : string :=
  match s with
  | EmptyString => EmptyString
  | String c s' => String (lower_char c) (lower s')
  end.

(** [len(s.split())]: the number of maximal runs of non-space characters.
    [in_word] tells whether the previous character was part of a run. *)
Fixpoint count_words_from (in_word : bool) (s : string) : Z :=
  match s with
  | EmptyString => 0
  | String c s' =>
      if is_space c then count_words_from false s'
      else (if in_word then 0 else 1) + count_words_from true s'
  end.

Definition count_words (s : string) : Z := count_words_from false s.

(** [len(re.findall(r'[.!?]', s))] *)
Fixpoint count_sentence_endings (s : string) : Z :=
  match s with
  | EmptyString => 0
  | String c s' =>
      (if existsb (Ascii.eqb c) ["."; "!"; "?"]%char then 1 else 0)
      + count_sentence_endings s'
  end.

Definition head_is_word (s : string) : bool :=
  match s with
  | EmptyString => false
  | String c _ => is_word c
  end.

(** [\b] between a character that is ([prev]) or is not a word character
    and the rest [s] of the text. *)
Definition boundary (prev : bool) (s : string) : bool :=
  xorb prev (head_is_word s).

(** Matches the literal [lit] at the head of [s] and then [\b];
    [prev] is the word-ness of the character before. *)
Fixpoint match_literal_b (lit : string) (prev : bool) (s : string) : bool :=
  match lit with
  | EmptyString => boundary prev s
  | String a lit' =>
      match s with
      | EmptyString => false
      | String c s' => Ascii.eqb a c && match_literal_b lit' (is_word c) s'
      end
  end.

(** [re.search(r'\b(a1|a2|...)\b', s) is not None] for literal
    alternatives, scanning the start positions from left to right. *)
Fixpoint search_words_from (alts : list string) (prev : bool) (s : string)
    : bool :=
  (boundary prev s && existsb (fun lit => match_literal_b lit prev s) alts)
  || match s with
     | EmptyString => false
     | String c s' => search_words_from alts (is_word c) s'
     end.

Definition search_words (alts : list string) (s : string) : bool :=
  search_words_from alts false s.

(** [" ".join(l)] *)
Definition join_space (l : list string) : string := String.concat " " l.

(** [round(x, 2)], to the nearest hundredth, ties to the even one. *)
Definition round2 (x : Q) : Q :=
  let y := (x * 100)%Q in
  let n := Qfloor y in
  let r := (y - inject_Z n)%Q in
  let k :=
    match (r ?= 1 # 2)%Q with
    | Lt => n
    | Gt => n + 1
    | Eq => if Z.even n then n else n + 1
    end in
  (k # 100)%Q.

(** [method_base_scores.get(method, 0.5)] *)
Definition base_score (method : string) : Q :=
  if decide (method = "youtube_transcript_api") then (9 # 10)%Q
  else if decide (method = "xml_direct") then (85 # 100)%Q
  else if decide (method = "yt_dlp") then (8 # 10)%Q
  else if decide (method = "whisper_audio") then (75 # 100)%Q
  else (5 # 10)%Q.

(** The list [quality_factors] as the function appends to it. *)
Definition quality_factors (total_text : string) : list Q :=
  let word_count := count_words total_text in
  (if word_count >? 100 then [(1 # 10)%Q]
   else if word_count >? 50 then [(5 # 100)%Q] else [])
  ++ (if count_sentence_endings total_text >? 0 then [(5 # 100)%Q] else [])
  ++ (if search_words ["um"; "uh"; "like"; "you know"] (lower total_text)
      then [(2 # 100)%Q] else [])
  ++ (if search_words ["technology"; "research"; "development"; "analysis"]
           (lower total_text)
      then [(3 # 100)%Q] else []).

Definition sum_Q (l : list Q) : Q := foldl Qplus (0 # 1)%Q l.

Definition calculate_confidence_score (segments : list TranscriptSegment)
    (method : string) : Q :=
  match segments with
  | [] => (0 # 1)%Q
  | _ =>
      let base_score := base_score method in
      let total_text := join_space (map text segments) in
      let quality_bonus := sum_Q (quality_factors total_text) in
      let final_score := Qmin (1 # 1) (base_score + quality_bonus) in
      round2 final_score
  end.

(** [[a-zA-Z0-9_-]] *)
Definition is_id_char (c : ascii) : bool :=
  is_word c || Ascii.eqb c "-"%char.

(** Matches [[a-zA-Z0-9_-]{n}] at the head of [s] and returns the rest. *)
Fixpoint match_id_chars (n : nat) (s : string) : option string :=
  match n with
  | O => Some s
  | S n' =>
      match s with
      | EmptyString => None
      | String c s' => if is_id_char c then match_id_chars n' s' else None
      end
  end.

(** [$]: the end of the text, or the position before a final newline. *)
Definition at_end (s : string) : bool :=
  if decide (s = "") then true
  else if decide (s = String "010"%char "") then true else false.

(** [validate_video_id] *)
Definition validate_video_id (video_id : string) : bool :=
  if decide (video_id = "") then false
  else
    match match_id_chars 11 video_id with
    | Some rest => at_end rest
    | None => false
    end.

(** The loop of [chunk_segments]. *)
Fixpoint chunk_loop (segments : list TranscriptSegment) (max_chunk_size : Z)
    (chunks : list (list TranscriptSegment))
    (current_chunk : list TranscriptSegment) (current_size : Z)
    : list (list TranscriptSegment) * list TranscriptSegment :=
  match segments with
  | [] => (chunks, current_chunk)
  | segment :: segments =>
      let text_length := Z.of_nat (String.length (text segment)) in
      if (current_size + text_length >? max_chunk_size)
         && (match current_chunk with [] => false | _ => true end)
      then
        chunk_loop segments max_chunk_size (chunks ++ [current_chunk])
          [segment] text_length
      else
        chunk_loop segments max_chunk_size chunks
          (current_chunk ++ [segment]) (current_size + text_length)
  end.

(** [chunk_segments] *)
Definition chunk_segments (segments : list TranscriptSegment)
    (max_chunk_size : Z) : list (list TranscriptSegment) :=
  let '(chunks, current_chunk) := chunk_loop segments max_chunk_size [] [] 0 in
  match current_chunk with
  | [] => chunks
  | _ => chunks ++ [current_chunk]
  end.

(** The summed text length of a chunk. *)
Definition chunk_size (chunk : list TranscriptSegment) : Z :=
  foldr (fun s acc => Z.of_nat (String.length (text s)) + acc) 0 chunk.

(** [s.strip()] *)
Fixpoint lstrip (s : string) : string :=
  match s with
  | EmptyString => EmptyString
  | String c s' => if is_space c then lstrip s' else s
  end.

Fixpoint rstrip (s : string) : string :=
  match s with
  | EmptyString => EmptyString
  | String c s' =>
      match rstrip s' with
      | EmptyString => if is_space c then EmptyString else String c EmptyString
      | rest => String c rest
      end
  end.

Definition strip (s : string) : string := rstrip (lstrip s).

(** [normalize_language_code] *)
Definition normalize_language_code (lang_code : string) : string :=
  if decide (lang_code = "") then "en"
  else
    let normalized := strip (lower lang_code) in
    if decide (normalized = "hindi") then "hi"
    else if decide (normalized = "marathi") then "mr"
    else if decide (normalized = "english") then "en"
    else if decide (normalized = "auto") then "auto"
    else if decide (normalized = "automatic") then "auto"
    else substring 0 2 normalized.

(** *** [merge_overlapping_segments]

    The times of a segment are Python floats, and the function only adds,
    subtracts and compares them.  It is embedded over an arbitrary number
    type [F] with these operations, so that what is proved of it holds of
    IEEE doubles as of exact rationals. *)
Module Merge.

(** A segment dictionary [{'text': .., 'start': .., 'duration': ..}],
    with its three keys present, as the extraction methods build it. *)
Record Segment (F : Type) : Type := {
  text : string;
  start : F;
  duration : F
}.

Arguments Build_Segment {F}.
Arguments text {F}.
Arguments start {F}.
Arguments duration {F}.

Section Arithmetic.

Variable F : Type.
(** [x + y], [x - y], [x <= y] and [x < y] on floats; [x > y] is
    [y < x]. *)
Variable add sub : F -> F -> F.
Variable le lt : F -> F -> bool.

(** [sorted(segments, key=lambda x: x.get('start', 0))].  Python's sort
    compares keys with [<] only and is stable: a segment goes behind the
    segments behind it whose start is smaller, and in front of the
    others. *)
Fixpoint insert_by_start (x : Segment F) (l : list (Segment F))
    : list (Segment F) :=
  match l with
  | [] => [x]
  | y :: l' =>
      if lt (start y) (start x) then y :: insert_by_start x l'
      else x :: l
  end.

Definition sorted_by_start (segments : list (Segment F))
    : list (Segment F) :=
  foldr insert_by_start [] segments.

(** The loop of [merge_overlapping_segments].  The list [merged] is never
    empty: it is kept as [front ++ [last_merged]], where [last_merged] is
    [merged[-1]]. *)
Fixpoint merge_loop (todo : list (Segment F)) (overlap_threshold : F)
    (front : list (Segment F)) (last_merged : Segment F)
    : list (Segment F) :=
  match todo with
  | [] => front ++ [last_merged]
  | current :: todo =>
      let last_end := add (start last_merged) (duration last_merged) in
      let current_start := start current in
      if le current_start (add last_end overlap_threshold) then
        let current_end := add current_start (duration current) in
        (* max(last_end, current_end) *)
        let new_end :=
          if lt last_end current_end then current_end else last_end in
        let merged_text := strip (text last_merged +:+ " " +:+ text current) in
        merge_loop todo overlap_threshold front
          {| text := merged_text;
             start := start last_merged;
             duration := sub new_end (start last_merged) |}
      else
        merge_loop todo overlap_threshold (front ++ [last_merged]) current
  end.

(** [merge_overlapping_segments] *)
Definition merge_overlapping_segments (segments : list (Segment F))
    (overlap_threshold : F) : list (Segment F) :=
  match segments with
  | [] => []
  | _ =>
      match sorted_by_start segments with
      | first :: rest => merge_loop rest overlap_threshold [] first
      | [] => []
      end
  end.

(** [<] orders the given keys: it is asymmetric on them, and so is
    transitive its negation.  Floats that are numbers are so ordered; a
    NaN among the keys is what this excludes. *)
Definition comparable (keys : list F) : Prop :=
  (forall a b, a ∈ keys -> b ∈ keys -> lt a b = true -> lt b a = false)
  /\ (forall a b c, a ∈ keys -> b ∈ keys -> c ∈ keys ->
        lt a b = false -> lt b c = false -> lt a c = false).

(** [b] does not start before [a]. *)
Definition by_start (a b : Segment F) : Prop :=
  lt (start b) (start a) = false.

(** [b] starts more than the threshold after the end of [a]: the test of
    the loop, [b.start <= a.start + a.duration + overlap_threshold], is
    false. *)
Definition apart (overlap_threshold : F) (a b : Segment F) : Prop :=
  le (start b) (add (add (start a) (duration a)) overlap_threshold) = false.

End Arithmetic.

End Merge.
End Utils.

(** ** vpn_rotator.py *)

Module VPNRotator.

Record ProxyEndpoint : Type := {
  host : string;
  port : Z;
  username : string;
  password : string;
  protocol : string;
  last_used : Z;
  failure_count : Z
}.

Definition set_last_used (v : Z) (p : ProxyEndpoint) : ProxyEndpoint :=
  {| host := host p; port := port p; username := username p;
     password := password p; protocol := protocol p; last_used := v;
     failure_count := failure_count p |}.

Definition set_failure_count (v : Z) (p : ProxyEndpoint) : ProxyEndpoint :=
  {| host := host p; port := port p; username := username p;
     password := password p; protocol := protocol p; last_used := last_used p;
     failure_count := v |}.

Record t : Type := {
  enabled : bool;
  rotation_interval : Z;
  max_failures : Z;
  current_proxy_index : nat;
  proxy_list : list ProxyEndpoint;
  last_rotation : Z;
  request_count : Z;
  max_requests_per_proxy : Z
}.

Definition set_current_proxy_index (v : nat) (r : t) : t :=
  {| enabled := enabled r; rotation_interval := rotation_interval r;
     max_failures := max_failures r; current_proxy_index := v;
     proxy_list := proxy_list r; last_rotation := last_rotation r;
     request_count := request_count r;
     max_requests_per_proxy := max_requests_per_proxy r |}.

Definition set_proxy_list (v : list ProxyEndpoint) (r : t) : t :=
  {| enabled := enabled r; rotation_interval := rotation_interval r;
     max_failures := max_failures r;
     current_proxy_index := current_proxy_index r;
     proxy_list := v; last_rotation := last_rotation r;
     request_count := request_count r;
     max_requests_per_proxy := max_requests_per_proxy r |}.

Definition set_last_rotation (v : Z) (r : t) : t :=
  {| enabled := enabled r; rotation_interval := rotation_interval r;
     max_failures := max_failures r;
     current_proxy_index := current_proxy_index r;
     proxy_list := proxy_list r; last_rotation := v;
     request_count := request_count r;
     max_requests_per_proxy := max_requests_per_proxy r |}.

Definition set_request_count (v : Z) (r : t) : t :=
  {| enabled := enabled r; rotation_interval := rotation_interval r;
     max_failures := max_failures r;
     current_proxy_index := current_proxy_index r;
     proxy_list := proxy_list r; last_rotation := last_rotation r;
     request_count := v;
     max_requests_per_proxy := max_requests_per_proxy r |}.

(** [not self.proxy_list] *)
Definition no_proxies (r : t) : bool :=
  match proxy_list r with
  | [] => true
  | _ => false
  end.

(** [fetch_proxy_list]: returns at once when the pool is not empty, and
    raises otherwise; the statements after the [raise] are never run. *)
Definition fetch_proxy_list (r : t) : option string * t :=
  if negb (no_proxies r) then (None, r)
  else (Some "API key method not supported with direct credentials", r).

(** [should_rotate], at clock reading [now]. *)
Definition should_rotate (r : t) (now : Z) : bool :=
  if negb (enabled r) || no_proxies r then false
  else
    let time_since_rotation := now - last_rotation r in
    if time_since_rotation >=? rotation_interval r then true
    else if request_count r >=? max_requests_per_proxy r then true
    else
      match proxy_list r !! current_proxy_index r with
      | Some current_proxy =>
          if failure_count current_proxy >=? max_failures r then true
          else false
      | None => false
      end.

(** The [while attempts < max_attempts] loop of [rotate_proxy], with
    [fuel = max_attempts - attempts] iterations left.  The flag tells
    whether the loop returned from the function ([true]) or ran out
    without an identity below the threshold ([false]). *)
Fixpoint rotate_loop (fuel : nat) (r : t) (now : Z) : bool * t :=
  match fuel with
  | O => (false, r)
  | S fuel' =>
      let index :=
        ((current_proxy_index r + 1) `mod` length (proxy_list r))%nat in
      let r := set_current_proxy_index index r in
      match proxy_list r !! index with
      | Some current_proxy =>
          if failure_count current_proxy <? max_failures r then
            let r :=
              set_proxy_list
                (<[index := set_last_used now current_proxy]> (proxy_list r))
                r in
            let r := set_last_rotation now r in
            let r := set_request_count 0 r in
            (true, r)
          else rotate_loop fuel' r now
      | None => (false, r)
      end
  end.

(** [rotate_proxy], at clock reading [now]. *)
Definition rotate_proxy (r : t) (now : Z) : t :=
  if negb (enabled r) || no_proxies r then r
  else
    let max_attempts := length (proxy_list r) in
    match rotate_loop max_attempts r now with
    | (true, r) => r
    | (false, r) =>
        match fetch_proxy_list r with
        | (None, r) =>
            let r := set_current_proxy_index 0 r in
            if negb (no_proxies r) then
              set_request_count 0 (set_last_rotation now r)
            else r
        | (Some _, r) => r
        end
    end.

Definition rotate_if_needed (r : t) (now : Z) : t :=
  if negb (should_rotate r now) then r else rotate_proxy r now.

Definition get_current_proxy (r : t) : option ProxyEndpoint :=
  if negb (enabled r) || no_proxies r then None
  else proxy_list r !! current_proxy_index r.

Definition record_success (r : t) : t :=
  match proxy_list r !! current_proxy_index r with
  | Some current_proxy =>
      set_proxy_list
        (<[current_proxy_index r :=
             set_failure_count (Z.max 0 (failure_count current_proxy - 1))
               current_proxy]> (proxy_list r)) r
  | None => r
  end.

Definition record_failure (r : t) : t :=
  match proxy_list r !! current_proxy_index r with
  | Some current_proxy =>
      set_proxy_list
        (<[current_proxy_index r :=
             set_failure_count (failure_count current_proxy + 1)
               current_proxy]> (proxy_list r)) r
  | None => r
  end.

(** The identity [d] steps behind the current one, cyclically. *)
Definition offset_index (r : t) (d : nat) : nat :=
  ((current_proxy_index r + 1 + d) `mod` length (proxy_list r))%nat.

(** What a successful rotation to [index] leaves behind. *)
Definition rotated_to (index : nat) (p : ProxyEndpoint) (now : Z) (r : t) : t :=
  set_request_count 0
    (set_last_rotation now
       (set_proxy_list (<[index := set_last_used now p]> (proxy_list r))
          (set_current_proxy_index index r))).

(** The settings [__init__] reads. *)
Record Settings : Type := {
  enable_vpn_rotation : bool;
  webshare_proxy_username : string;
  webshare_proxy_password : string;
  proxy_rotation_interval : Z
}.

(** Truth value of a [str]. *)
Definition nonempty (s : string) : bool :=
  if decide (s = "") then false else true.

Definition set_enabled (v : bool) (r : t) : t :=
  {| enabled := v; rotation_interval := rotation_interval r;
     max_failures := max_failures r;
     current_proxy_index := current_proxy_index r;
     proxy_list := proxy_list r; last_rotation := last_rotation r;
     request_count := request_count r;
     max_requests_per_proxy := max_requests_per_proxy r |}.

(** [VPNRotator.__init__] *)
Definition init (s : Settings) : t :=
  let r :=
    {| enabled := enable_vpn_rotation s;
       rotation_interval := proxy_rotation_interval s;
       max_failures := 3; current_proxy_index := 0; proxy_list := [];
       last_rotation := 0; request_count := 0;
       max_requests_per_proxy := 50 |} in
  if enabled r && nonempty (webshare_proxy_username s)
     && nonempty (webshare_proxy_password s)
  then
    set_proxy_list
      [{| host := "rotating-residential.webshare.io"; port := 9000;
          username := webshare_proxy_username s;
          password := webshare_proxy_password s;
          protocol := "http"; last_used := 0; failure_count := 0 |}] r
  else if enabled r then set_enabled false r
  else r.

(** [initialize] *)
Definition initialize (r : t) : t :=
  if negb (enabled r) then r
  else if negb (no_proxies r) then r
  else
    match fetch_proxy_list r with
    | (None, r) => r
    | (Some _, r) => set_enabled false r
    end.

(** An identity without its [last_used] stamp. *)
Definition without_last_used (p : ProxyEndpoint) : ProxyEndpoint :=
  set_last_used 0 p.

Arguments offset_index : simpl never.

End VPNRotator.

(** ** transcript_extractor.py *)

Module TranscriptExtractor.

(** The four switches of [config.py] that [_is_method_enabled] reads. *)
Record Settings : Type := {
  enable_youtube_transcript_api : bool;
  enable_xml_direct : bool;
  enable_yt_dlp : bool;
  enable_whisper : bool
}.

(** What a method returns: [{"segments": .., "language": .., "metadata": ..}]. *)
Record AdapterResult : Type := {
  ar_segments : list TranscriptSegment;
  ar_language : option string;
  ar_metadata : list (string * string)
}.

(** An attempt either raises an exception with a message or returns
    ([None] or a result dictionary). *)
Inductive AdapterOutcome : Type :=
  | Raises (msg : string)
  | Returns (result : option AdapterResult).

(** The test [result and result.get("segments")] on what a method
    returned. *)
Definition has_segments (o : AdapterOutcome) : bool :=
  match o with
  | Returns (Some result) =>
      match ar_segments result with
      | [] => false
      | _ :: _ => true
      end
  | _ => false
  end.

(** The message of the exception, when the attempt raised. *)
Definition raised (o : AdapterOutcome) : option string :=
  match o with
  | Raises msg => Some msg
  | Returns _ => None
  end.

(** [last_error] after the given attempts, starting from [init]. *)
Definition last_raised (outs : list AdapterOutcome) (init : option string)
    : option string :=
  foldl (fun acc o => match raised o with Some msg => Some msg | None => acc end)
        init outs.

Record Stats : Type := {
  total_requests : Z;
  successful_extractions : Z;
  method_usage : gmap string Z;
  error_counts : gmap string Z
}.

Record t : Type := {
  vpn_rotator : option VPNRotator.t;
  stats : Stats
}.

Definition incr (k : string) (m : gmap string Z) : gmap string Z :=
  <[k := default 0 (m !! k) + 1]> m.

(** The outcome of the [for] loop: a response was returned from inside
    it, or it ended with [last_error]. *)
Inductive LoopResult : Type :=
  | Returned (response : TranscriptResponse)
  | Ended (last_error : option string).

(** The counter a statistics dictionary holds for a method. *)
Definition counter (m : gmap string Z) (k : TranscriptMethod) : Z :=
  default 0 (m !! method_value k).

(** 1 when [x] is among the invoked methods [calls] and its attempt
    raised, 0 otherwise. *)
Definition failures_of (outcome : TranscriptMethod -> AdapterOutcome)
    (calls : list TranscriptMethod) (x : TranscriptMethod) : Z :=
  if decide (x ∈ calls /\ is_Some (raised (outcome x))) then 1 else 0.

(** 1 when the loop returned with the method [x], 0 otherwise. *)
Definition returned_by (res : LoopResult) (x : TranscriptMethod) : Z :=
  match res with
  | Returned response =>
      if decide (method_used response = Some x) then 1 else 0
  | Ended _ => 0
  end.

Definition methods : list TranscriptMethod :=
  [YOUTUBE_TRANSCRIPT_API; XML_DIRECT; YT_DLP; WHISPER_AUDIO].

(** [max(s["start"] + s["duration"] for s in segments)]: the first of the
    largest values. *)
Definition max_end (segs : list TranscriptSegment) : Q :=
  match segs with
  | [] => (0 # 1)%Q
  | s :: rest =>
      foldl (fun cur s =>
               let e := (start s + duration s)%Q in
               if Qle_bool e cur then cur else e)
            (start s + duration s)%Q rest
  end.

(** The dictionary [extract_transcript] returns when the method [k]
    returned [r]. *)
Definition success_response (video_id : string) (processing_time : Z)
    (k : TranscriptMethod) (r : AdapterResult) : TranscriptResponse :=
  {| resp_video_id := video_id;
     success := true;
     method_used := Some k;
     language := ar_language r;
     segments := ar_segments r;
     total_duration := Some (max_end (ar_segments r));
     word_count :=
       Some (foldr Z.add 0
               ((fun s => Utils.count_words (text s)) <$> ar_segments r));
     confidence_score :=
       Some (Utils.calculate_confidence_score (ar_segments r) (method_value k));
     processing_time_ms := Some processing_time;
     resp_error := None;
     metadata := ar_metadata r |}.

(** [last_error or "No transcript available"]: the default text stands in
    for [None] and for an empty message alike, both being false. *)
Definition error_text (last_error : option string) : string :=
  match last_error with
  | Some (String c msg) => String c msg
  | Some EmptyString | None => "No transcript available"
  end.

(** The dictionary [extract_transcript] returns after the loop. *)
Definition failure_response (video_id : string) (processing_time : Z)
    (last_error : option string) : TranscriptResponse :=
  {| resp_video_id := video_id;
     success := false;
     method_used := None;
     language := None;
     segments := [];
     total_duration := None;
     word_count := Some 0;
     confidence_score := Some (0 # 1)%Q;
     processing_time_ms := Some processing_time;
     resp_error := Some (error_text last_error);
     metadata := [] |}.

Section Extract.

(** The configuration and the four extraction methods: [adapters m v l] is
    what the method [m] does when called with video id [v] and language
    list [l]. *)
Variable settings : Settings.
Variable adapters : TranscriptMethod -> string -> list string -> AdapterOutcome.

Definition _is_method_enabled (m : TranscriptMethod) : bool :=
  match m with
  | YOUTUBE_TRANSCRIPT_API => enable_youtube_transcript_api settings
  | XML_DIRECT => enable_xml_direct settings
  | YT_DLP => enable_yt_dlp settings
  | WHISPER_AUDIO => enable_whisper settings
  end.

(** The loop of [extract_transcript] over the methods still to try.
    [calls] is the list of the methods invoked so far, oldest first;
    [now] is the clock reading the rotator sees and [processing_time] the
    measured duration in milliseconds. *)
Fixpoint try_methods (todo : list TranscriptMethod) (e : t)
    (video_id : string) (language_preference : list string)
    (use_fallback_methods use_vpn_rotation : bool)
    (now processing_time : Z)
    (last_error : option string) (calls : list TranscriptMethod)
    : LoopResult * t * list TranscriptMethod :=
  match todo with
  | [] => (Ended last_error, e, calls)
  | method_name :: todo =>
      if negb (_is_method_enabled method_name) then
        try_methods todo e video_id language_preference
          use_fallback_methods use_vpn_rotation now processing_time
          last_error calls
      else
        let e :=
          if use_vpn_rotation then
            {| vpn_rotator :=
                 (fun r => VPNRotator.rotate_if_needed r now) <$> vpn_rotator e;
               stats := stats e |}
          else e in
        let calls := (calls ++ [method_name])%list in
        match adapters method_name video_id language_preference with
        | Returns (Some result) =>
            match ar_segments result with
            | _ :: _ =>
                let word_count :=
                  foldr Z.add 0
                    ((fun s => Utils.count_words (text s))
                       <$> ar_segments result) in
                let total_duration := max_end (ar_segments result) in
                let confidence_score :=
                  Utils.calculate_confidence_score (ar_segments result)
                    (method_value method_name) in
                let st := stats e in
                let e :=
                  {| vpn_rotator := vpn_rotator e;
                     stats :=
                       {| total_requests := total_requests st;
                          successful_extractions :=
                            successful_extractions st + 1;
                          method_usage :=
                            incr (method_value method_name) (method_usage st);
                          error_counts := error_counts st |} |} in
                (Returned
                   {| resp_video_id := video_id;
                      success := true;
                      method_used := Some method_name;
                      language := ar_language result;
                      segments := ar_segments result;
                      total_duration := Some total_duration;
                      word_count := Some word_count;
                      confidence_score := Some confidence_score;
                      processing_time_ms := Some processing_time;
                      resp_error := None;
                      metadata := ar_metadata result |},
                 e, calls)
            | [] =>
                try_methods todo e video_id language_preference
                  use_fallback_methods use_vpn_rotation now processing_time
                  last_error calls
            end
        | Returns None =>
            try_methods todo e video_id language_preference
              use_fallback_methods use_vpn_rotation now processing_time
              last_error calls
        | Raises msg =>
            let last_error := Some msg in
            let st := stats e in
            let e :=
              {| vpn_rotator := vpn_rotator e;
                 stats :=
                   {| total_requests := total_requests st;
                      successful_extractions := successful_extractions st;
                      method_usage := method_usage st;
                      error_counts :=
                        incr (method_value method_name) (error_counts st) |} |} in
            if negb use_fallback_methods then (Ended last_error, e, calls)
            else
              try_methods todo e video_id language_preference
                use_fallback_methods use_vpn_rotation now processing_time
                last_error calls
        end
  end.

(** [extract_transcript].  Returns the response dictionary, the extractor
    with its updated statistics, and the methods that were invoked, in
    the order of their invocation. *)
Definition extract_transcript (e : t) (video_id : string)
    (language_preference : option (list string))
    (use_fallback_methods use_vpn_rotation : bool)
    (now processing_time : Z)
    : TranscriptResponse * t * list TranscriptMethod :=
  let st := stats e in
  let e :=
    {| vpn_rotator := vpn_rotator e;
       stats :=
         {| total_requests := total_requests st + 1;
            successful_extractions := successful_extractions st;
            method_usage := method_usage st;
            error_counts := error_counts st |} |} in
  let language_preference :=
    default ["en"; "hi"; "mr"] language_preference in
  match try_methods methods e video_id language_preference
          use_fallback_methods use_vpn_rotation now processing_time None []
  with
  | (Returned response, e, calls) => (response, e, calls)
  | (Ended last_error, e, calls) =>
      ({| resp_video_id := video_id;
          success := false;
          method_used := None;
          language := None;
          segments := [];
          total_duration := None;
          word_count := Some 0;
          confidence_score := Some (0 # 1)%Q;
          processing_time_ms := Some processing_time;
          resp_error := Some (error_text last_error);
          metadata := [] |},
       e, calls)
  end.

End Extract.

(** [TranscriptExtractor.__init__]: a rotator when rotation is switched
    on, and empty statistics. *)
Definition init (rotator_settings : VPNRotator.Settings) : t :=
  {| vpn_rotator :=
       if VPNRotator.enable_vpn_rotation rotator_settings
       then Some (VPNRotator.init rotator_settings) else None;
     stats := {| total_requests := 0; successful_extractions := 0;
                 method_usage := ∅; error_counts := ∅ |} |}.

End TranscriptExtractor.

(** ** queue_manager.py *)

Module QueueManager.

(** *** The Redis commands the queue issues

    The four collections of one queue name and the per-job keys.  A sorted
    set is a finite map from member to score; the per-job key holds the
    serialized job together with the time-to-live it was written with;
    [EXPIRE] on a status set records the expiry it was given. *)
Record Redis : Type := {
  waiting : gmap string Z;
  processing : gset string;
  completed : gset string;
  failed : gset string;
  job_data : gmap string (Z * TranscriptJob);
  completed_expire : option Z;
  failed_expire : option Z
}.

Definition empty_redis : Redis :=
  {| waiting := ∅; processing := ∅; completed := ∅; failed := ∅;
     job_data := ∅; completed_expire := None; failed_expire := None |}.

(** [ZADD waiting {member: score}] *)
Definition zadd_waiting (member : string) (score : Z) (r : Redis) : Redis :=
  {| waiting := <[member := score]> (waiting r); processing := processing r;
     completed := completed r; failed := failed r; job_data := job_data r;
     completed_expire := completed_expire r; failed_expire := failed_expire r |}.

(** Redis orders a sorted set by score and, among equal scores, by the
    bytes of the member. *)
Definition zlt (a b : string * Z) : bool :=
  (a.2 <? b.2) || ((a.2 =? b.2) && String.ltb a.1 b.1).

Definition zmax (l : list (string * Z)) : option (string * Z) :=
  foldr (fun x acc =>
           match acc with
           | None => Some x
           | Some y => if zlt y x then Some x else Some y
           end) None l.

(** [ZPOPMAX waiting]: removes and returns the member with the highest
    score. *)
Definition zpopmax_waiting (r : Redis) : option (string * Z) * Redis :=
  match zmax (map_to_list (waiting r)) with
  | None => (None, r)
  | Some (member, score) =>
      (Some (member, score),
       {| waiting := delete member (waiting r); processing := processing r;
          completed := completed r; failed := failed r; job_data := job_data r;
          completed_expire := completed_expire r;
          failed_expire := failed_expire r |})
  end.

(** [SETEX job:<key> ttl data] *)
Definition setex_job (key : string) (ttl : Z) (data : TranscriptJob)
    (r : Redis) : Redis :=
  {| waiting := waiting r; processing := processing r;
     completed := completed r; failed := failed r;
     job_data := <[key := (ttl, data)]> (job_data r);
     completed_expire := completed_expire r; failed_expire := failed_expire r |}.

(** [GET job:<key>] *)
Definition get_job_data (key : string) (r : Redis) : option TranscriptJob :=
  snd <$> job_data r !! key.

(** The key [job:<key>] reaches the end of its time-to-live. *)
Definition expire_job (key : string) (r : Redis) : Redis :=
  {| waiting := waiting r; processing := processing r;
     completed := completed r; failed := failed r;
     job_data := delete key (job_data r);
     completed_expire := completed_expire r; failed_expire := failed_expire r |}.

(** [TTL job:<key>], as it was set by the last write. *)
Definition ttl_job (key : string) (r : Redis) : option Z :=
  fst <$> job_data r !! key.

Definition sadd_processing (member : string) (r : Redis) : Redis :=
  {| waiting := waiting r; processing := {[member]} ∪ processing r;
     completed := completed r; failed := failed r; job_data := job_data r;
     completed_expire := completed_expire r; failed_expire := failed_expire r |}.

Definition srem_processing (member : string) (r : Redis) : Redis :=
  {| waiting := waiting r; processing := processing r ∖ {[member]};
     completed := completed r; failed := failed r; job_data := job_data r;
     completed_expire := completed_expire r; failed_expire := failed_expire r |}.

Definition sadd_completed (member : string) (r : Redis) : Redis :=
  {| waiting := waiting r; processing := processing r;
     completed := {[member]} ∪ completed r; failed := failed r;
     job_data := job_data r;
     completed_expire := completed_expire r; failed_expire := failed_expire r |}.

Definition sadd_failed (member : string) (r : Redis) : Redis :=
  {| waiting := waiting r; processing := processing r;
     completed := completed r; failed := {[member]} ∪ failed r;
     job_data := job_data r;
     completed_expire := completed_expire r; failed_expire := failed_expire r |}.

Definition expire_completed (seconds : Z) (r : Redis) : Redis :=
  {| waiting := waiting r; processing := processing r;
     completed := completed r; failed := failed r; job_data := job_data r;
     completed_expire := Some seconds; failed_expire := failed_expire r |}.

Definition expire_failed (seconds : Z) (r : Redis) : Redis :=
  {| waiting := waiting r; processing := processing r;
     completed := completed r; failed := failed r; job_data := job_data r;
     completed_expire := completed_expire r; failed_expire := Some seconds |}.

(** The key of the completed set reaches the end of the time-to-live that
    [EXPIRE] gave it: the set is gone.  A set without a time-to-live
    stays. *)
Definition expire_completed_set (r : Redis) : Redis :=
  match completed_expire r with
  | Some _ =>
      {| waiting := waiting r; processing := processing r;
         completed := ∅; failed := failed r; job_data := job_data r;
         completed_expire := None; failed_expire := failed_expire r |}
  | None => r
  end.

Definition expire_failed_set (r : Redis) : Redis :=
  match failed_expire r with
  | Some _ =>
      {| waiting := waiting r; processing := processing r;
         completed := completed r; failed := ∅; job_data := job_data r;
         completed_expire := completed_expire r; failed_expire := None |}
  | None => r
  end.

(** *** The queue manager *)

Record t : Type := {
  redis_client : Redis;
  max_queue_size : Z;
  job_timeout : Z;
  connected : bool
}.

Definition with_redis (r : Redis) (q : t) : t :=
  {| redis_client := r; max_queue_size := max_queue_size q;
     job_timeout := job_timeout q; connected := connected q |}.

(** The exceptions the queue raises, with their messages. *)
Inductive exn : Type :=
  | RedisNotConnected
  | QueueFull (max_size : Z).

Definition exn_message (e : exn) : string :=
  match e with
  | RedisNotConnected => "Redis not connected"
  | QueueFull n => "Queue full (max size: " +:+ pretty n +:+ ")"
  end.

(** The key suffix [f"{job.job_id}"] of a job's record. *)
Definition job_key (j : TranscriptJob) : string :=
  match job_id j with
  | Some s => s
  | None => "None"
  end.

(** [-job.priority if job.priority else 0] *)
Definition score_of (p : Z) : Z := if p =? 0 then 0 else - p.

Definition get_queue_size (q : t) : Z :=
  if connected q then
    Z.of_nat (size (waiting (redis_client q)))
    + Z.of_nat (size (processing (redis_client q)))
  else 0.

(** [not job.job_id]: the id is absent or the empty string. *)
Definition no_job_id (j : TranscriptJob) : bool :=
  match job_id j with
  | None => true
  | Some s => if decide (s = "") then true else false
  end.

(** [add_job].  [uuid4] is the value [str(uuid.uuid4())] would produce and
    [now] the reading of [datetime.utcnow()].  Returns what the call raises
    or returns, the job object as the call leaves it, and the queue. *)
Definition add_job (q : t) (job : TranscriptJob) (uuid4 : string) (now : Z)
    : (exn + string) * TranscriptJob * t :=
  if negb (connected q) then (inl RedisNotConnected, job, q)
  else
    let job := if no_job_id job then set_job_id (Some uuid4) job else job in
    let job := set_status QUEUED (set_created_at now job) in
    let queue_size := get_queue_size q in
    if queue_size >=? max_queue_size q then
      (inl (QueueFull (max_queue_size q)), job, q)
    else
      let job_data := job in
      let score := score_of (priority job) in
      let r := zadd_waiting (job_key job) score (redis_client q) in
      let r := setex_job (job_key job) (job_timeout q) job_data r in
      (inr (job_key job), job, with_redis r q).

(** [update_job].  The record is serialized on entry; the completion stamp
    is put on the job object afterwards. *)
Definition update_job (q : t) (job : TranscriptJob) (now : Z)
    : option exn * TranscriptJob * t :=
  if negb (connected q) then (Some RedisNotConnected, job, q)
  else
    let job_data := job in
    let '(ttl, job) :=
      match status job with
      | COMPLETED | FAILED => (3600, set_completed_at (Some now) job)
      | _ => (job_timeout q, job)
      end in
    let r := setex_job (job_key job) ttl job_data (redis_client q) in
    let r :=
      match status job with
      | COMPLETED =>
          expire_completed 3600
            (sadd_completed (job_key job) (srem_processing (job_key job) r))
      | FAILED =>
          expire_failed 7200
            (sadd_failed (job_key job) (srem_processing (job_key job) r))
      | _ => r
      end in
    (None, job, with_redis r q).

(** [get_next_job] *)
Definition get_next_job (q : t) (now : Z) : option TranscriptJob * t :=
  if negb (connected q) then (None, q)
  else
    match zpopmax_waiting (redis_client q) with
    | (None, _) => (None, q)
    | (Some (jid, _), r) =>
        match get_job_data jid r with
        | None => (None, with_redis r q)
        | Some job =>
            let job := set_started_at (Some now) (set_status PROCESSING job) in
            let r := sadd_processing jid r in
            match update_job (with_redis r q) job now with
            | (None, job, q) => (Some job, q)
            | (Some _, _, q) => (None, q)
            end
        end
    end.

(** [get_job] *)
Definition get_job (q : t) (jid : string) : option TranscriptJob :=
  if negb (connected q) then None
  else get_job_data jid (redis_client q).

(** The text Python prints for the float [total_seconds()] of a span of
    [us] microseconds: the decimal expansion in seconds with its trailing
    zeros dropped and at least one fractional digit (for spans from 10^-4
    to 10^16 seconds, where Python prints a float in this positional form
    and its shortest representation is this decimal). *)
Fixpoint frac_str (w : nat) (f : Z) : string :=
  match w with
  | O => ""
  | S w' =>
      if f =? 0 then ""
      else pretty (f / 10 ^ Z.of_nat w') +:+ frac_str w' (f mod 10 ^ Z.of_nat w')
  end.

Definition str_seconds (us : Z) : string :=
  let a := Z.abs us in
  let frac := frac_str 6 (a mod 1000000) in
  (if us <? 0 then "-" else "")
  +:+ pretty (a / 1000000) +:+ "."
  +:+ (if decide (frac = "") then "0" else frac).

(** One iteration of the sweep in [requeue_stuck_jobs], on the member
    [jid] of the processing set. *)
Definition requeue_one (q : t) (max_processing_time now : Z)
    (requeued_count : Z) (jid : string) : option exn * Z * t :=
  match get_job_data jid (redis_client q) with
  | None => (None, requeued_count, q)
  | Some job =>
      match started_at job with
      | None => (None, requeued_count, q)
      | Some st =>
          let processing_time := now - st in
          if processing_time >? max_processing_time * 1000000 then
            let job := set_status QUEUED job in
            let job := set_started_at None job in
            let job := set_retry_count (retry_count job + 1) job in
            if retry_count job <? max_retries job then
              let r := srem_processing jid (redis_client q) in
              let r := zadd_waiting jid (score_of (priority job)) r in
              let '(e, _, q) := update_job (with_redis r q) job now in
              match e with
              | None => (None, requeued_count + 1, q)
              | Some _ => (e, requeued_count, q)
              end
            else
              let job := set_status FAILED job in
              let job :=
                set_error
                  (Some ("Max retries exceeded (stuck for "
                         +:+ str_seconds processing_time +:+ "s)")) job in
              let '(e, _, q) := update_job q job now in
              (e, requeued_count, q)
          else (None, requeued_count, q)
      end
  end.

(** The [for job_id in processing_jobs] loop; an exception leaves it. *)
Fixpoint requeue_loop (q : t) (max_processing_time now : Z)
    (requeued_count : Z) (ids : list string) : option exn * Z * t :=
  match ids with
  | [] => (None, requeued_count, q)
  | jid :: ids =>
      match requeue_one q max_processing_time now requeued_count jid with
      | (None, requeued_count, q) =>
          requeue_loop q max_processing_time now requeued_count ids
      | failure => failure
      end
  end.

(** [requeue_stuck_jobs].  [SMEMBERS processing] is read once, before the
    loop; one reading [now] of the clock serves the whole sweep. *)
Definition requeue_stuck_jobs (q : t) (max_processing_time now : Z) : Z * t :=
  if negb (connected q) then (0, q)
  else
    let processing_jobs := elements (processing (redis_client q)) in
    match requeue_loop q max_processing_time now 0 processing_jobs with
    | (None, requeued_count, q) => (requeued_count, q)
    | (Some _, _, q) => (0, q)
    end.

(** Every record sits under the key made from its own job id; all writes
    of the queue go through [setex_job (job_key job)]. *)
Definition records_keyed (r : Redis) : Prop :=
  forall k ttl j, job_data r !! k = Some (ttl, j) -> job_key j = k.

(** Two stores hold the same about the id [k]. *)
Definition same_at (k : string) (r r' : Redis) : Prop :=
  waiting r' !! k = waiting r !! k
  /\ (k ∈ processing r' <-> k ∈ processing r)
  /\ (k ∈ completed r' <-> k ∈ completed r)
  /\ (k ∈ failed r' <-> k ∈ failed r)
  /\ job_data r' !! k = job_data r !! k.

(** The job objects [requeue_stuck_jobs] builds from a stuck job. *)
Definition retried (job : TranscriptJob) : TranscriptJob :=
  set_retry_count (retry_count job + 1)
    (set_started_at None (set_status QUEUED job)).

Definition given_up (job : TranscriptJob) (processing_time : Z)
    : TranscriptJob :=
  set_error
    (Some ("Max retries exceeded (stuck for "
           +:+ str_seconds processing_time +:+ "s)"))
    (set_status FAILED (retried job)).

(** [DEL job:<id>] *)
Definition del_job (key : string) (r : Redis) : Redis :=
  {| waiting := waiting r; processing := processing r;
     completed := completed r; failed := failed r;
     job_data := delete key (job_data r);
     completed_expire := completed_expire r; failed_expire := failed_expire r |}.

(** [DEL job:<id1> job:<id2> ...] *)
Definition del_jobs (keys : list string) (r : Redis) : Redis :=
  foldr del_job r keys.

(** [DEL waiting processing completed failed]; the expiries go with the
    keys. *)
Definition del_collections (r : Redis) : Redis :=
  {| waiting := ∅; processing := ∅; completed := ∅; failed := ∅;
     job_data := job_data r; completed_expire := None; failed_expire := None |}.

(** [SREM completed member]; a set that becomes empty is removed, and its
    expiry with it. *)
Definition srem_completed (member : string) (r : Redis) : Redis :=
  let s := completed r ∖ {[member]} in
  {| waiting := waiting r; processing := processing r;
     completed := s; failed := failed r; job_data := job_data r;
     completed_expire :=
       if decide (s = ∅) then None else completed_expire r;
     failed_expire := failed_expire r |}.

(** [clear_queue] *)
Definition clear_queue (q : t) : Z * t :=
  if negb (connected q) then (0, q)
  else
    let r := redis_client q in
    let all_jobs : gset string :=
      dom (waiting r) ∪ processing r ∪ completed r ∪ failed r in
    let r :=
      if decide (all_jobs = ∅) then r else del_jobs (elements all_jobs) r in
    let r := del_collections r in
    (Z.of_nat (size all_jobs), with_redis r q).

(** One iteration of the loop of [cleanup_expired_jobs]. *)
Definition cleanup_one (cutoff_time : Z) (acc : Z * Redis) (jid : string)
    : Z * Redis :=
  let '(cleaned_count, r) := acc in
  match get_job_data jid r with
  | Some job =>
      match completed_at job with
      | Some at_ =>
          if at_ <? cutoff_time then
            (cleaned_count + 1, del_job jid (srem_completed jid r))
          else acc
      | None => acc
      end
  | None => (cleaned_count + 1, srem_completed jid r)
  end.

(** [cleanup_expired_jobs], at the instant [now]: the cut-off lies one
    hour back. *)
Definition cleanup_expired_jobs (q : t) (now : Z) : Z * t :=
  if negb (connected q) then (0, q)
  else
    let cutoff_time := now - 3600 * 1000000 in
    let completed_jobs := elements (completed (redis_client q)) in
    let '(cleaned_count, r) :=
      foldl (cleanup_one cutoff_time) (0, redis_client q) completed_jobs in
    (cleaned_count, with_redis r q).

(** The decision [cleanup_expired_jobs] takes on a member of the completed
    set: its record is gone, or carries a completion stamp before the
    cut-off. *)
Definition stale (cutoff_time : Z) (r : Redis) (jid : string) : bool :=
  match job_data r !! jid with
  | Some (_, job) =>
      match completed_at job with
      | Some at_ => at_ <? cutoff_time
      | None => false
      end
  | None => true
  end.

(** The decision [requeue_stuck_jobs] takes on a member of the processing
    set to move it back to the waiting set: it is stuck and its retry
    count, once incremented, is below [max_retries]. *)
Definition requeueable (max_processing_time now : Z) (r : Redis)
    (jid : string) : bool :=
  match job_data r !! jid with
  | Some (_, job) =>
      match started_at job with
      | Some st =>
          (now - st >? max_processing_time * 1000000)
          && (retry_count job + 1 <? max_retries job)
      | None => false
      end
  | None => false
  end.

(** The queues that the operations build, starting from a connected
    manager over an empty store; records may expire in between. *)
Inductive reachable : t -> Prop :=
  | reach_connect (capacity timeout : Z) :
      reachable {| redis_client := empty_redis; max_queue_size := capacity;
                   job_timeout := timeout; connected := true |}
  | reach_add_job q job uuid4 now :
      reachable q -> reachable (add_job q job uuid4 now).2
  | reach_get_next_job q now :
      reachable q -> reachable (get_next_job q now).2
  | reach_update_job q job now :
      reachable q -> reachable (update_job q job now).2
  | reach_requeue_stuck_jobs q max_processing_time now :
      reachable q -> reachable (requeue_stuck_jobs q max_processing_time now).2
  | reach_clear_queue q :
      reachable q -> reachable (clear_queue q).2
  | reach_cleanup_expired_jobs q now :
      reachable q -> reachable (cleanup_expired_jobs q now).2
  | reach_expire_job q key :
      reachable q -> reachable (with_redis (expire_job key (redis_client q)) q).

Arguments job_key : simpl never.
Arguments score_of : simpl never.
Arguments retried : simpl never.
Arguments given_up : simpl never.

End QueueManager.


(** ** main.py: the background worker *)

Module Main.

(** What one turn of the worker's loop meets.  Time passes between the
    turns, while a transcript is extracted: [expired_jobs] are the record
    keys that have reached the end of their time-to-live since the turn
    before, [completed_expired] and [failed_expired] tell whether the
    completed and the failed set have reached theirs.  The other fields
    are the clock readings of the turn ([get_next_job], the two
    [update_job] calls, the extraction) and the duration the extraction
    measures. *)
Record Turn : Type := {
  expired_jobs : list string;
  completed_expired : bool;
  failed_expired : bool;
  taken_at : Z;
  marked_at : Z;
  extract_at : Z;
  finished_at : Z;
  processing_time : Z
}.

(** The store as a turn finds it.  Within a turn the loop reads no key
    after the [GET] of [get_next_job] and writes the job's record anew
    with every [update_job], so whatever runs out during a turn shows at
    the start of the next one. *)
Definition age (turn : Turn) (r : QueueManager.Redis) : QueueManager.Redis :=
  let r := foldr QueueManager.expire_job r (expired_jobs turn) in
  let r :=
    if completed_expired turn then QueueManager.expire_completed_set r
    else r in
  if failed_expired turn then QueueManager.expire_failed_set r else r.

Section Worker.

Variable settings : TranscriptExtractor.Settings.
Variable rotator_settings : VPNRotator.Settings.
Variable adapters :
  TranscriptMethod -> string -> list string -> TranscriptExtractor.AdapterOutcome.

(** The [except] clause of the loop body: the job is marked failed with
    the message of the exception and written back; that write may raise
    in turn. *)
Definition mark_failed (q : QueueManager.t) (job : TranscriptJob)
    (e : QueueManager.exn) (now : Z)
    : option QueueManager.exn * QueueManager.t :=
  let job := set_status FAILED job in
  let job := set_error (Some (QueueManager.exn_message e)) job in
  let '(e', _, q) := QueueManager.update_job q job now in
  (e', q).

(** The body of the [while True] loop of [process_background_jobs] for a
    job that [get_next_job] returned.  The result tells whether an
    exception leaves the loop. *)
Definition process_job (q : QueueManager.t) (extractor : TranscriptExtractor.t)
    (job : TranscriptJob) (turn : Turn)
    : option QueueManager.exn * QueueManager.t * TranscriptExtractor.t :=
  let job := set_status PROCESSING job in
  match QueueManager.update_job q job (marked_at turn) with
  | (Some e, job, q) =>
      let '(e', q) := mark_failed q job e (finished_at turn) in
      (e', q, extractor)
  | (None, job, q) =>
      let '(result, extractor, _) :=
        TranscriptExtractor.extract_transcript settings adapters extractor
          (video_id job) (Some ["en"; "hi"; "mr"]) true true
          (extract_at turn) (processing_time turn) in
      let job := set_status COMPLETED job in
      let job := set_result (Some result) job in
      match QueueManager.update_job q job (finished_at turn) with
      | (None, _, q) => (None, q, extractor)
      | (Some e, job, q) =>
          let '(e', q) := mark_failed q job e (finished_at turn) in
          (e', q, extractor)
      end
  end.

(** The loop, with a bound on the number of turns; [None] when the bound
    is used up.  [env i] is what the turn number [i] from here meets. *)
Fixpoint worker_loop (fuel : nat) (env : nat -> Turn) (q : QueueManager.t)
    (extractor : TranscriptExtractor.t)
    : option (QueueManager.t * TranscriptExtractor.t) :=
  match fuel with
  | O => None
  | S fuel =>
      let turn := env O in
      let q := QueueManager.with_redis (age turn (QueueManager.redis_client q)) q in
      match QueueManager.get_next_job q (taken_at turn) with
      | (None, q) => Some (q, extractor)
      | (Some job, q) =>
          match process_job q extractor job turn with
          | (None, q, extractor) =>
              worker_loop fuel (fun i => env (S i)) q extractor
          | (Some _, q, extractor) => Some (q, extractor)
          end
      end
  end.

(** [process_background_jobs] *)
Definition process_background_jobs (fuel : nat) (env : nat -> Turn)
    (q : QueueManager.t)
    : option (QueueManager.t * TranscriptExtractor.t) :=
  worker_loop fuel env q (TranscriptExtractor.init rotator_settings).

(** The record the worker leaves of a job it took at [taken] and has
    handled, with the response [response] of the extraction. *)
Definition handled (taken : Z) (response : TranscriptResponse)
    (job : TranscriptJob) : TranscriptJob :=
  set_result (Some response)
    (set_status COMPLETED
       (set_status PROCESSING
          (set_started_at (Some taken) (set_status PROCESSING job)))).

End Worker.

End Main.

(** ** Sample data *)

Module Samples.

Import QueueManager.

(** [TranscriptJob(video_id=v, priority=p)], every other field at its
    default, created at instant 0. *)
Definition new_job (v : string) (p : Z) : TranscriptJob :=
  {| job_id := None; video_id := v; status := QUEUED; created_at := 0;
     started_at := None; completed_at := None; result := None;
     error := None; retry_count := 0; max_retries := 3; priority := p |}.

(** A connected queue over an empty store. *)
Definition fresh_queue (capacity : Z) : QueueManager.t :=
  {| redis_client := empty_redis; max_queue_size := capacity;
     job_timeout := 600; connected := true |}.

(** Enqueues one job per pair (generated id, priority), in list order. *)
Definition add_jobs (q : QueueManager.t) (l : list (string * Z)) (now : Z)
    : QueueManager.t :=
  foldl (fun q '(uuid, p) => (add_job q (new_job "abc12345678" p) uuid now).2)
        q l.

(** Calls [get_next_job] [n] times and lists what came back. *)
Fixpoint take_jobs (n : nat) (q : QueueManager.t) (now : Z)
    : list (option TranscriptJob) * QueueManager.t :=
  match n with
  | O => ([], q)
  | S n =>
      let '(j, q) := get_next_job q now in
      let '(js, q) := take_jobs n q now in
      (j :: js, q)
  end.

(** Four jobs with priorities 5, 1, 5, 3, given the ids a, b, c, d. *)
Definition queue_5153 : QueueManager.t :=
  add_jobs (fresh_queue 1000) [("a", 5); ("b", 1); ("c", 5); ("d", 3)] 10.

(** One job, enqueued at instant 10 and handed to a worker at instant 20. *)
Definition queue_one_processing : QueueManager.t :=
  (get_next_job (add_jobs (fresh_queue 1000) [("a", 0)] 10) 20).2.

Definition job_a_processing : TranscriptJob :=
  set_started_at (Some 20)
    (set_status PROCESSING
       (set_created_at 10 (set_job_id (Some "a") (new_job "abc12345678" 0)))).

(** Two jobs wait; the record of the second has expired. *)
Definition queue_expired_record : QueueManager.t :=
  let q := add_jobs (fresh_queue 1000) [("a", 0); ("b", 0)] 10 in
  with_redis (expire_job "b" (redis_client q)) q.

(** A queue of capacity 2 holding the waiting job b and the processing
    job a. *)
Definition queue_at_capacity : QueueManager.t :=
  (get_next_job (add_jobs (fresh_queue 2) [("a", 0); ("b", 1)] 10) 20).2.

(** An extractor without rotator and with all counters at zero. *)
Definition fresh_extractor : TranscriptExtractor.t :=
  {| TranscriptExtractor.vpn_rotator := None;
     TranscriptExtractor.stats :=
       {| TranscriptExtractor.total_requests := 0;
          TranscriptExtractor.successful_extractions := 0;
          TranscriptExtractor.method_usage := ∅;
          TranscriptExtractor.error_counts := ∅ |} |}.

Definition all_enabled : TranscriptExtractor.Settings :=
  {| TranscriptExtractor.enable_youtube_transcript_api := true;
     TranscriptExtractor.enable_xml_direct := true;
     TranscriptExtractor.enable_yt_dlp := true;
     TranscriptExtractor.enable_whisper := true |}.

Definition one_segment : list TranscriptSegment :=
  [{| text := "hello world"; start := (0 # 1)%Q; duration := (2 # 1)%Q |}].

(** The first method returns a dictionary with an empty segment list and
    does not raise; the second returns one segment; the others raise. *)
Definition adapters_empty_then_ok (m : TranscriptMethod) (video_id : string)
    (languages : list string) : TranscriptExtractor.AdapterOutcome :=
  match m with
  | YOUTUBE_TRANSCRIPT_API =>
      TranscriptExtractor.Returns
        (Some {| TranscriptExtractor.ar_segments := [];
                 TranscriptExtractor.ar_language := Some "en";
                 TranscriptExtractor.ar_metadata := [] |})
  | XML_DIRECT =>
      TranscriptExtractor.Returns
        (Some {| TranscriptExtractor.ar_segments := one_segment;
                 TranscriptExtractor.ar_language := Some "en";
                 TranscriptExtractor.ar_metadata := [("source", "xml_direct")] |})
  | _ => TranscriptExtractor.Raises "unavailable"
  end.

(** The first method raises; the second returns one segment. *)
Definition adapters_raise_then_ok (m : TranscriptMethod) (video_id : string)
    (languages : list string) : TranscriptExtractor.AdapterOutcome :=
  match m with
  | XML_DIRECT =>
      TranscriptExtractor.Returns
        (Some {| TranscriptExtractor.ar_segments := one_segment;
                 TranscriptExtractor.ar_language := Some "en";
                 TranscriptExtractor.ar_metadata := [("source", "xml_direct")] |})
  | _ => TranscriptExtractor.Raises "unavailable"
  end.

(** A proxy identity with [failures] recorded failures. *)
Definition proxy (h : string) (failures : Z) : VPNRotator.ProxyEndpoint :=
  {| VPNRotator.host := h; VPNRotator.port := 9000;
     VPNRotator.username := "user"; VPNRotator.password := "secret";
     VPNRotator.protocol := "http"; VPNRotator.last_used := 0;
     VPNRotator.failure_count := failures |}.

(** An enabled rotator over [pool], standing at [index], with the
    threshold of three failures, last rotated at instant 0 and having
    served 7 requests since. *)
Definition rotator (pool : list VPNRotator.ProxyEndpoint) (index : nat)
    : VPNRotator.t :=
  {| VPNRotator.enabled := true; VPNRotator.rotation_interval := 300;
     VPNRotator.max_failures := 3; VPNRotator.current_proxy_index := index;
     VPNRotator.proxy_list := pool; VPNRotator.last_rotation := 0;
     VPNRotator.request_count := 7;
     VPNRotator.max_requests_per_proxy := 50 |}.

(** Every identity of the pool is at or over the threshold. *)
Definition rotator_all_failed : VPNRotator.t :=
  rotator [proxy "p0" 3; proxy "p1" 4] 0.

Definition rotator_mixed : VPNRotator.t :=
  rotator [proxy "p0" 0; proxy "p1" 3; proxy "p2" 5; proxy "p3" 1] 0.

End Samples.

(** * Properties *)

(** ** The confidence score *)

Section ConfidenceScore.

Import Utils.

Local Open Scope Q_scope.

Lemma round2_numerator_bounds (x : Q) :
  0 <= x <= 1 -> 0 <= round2 x <= 1.
Proof.
  intros [Hlo Hhi]. unfold round2.
  set (y := x * 100). set (n := Qfloor y).
  assert (Hy0 : 0 <= y).
  { unfold y. lra. }
  assert (Hy1 : y <= 100).
  { unfold y. lra. }
  assert (Hn0 : (0 <= n)%Z).
  { change 0%Z with (Qfloor 0). apply Qfloor_resp_le. exact Hy0. }
  assert (Hn1 : (n <= 100)%Z).
  { change 100%Z with (Qfloor 100). apply Qfloor_resp_le. exact Hy1. }
  assert (Hup : 1 # 2 <= y - inject_Z n -> (n + 1 <= 100)%Z).
  { intros Hr.
    destruct (Z.eq_dec n 100%Z) as [E | NE]; [| lia].
    exfalso. rewrite E in Hr. change (inject_Z 100) with 100 in Hr. lra. }
  assert (Hk : forall k : Z, (0 <= k <= 100)%Z -> 0 <= k # 100 <= 1).
  { intros k Hk. unfold Qle. simpl. lia. }
  destruct (y - inject_Z n ?= 1 # 2) eqn:Hcmp.
  - apply Qeq_alt in Hcmp.
    destruct (Z.even n); apply Hk; [lia |].
    split; [lia |]. apply Hup. rewrite Hcmp. apply Qle_refl.
  - apply Hk. lia.
  - apply Qgt_alt in Hcmp. apply Hk. split; [lia |].
    apply Hup. apply Qlt_le_weak. exact Hcmp.
Qed.

Lemma base_score_bounds (method : string) :
  1 # 2 <= base_score method <= 9 # 10.
Proof.
  unfold base_score.
  repeat case_decide; split; unfold Qle; simpl; lia.
Qed.

Lemma quality_bonus_nonneg (total_text : string) :
  0 <= sum_Q (quality_factors total_text).
Proof.
  unfold quality_factors.
  repeat match goal with
         | |- context [if ?c then _ else _] => destruct c
         end;
    vm_compute; discriminate.
Qed.

(** C9. For every list of segments and every method name,
    [calculate_confidence_score] returns a value in the closed interval
    from 0 to 1, and for the empty list of segments it returns 0. *)
Theorem calculate_confidence_score_unit_interval
    (segments : list TranscriptSegment) (method : string) :
  0 <= calculate_confidence_score segments method <= 1
  /\ calculate_confidence_score [] method = 0.
Proof.
  split; [| reflexivity].
  destruct segments as [| s segments]; [split; discriminate |].
  unfold calculate_confidence_score.
  apply round2_numerator_bounds. split.
  - apply Q.min_glb; [discriminate |].
    pose proof (base_score_bounds method) as [Hb _].
    pose proof (quality_bonus_nonneg (join_space (map text (s :: segments)))) as Hq.
    lra.
  - apply Q.le_min_l.
Qed.

End ConfidenceScore.

(** ** The job queue *)

Section QueueFacts.

Import QueueManager.

(** *** The sorted set *)

Lemma zmax_nil_iff (l : list (string * Z)) : zmax l = None <-> l = [].
Proof.
  destruct l as [| x l]; [done |].
  split; [| done]. simpl. destruct (zmax l) as [y |]; [| done].
  destruct (zlt y x); done.
Qed.

Lemma zmax_elem_of (l : list (string * Z)) (x : string * Z) :
  zmax l = Some x -> x ∈ l.
Proof.
  revert x. induction l as [| a l IH]; intros x; simpl; [done |].
  destruct (zmax l) as [y |] eqn:E.
  - destruct (zlt y a); intros [= <-].
    + apply elem_of_cons. by left.
    + apply elem_of_cons. right. by apply IH.
  - intros [= <-]. apply elem_of_cons. by left.
Qed.

Lemma zmax_score_highest (l : list (string * Z)) (x y : string * Z) :
  zmax l = Some x -> y ∈ l -> y.2 <= x.2.
Proof.
  revert x. induction l as [| a l IH]; intros x Hm Hy; [by inversion Hy |].
  simpl in Hm. destruct (zmax l) as [z |] eqn:E.
  - assert (Hz : y ∈ l -> y.2 <= z.2) by (intros; by apply IH).
    apply elem_of_cons in Hy.
    destruct (zlt z a) eqn:Hlt; injection Hm as <-.
    + assert (z.2 <= a.2).
      { unfold zlt in Hlt. apply orb_true_iff in Hlt as [H | H]; [lia |].
        apply andb_true_iff in H as [H _]. lia. }
      destruct Hy as [-> | Hy]; [lia | specialize (Hz Hy); lia].
    + assert (a.2 <= z.2).
      { unfold zlt in Hlt. apply orb_false_iff in Hlt as [H _]. lia. }
      destruct Hy as [-> | Hy]; [lia | by apply Hz].
  - apply zmax_nil_iff in E as ->. injection Hm as <-.
    apply elem_of_cons in Hy as [-> | Hy]; [lia | by inversion Hy].
Qed.

(** [ZPOPMAX] returns a member of the sorted set, with its score, and no
    member has a higher score. *)
Lemma zpopmax_waiting_spec (r r' : Redis) (member : string) (score : Z) :
  zpopmax_waiting r = (Some (member, score), r') ->
  waiting r !! member = Some score
  /\ (forall m s, waiting r !! m = Some s -> s <= score)
  /\ waiting r' = delete member (waiting r)
  /\ processing r' = processing r /\ completed r' = completed r
  /\ failed r' = failed r /\ job_data r' = job_data r.
Proof.
  unfold zpopmax_waiting.
  destruct (zmax (map_to_list (waiting r))) as [[m s] |] eqn:E; [| done].
  intros [= -> -> <-]. simpl.
  split; [| split]; [| | done].
  - apply elem_of_map_to_list. by apply zmax_elem_of.
  - intros m' s' H. apply elem_of_map_to_list in H.
    apply (zmax_score_highest _ _ _ E H).
Qed.

Lemma zpopmax_waiting_empty (r : Redis) :
  waiting r = ∅ -> zpopmax_waiting r = (None, r).
Proof.
  intros H. unfold zpopmax_waiting. by rewrite H, map_to_list_empty.
Qed.

(** [update_job] raises only when the queue is not connected. *)
Lemma update_job_connected (q : t) (job : TranscriptJob) (now : Z) :
  connected q = true -> (update_job q job now).1.1 = None.
Proof.
  intros H. unfold update_job. rewrite H. simpl.
  by destruct (status job).
Qed.

(** C10. When [get_next_job] pops a job id whose per-job record is absent,
    it returns no job; the id has left the waiting set and has not been
    added to the processing set, and nothing else in the store changes. *)
Theorem get_next_job_missing_record
    (q : t) (now : Z) (jid : string) (score : Z) (r' : Redis) :
  connected q = true ->
  zpopmax_waiting (redis_client q) = (Some (jid, score), r') ->
  job_data (redis_client q) !! jid = None ->
  get_next_job q now = (None, with_redis r' q)
  /\ waiting (redis_client q) !! jid = Some score
  /\ waiting r' = delete jid (waiting (redis_client q))
  /\ waiting r' !! jid = None
  /\ processing r' = processing (redis_client q)
  /\ completed r' = completed (redis_client q)
  /\ failed r' = failed (redis_client q)
  /\ job_data r' = job_data (redis_client q).
Proof.
  intros Hc Hpop Hnone.
  destruct (zpopmax_waiting_spec _ _ _ _ Hpop)
    as (Hin & _ & Hw & Hp & Hcm & Hf & Hd).
  split.
  - unfold get_next_job. rewrite Hc, Hpop. simpl.
    unfold get_job_data. by rewrite Hd, Hnone.
  - repeat split; try done. rewrite Hw. apply lookup_delete_eq.
Qed.

(** C5, amended. On a connected queue [add_job] raises the queue-full error
    exactly when the number of waiting plus processing jobs has reached
    the capacity, and then the store is unchanged; otherwise it returns
    the job's id, which is the newly generated one when the job came
    without an id and the caller's own id otherwise, and has put that id
    into the waiting set and the job's record under its key.  The waiting
    set grows by one when the id was not waiting before; an id that was
    already waiting is written over and the waiting set keeps its
    size. *)
Theorem add_job_capacity
    (q : t) (job : TranscriptJob) (uuid4 : string) (now : Z) :
  connected q = true ->
  let size_now :=
    Z.of_nat (size (waiting (redis_client q)))
    + Z.of_nat (size (processing (redis_client q))) in
  let '(res, job', q') := add_job q job uuid4 now in
  ((exists n, res = inl (QueueFull n)) <-> size_now >= max_queue_size q)
  /\ (size_now >= max_queue_size q ->
      res = inl (QueueFull (max_queue_size q)) /\ q' = q)
  /\ (size_now < max_queue_size q ->
      exists jid,
        res = inr jid
        /\ job_id job' = Some jid
        /\ (no_job_id job = true -> jid = uuid4)
        /\ (no_job_id job = false -> job_id job = Some jid)
        /\ status job' = QUEUED
        /\ priority job' = priority job
        /\ waiting (redis_client q')
           = <[jid := score_of (priority job)]> (waiting (redis_client q))
        /\ job_data (redis_client q')
           = <[jid := (job_timeout q, job')]> (job_data (redis_client q))
        /\ processing (redis_client q') = processing (redis_client q)
        /\ completed (redis_client q') = completed (redis_client q)
        /\ failed (redis_client q') = failed (redis_client q)
        /\ (waiting (redis_client q) !! jid = None ->
            size (waiting (redis_client q'))
            = S (size (waiting (redis_client q))))
        /\ (is_Some (waiting (redis_client q) !! jid) ->
            size (waiting (redis_client q'))
            = size (waiting (redis_client q)))).
Proof.
  intros Hc size_now. unfold add_job, get_queue_size. rewrite Hc. simpl.
  fold size_now.
  destruct (size_now >=? max_queue_size q) eqn:Hfull.
  - assert (size_now >= max_queue_size q) by lia.
    split; [split; [done | eauto] |]. split; [done | lia].
  - assert (size_now < max_queue_size q) by lia.
    split; [split; [by intros [? [=]] | lia] |]. split; [lia |].
    intros _.
    assert (Hid : exists jid,
               job_id (if no_job_id job then set_job_id (Some uuid4) job
                       else job) = Some jid
               /\ (no_job_id job = true -> jid = uuid4)
               /\ (no_job_id job = false -> job_id job = Some jid)).
    { unfold no_job_id. destruct (job_id job) as [s |] eqn:E.
      - destruct (decide (s = "")); simpl; [by exists uuid4 |].
        exists s. by rewrite E.
      - by exists uuid4. }
    destruct Hid as (jid & Hjid & Hgen & Hown).
    exists jid. unfold job_key. simpl. rewrite Hjid.
    repeat split; try done.
    + by destruct (no_job_id job).
    + by destruct (no_job_id job).
    + intros Hfresh. by apply map_size_insert_None.
    + intros [sc Hold]. by eapply map_size_insert_Some.
Qed.

(** *** Terminal updates *)

(** What a terminal [update_job] does to the store: the record is written
    as it was on entry, with a time-to-live of one hour; the id leaves the
    processing set and joins the set of its status. *)
Lemma update_job_terminal (q : t) (job : TranscriptJob) (now : Z) :
  connected q = true ->
  status job = COMPLETED \/ status job = FAILED ->
  let '(e, job', q') := update_job q job now in
  let r := redis_client q in
  let r' := redis_client q' in
  e = None
  /\ job' = set_completed_at (Some now) job
  /\ job_data r' = <[job_key job := (3600, job)]> (job_data r)
  /\ processing r' = processing r ∖ {[job_key job]}
  /\ waiting r' = waiting r
  /\ (status job = COMPLETED ->
      completed r' = {[job_key job]} ∪ completed r
      /\ failed r' = failed r
      /\ completed_expire r' = Some 3600)
  /\ (status job = FAILED ->
      failed r' = {[job_key job]} ∪ failed r
      /\ completed r' = completed r
      /\ failed_expire r' = Some 7200).
Proof.
  intros Hc Hs. unfold update_job. rewrite Hc. simpl.
  destruct Hs as [Hs | Hs]; rewrite Hs; simpl; rewrite Hs; simpl;
    repeat split; done.
Qed.

(** A non-terminal [update_job] only rewrites the record. *)
Lemma update_job_non_terminal (q : t) (job : TranscriptJob) (now : Z) :
  connected q = true ->
  status job = QUEUED \/ status job = PROCESSING ->
  update_job q job now
  = (None, job,
     with_redis (setex_job (job_key job) (job_timeout q) job (redis_client q))
       q).
Proof.
  intros Hc Hs. unfold update_job. rewrite Hc. simpl.
  destruct Hs as [Hs | Hs]; rewrite Hs; simpl; by rewrite Hs.
Qed.

(** C6, at a failing input.  The job [a] is in processing; the worker sets
    its status to [COMPLETED] and calls [update_job] at instant 50.  The id
    moves from the processing set to the completed set and the job object
    is stamped, but the record that was persisted has no [completed_at]. *)
Theorem update_job_completed_at_not_persisted :
  let '(_, job', q') :=
    update_job Samples.queue_one_processing
      (set_status COMPLETED Samples.job_a_processing) 50 in
  get_job Samples.queue_one_processing "a" = Some Samples.job_a_processing
  /\ completed_at job' = Some 50
  /\ ("a" ∉ processing (redis_client q'))
  /\ ("a" ∈ completed (redis_client q'))
  /\ (completed_at <$> get_job q' "a") = Some None.
Proof.
  vm_compute. repeat split; done.
Qed.

(** C7, refuted as stated: after a [COMPLETED] and after a [FAILED] update
    the per-job records carry the same time-to-live, so the first is not
    strictly shorter than the second. *)
Lemma update_job_record_ttl_not_shorter :
  let q := Samples.queue_one_processing in
  let job := Samples.job_a_processing in
  exists ttl_completed ttl_failed,
    ttl_job "a" (redis_client (update_job q (set_status COMPLETED job) 50).2)
    = Some ttl_completed
    /\ ttl_job "a" (redis_client (update_job q (set_status FAILED job) 50).2)
       = Some ttl_failed
    /\ ~ ttl_completed < ttl_failed.
Proof.
  exists 3600, 3600. vm_compute. split; [done |]. split; [done |]. by intros [=].
Qed.

(** C7, as the code has it.  Every terminal [update_job] writes the
    per-job record with a time-to-live of 3600 seconds, for [COMPLETED] and
    for [FAILED] alike; what differs by terminal status is the expiry put
    on the status set: 3600 seconds on the completed set, 7200 seconds on
    the failed set. *)
Theorem update_job_terminal_ttl
    (q : t) (job_c job_f : TranscriptJob) (now : Z) :
  connected q = true ->
  status job_c = COMPLETED ->
  status job_f = FAILED ->
  let r_c := redis_client (update_job q job_c now).2 in
  let r_f := redis_client (update_job q job_f now).2 in
  ttl_job (job_key job_c) r_c = Some 3600
  /\ ttl_job (job_key job_f) r_f = Some 3600
  /\ exists expire_c expire_f,
       completed_expire r_c = Some expire_c
       /\ failed_expire r_f = Some expire_f
       /\ expire_c = 3600 /\ expire_f = 7200 /\ expire_c < expire_f.
Proof.
  intros Hc Hsc Hsf.
  pose proof (update_job_terminal q job_c now Hc (or_introl Hsc)) as Hjc.
  pose proof (update_job_terminal q job_f now Hc (or_intror Hsf)) as Hjf.
  destruct (update_job q job_c now) as [[ec jc'] qc].
  destruct (update_job q job_f now) as [[ef jf'] qf].
  simpl in *.
  destruct Hjc as (_ & _ & Hdc & _ & _ & Hcc & _).
  destruct Hjf as (_ & _ & Hdf & _ & _ & _ & Hff).
  destruct (Hcc Hsc) as (_ & _ & Hec). destruct (Hff Hsf) as (_ & _ & Hef).
  unfold ttl_job. rewrite Hdc, Hdf, !lookup_insert_eq. simpl.
  split; [done |]. split; [done |].
  exists 3600, 7200. rewrite Hec, Hef. by repeat split.
Qed.

Lemma update_job_terminal_ttl_witness :
  let q := Samples.queue_one_processing in
  let job := Samples.job_a_processing in
  ttl_job "a" (redis_client (update_job q (set_status COMPLETED job) 50).2)
  = Some 3600
  /\ ttl_job "a" (redis_client (update_job q (set_status FAILED job) 50).2)
     = Some 3600.
Proof.
  intros q job.
  destruct (update_job_terminal_ttl q (set_status COMPLETED job)
              (set_status FAILED job) 50
              ltac:(reflexivity) ltac:(reflexivity) ltac:(reflexivity))
    as (H1 & H2 & _).
  split; [exact H1 | exact H2].
Defined.

(** C1, at a failing input.  Jobs are enqueued with the priorities 5, 1, 5
    and 3 (ids a, b, c, d, in this order) and the queue is drained:
    [get_next_job] hands them out lowest priority first, and of the two
    jobs of priority 5 the one enqueued later comes first. *)
Theorem get_next_job_order_5_1_5_3 :
  let jobs := (Samples.take_jobs 5 Samples.queue_5153 20).1 in
  map (option_map priority) jobs = [Some 1; Some 3; Some 5; Some 5; None]
  /\ map (option_map job_key) jobs
     = [Some "b"; Some "d"; Some "c"; Some "a"; None].
Proof.
  vm_compute. done.
Qed.

(** In general [get_next_job] returns a job whose score in the waiting
    set is the highest, that is, when every record is stored with the
    score of its priority, a job of the lowest priority. *)
Lemma get_next_job_lowest_priority
    (q q' : t) (now : Z) (job : TranscriptJob) (m : string) (p : Z) :
  connected q = true ->
  get_next_job q now = (Some job, q') ->
  (forall k s, waiting (redis_client q) !! k = Some s ->
     exists ttl j, job_data (redis_client q) !! k = Some (ttl, j)
                   /\ s = score_of (priority j)) ->
  waiting (redis_client q) !! m = Some (score_of p) ->
  priority job <= p.
Proof.
  intros Hc Hnext Hscores Hm. unfold get_next_job in Hnext.
  rewrite Hc in Hnext. simpl in Hnext.
  destruct (zpopmax_waiting (redis_client q)) as [[[jid sc] |] r] eqn:Hpop;
    [| done].
  destruct (zpopmax_waiting_spec _ _ _ _ Hpop)
    as (Hin & Hmax & _ & _ & _ & _ & Hd).
  unfold get_job_data in Hnext. rewrite Hd in Hnext.
  destruct (Hscores _ _ Hin) as (ttl & j & Hj & Hsc).
  rewrite Hj in Hnext. simpl in Hnext.
  rewrite update_job_non_terminal in Hnext by (simpl; auto).
  injection Hnext as <- _. simpl.
  specialize (Hmax _ _ Hm). subst sc.
  unfold score_of in Hmax.
  destruct (p =? 0) eqn:E1; destruct (priority j =? 0) eqn:E2; lia.
Qed.

(** *** The stuck-job sweep *)

Lemma elem_of_srem_ne (k jid : string) (X : gset string) :
  k <> jid -> k ∈ X ∖ {[jid]} <-> k ∈ X.
Proof. rewrite elem_of_difference, elem_of_singleton. tauto. Qed.

Lemma elem_of_sadd_ne (k jid : string) (X : gset string) :
  k <> jid -> k ∈ {[jid]} ∪ X <-> k ∈ X.
Proof. rewrite elem_of_union, elem_of_singleton. intros. split; [| tauto]. intros [? | ?]; [congruence | done]. Qed.

Lemma not_elem_of_srem (jid : string) (X : gset string) : jid ∉ X ∖ {[jid]}.
Proof. rewrite elem_of_difference, elem_of_singleton. tauto. Qed.

Lemma elem_of_sadd (jid : string) (X : gset string) : jid ∈ {[jid]} ∪ X.
Proof. rewrite elem_of_union, elem_of_singleton. tauto. Qed.

Lemma same_at_refl (k : string) (r : Redis) : same_at k r r.
Proof. by repeat split. Qed.

Lemma same_at_trans (k : string) (r1 r2 r3 : Redis) :
  same_at k r1 r2 -> same_at k r2 r3 -> same_at k r1 r3.
Proof.
  intros (Hw & Hp & Hc & Hf & Hd) (Hw' & Hp' & Hc' & Hf' & Hd').
  repeat split; try congruence; tauto.
Qed.

Lemma records_keyed_empty : records_keyed empty_redis.
Proof. intros k ttl j H. simpl in H. by rewrite lookup_empty in H. Qed.

Lemma records_keyed_setex (r : Redis) (ttl : Z) (job : TranscriptJob) :
  records_keyed r -> records_keyed (setex_job (job_key job) ttl job r).
Proof.
  intros Hk k ttl' j. simpl. rewrite lookup_insert.
  case_decide; [by intros [= _ <-] | apply Hk].
Qed.

Lemma records_keyed_same_data (r r' : Redis) :
  job_data r' = job_data r -> records_keyed r -> records_keyed r'.
Proof. intros E Hk k ttl j. rewrite E. apply Hk. Qed.

(** One iteration of the sweep, spelled out for a connected queue. *)
Lemma requeue_one_connected
    (q : t) (max_processing_time now c : Z) (jid : string) :
  connected q = true ->
  requeue_one q max_processing_time now c jid =
  match job_data (redis_client q) !! jid with
  | None => (None, c, q)
  | Some (_, job) =>
      match started_at job with
      | None => (None, c, q)
      | Some st =>
          if now - st >? max_processing_time * 1000000 then
            if retry_count job + 1 <? max_retries job then
              (None, c + 1,
               with_redis
                 (setex_job (job_key job) (job_timeout q) (retried job)
                    (zadd_waiting jid (score_of (priority job))
                       (srem_processing jid (redis_client q)))) q)
            else
              (None, c,
               with_redis
                 (expire_failed 7200
                    (sadd_failed (job_key job)
                       (srem_processing (job_key job)
                          (setex_job (job_key job) 3600
                             (given_up job (now - st)) (redis_client q)))))
                 q)
          else (None, c, q)
      end
  end.
Proof.
  intros Hc. unfold requeue_one, get_job_data.
  destruct (job_data (redis_client q) !! jid) as [[ttl job] |]; [| done].
  simpl. destruct (started_at job) as [st |]; [| done].
  destruct (now - st >? max_processing_time * 1000000); [| done].
  simpl. destruct (retry_count job + 1 <? max_retries job).
  - unfold update_job. simpl. by rewrite Hc.
  - unfold update_job. simpl. by rewrite Hc.
Qed.

(** An iteration on [jid] keeps the queue connected and the records
    keyed, and leaves every other id as it was. *)
Lemma requeue_one_other
    (q : t) (max_processing_time now c : Z) (jid k : string) :
  connected q = true ->
  records_keyed (redis_client q) ->
  let '(e, _, q') := requeue_one q max_processing_time now c jid in
  e = None
  /\ connected q' = true
  /\ job_timeout q' = job_timeout q
  /\ records_keyed (redis_client q')
  /\ (k <> jid -> same_at k (redis_client q) (redis_client q')).
Proof.
  intros Hc Hk. rewrite requeue_one_connected by done.
  destruct (job_data (redis_client q) !! jid) as [[ttl job] |] eqn:Hd;
    [| by auto using same_at_refl].
  assert (Hkey : job_key job = jid) by (by eapply Hk).
  destruct (started_at job) as [st |]; [| by auto using same_at_refl].
  destruct (now - st >? max_processing_time * 1000000);
    [| by auto using same_at_refl].
  destruct (retry_count job + 1 <? max_retries job); simpl.
  - split_and!; try done.
    + change (job_key job) with (job_key (retried job)).
      apply records_keyed_setex.
      by apply (records_keyed_same_data (redis_client q)).
    + intros Hne. rewrite Hkey. unfold same_at. simpl.
      rewrite !lookup_insert_ne by done.
      rewrite ?elem_of_sadd_ne, ?elem_of_srem_ne by done. by split_and!.
  - split_and!; try done.
    + change (job_key job) with (job_key (given_up job (now - st))) at 3.
      eapply records_keyed_same_data; [| by apply records_keyed_setex].
      done.
    + intros Hne. rewrite Hkey. unfold same_at. simpl.
      rewrite !lookup_insert_ne by done.
      rewrite ?elem_of_sadd_ne, ?elem_of_srem_ne by done. by split_and!.
Qed.

Lemma requeue_loop_app
    (q : t) (max_processing_time now c : Z) (l1 l2 : list string) :
  requeue_loop q max_processing_time now c (l1 ++ l2)%list =
  match requeue_loop q max_processing_time now c l1 with
  | (None, c', q') => requeue_loop q' max_processing_time now c' l2
  | failure => failure
  end.
Proof.
  revert q c. induction l1 as [| jid l1 IH]; intros q c; simpl; [done |].
  destruct (requeue_one q max_processing_time now c jid) as [[[e |] c'] q'];
    [done | apply IH].
Qed.

(** The sweep over ids other than [k] leaves [k] as it was. *)
Lemma requeue_loop_other
    (max_processing_time now : Z) (k : string) (ids : list string) :
  forall (q : t) (c : Z),
    connected q = true ->
    records_keyed (redis_client q) ->
    k ∉ ids ->
    let '(e, _, q') := requeue_loop q max_processing_time now c ids in
    e = None
    /\ connected q' = true
    /\ job_timeout q' = job_timeout q
    /\ records_keyed (redis_client q')
    /\ same_at k (redis_client q) (redis_client q').
Proof.
  induction ids as [| jid ids IH]; intros q c Hc Hk Hnotin; simpl.
  - by auto using same_at_refl.
  - apply not_elem_of_cons in Hnotin as [Hne Hnotin].
    pose proof (requeue_one_other q max_processing_time now c jid k Hc Hk)
      as Hstep.
    destruct (requeue_one q max_processing_time now c jid) as [[e c1] q1].
    destruct Hstep as (-> & Hc1 & Ht1 & Hk1 & Hsame1).
    specialize (IH q1 c1 Hc1 Hk1 Hnotin).
    destruct (requeue_loop q1 max_processing_time now c1 ids) as [[e2 c2] q2].
    destruct IH as (-> & Hc2 & Ht2 & Hk2 & Hsame2).
    split_and!; [done | done | congruence | done |].
    eapply same_at_trans; [by apply Hsame1 | done].
Qed.

(** The sweep seen from one member [jid] of the processing set: some
    iterations that leave [jid] alone, the iteration on [jid], and again
    iterations that leave it alone. *)
Lemma requeue_stuck_jobs_at
    (q : t) (max_processing_time now : Z) (jid : string) :
  connected q = true ->
  records_keyed (redis_client q) ->
  jid ∈ processing (redis_client q) ->
  exists (q1 q2 : t) (c1 c2 : Z),
    connected q1 = true
    /\ job_timeout q1 = job_timeout q
    /\ same_at jid (redis_client q) (redis_client q1)
    /\ requeue_one q1 max_processing_time now c1 jid = (None, c2, q2)
    /\ same_at jid (redis_client q2)
         (redis_client (requeue_stuck_jobs q max_processing_time now).2).
Proof.
  intros Hc Hk Hin.
  apply elem_of_elements in Hin.
  pose proof (NoDup_elements (processing (redis_client q))) as Hnd.
  apply list_elem_of_split in Hin as (l1 & l2 & Hsplit).
  rewrite Hsplit in Hnd.
  apply NoDup_app in Hnd as (_ & Hl1 & Hnd).
  apply NoDup_cons in Hnd as (Hl2 & _).
  assert (Hnl1 : jid ∉ l1).
  { intros H. apply (Hl1 _ H). apply elem_of_cons. by left. }
  unfold requeue_stuck_jobs. rewrite Hc. simpl.
  rewrite Hsplit, requeue_loop_app.
  pose proof (requeue_loop_other max_processing_time now jid l1 q 0 Hc Hk Hnl1)
    as H1.
  destruct (requeue_loop q max_processing_time now 0 l1) as [[e1 c1] q1].
  destruct H1 as (-> & Hc1 & Ht1 & Hk1 & Hs1). simpl.
  pose proof (requeue_one_other q1 max_processing_time now c1 jid jid Hc1 Hk1)
    as H2.
  destruct (requeue_one q1 max_processing_time now c1 jid)
    as [[e2 c2] q2] eqn:Hone.
  destruct H2 as (-> & Hc2 & Ht2 & Hk2 & _).
  pose proof (requeue_loop_other max_processing_time now jid l2 q2 c2
                Hc2 Hk2 Hl2) as H3.
  destruct (requeue_loop q2 max_processing_time now c2 l2) as [[e3 c3] q3].
  destruct H3 as (-> & Hc3 & Ht3 & Hk3 & Hs3). simpl.
  exists q1, q2, c1, c2. by split_and!.
Qed.

(** C4. [requeue_stuck_jobs] deals as follows with a job [jid] of the
    processing set that was started at [st]:
    - when its processing time exceeds the threshold and its retry count,
      once incremented, is still below [max_retries], the id leaves the
      processing set and enters the waiting set with the score of its
      unchanged priority, and the record is rewritten with status
      [QUEUED], the retry count incremented by one and [started_at]
      cleared;
    - when its processing time exceeds the threshold and the incremented
      retry count reaches [max_retries], the id leaves the processing set
      and enters the failed set, and the record is rewritten with status
      [FAILED] and an error message;
    - when its processing time is within the threshold, nothing about it
      changes. *)
Theorem requeue_stuck_jobs_spec
    (q : t) (max_processing_time now : Z) (jid : string) (ttl : Z)
    (job : TranscriptJob) (st : Z) :
  connected q = true ->
  records_keyed (redis_client q) ->
  jid ∈ processing (redis_client q) ->
  job_data (redis_client q) !! jid = Some (ttl, job) ->
  started_at job = Some st ->
  let r := redis_client q in
  let r' := redis_client (requeue_stuck_jobs q max_processing_time now).2 in
  (now - st > max_processing_time * 1000000 ->
   retry_count job + 1 < max_retries job ->
   (jid ∉ processing r')
   /\ waiting r' !! jid = Some (score_of (priority job))
   /\ job_data r' !! jid = Some (job_timeout q, retried job)
   /\ status (retried job) = QUEUED
   /\ retry_count (retried job) = retry_count job + 1
   /\ started_at (retried job) = None
   /\ priority (retried job) = priority job
   /\ (jid ∈ failed r' <-> jid ∈ failed r))
  /\ (now - st > max_processing_time * 1000000 ->
      max_retries job <= retry_count job + 1 ->
      (jid ∉ processing r')
      /\ (jid ∈ failed r')
      /\ waiting r' !! jid = waiting r !! jid
      /\ job_data r' !! jid = Some (3600, given_up job (now - st))
      /\ status (given_up job (now - st)) = FAILED
      /\ is_Some (error (given_up job (now - st))))
  /\ (now - st <= max_processing_time * 1000000 -> same_at jid r r').
Proof.
  intros Hc Hk Hin Hd Hst r r'.
  destruct (requeue_stuck_jobs_at q max_processing_time now jid Hc Hk Hin)
    as (q1 & q2 & c1 & c2 & Hc1 & Ht1 & Hs1 & Hone & Hs2).
  fold r r' in Hs1, Hs2.
  rewrite requeue_one_connected in Hone by done.
  destruct Hs1 as (Hw1 & Hp1 & Hcm1 & Hf1 & Hd1).
  rewrite Hd1 in Hone. fold r in Hd. rewrite Hd, Hst in Hone.
  assert (Hkey : job_key job = jid) by (by eapply Hk).
  destruct Hs2 as (Hw2 & Hp2 & Hcm2 & Hf2 & Hd2).
  split_and!.
  - intros Hstuck Hretry.
    assert (E1 : (now - st >? max_processing_time * 1000000) = true) by lia.
    assert (E2 : (retry_count job + 1 <? max_retries job) = true) by lia.
    rewrite E1, E2 in Hone. injection Hone as _ <-.
    simpl in Hw2, Hp2, Hf2, Hd2. rewrite Hkey in Hd2.
    rewrite lookup_insert_eq in Hw2. rewrite lookup_insert_eq in Hd2.
    split_and!; try done.
    + rewrite Hp2. apply not_elem_of_srem.
    + by rewrite Hd2, Ht1.
    + by rewrite Hf2, Hf1.
  - intros Hstuck Hretry.
    assert (E1 : (now - st >? max_processing_time * 1000000) = true) by lia.
    assert (E2 : (retry_count job + 1 <? max_retries job) = false) by lia.
    rewrite E1, E2 in Hone. injection Hone as _ <-.
    simpl in Hw2, Hp2, Hf2, Hd2. rewrite Hkey in Hp2, Hf2, Hd2.
    rewrite lookup_insert_eq in Hd2.
    split_and!; try done.
    + rewrite Hp2. apply not_elem_of_srem.
    + rewrite Hf2. apply elem_of_sadd.
    + by rewrite Hw2, Hw1.
  - intros Hwithin.
    assert (E1 : (now - st >? max_processing_time * 1000000) = false) by lia.
    rewrite E1 in Hone. injection Hone as _ <-.
    eapply same_at_trans; [| by split_and!]. by split_and!.
Qed.

(** *** The keyed-records invariant holds on every queue the operations
    build from an empty store *)

Lemma add_job_keyed (q : t) (job : TranscriptJob) (uuid4 : string) (now : Z) :
  records_keyed (redis_client q) ->
  records_keyed (redis_client (add_job q job uuid4 now).2).
Proof.
  intros Hk. unfold add_job.
  destruct (negb (connected q)); [done |].
  destruct (_ >=? _); [done |]. simpl.
  apply records_keyed_setex.
  by apply (records_keyed_same_data (redis_client q)).
Qed.

Lemma update_job_keyed (q : t) (job : TranscriptJob) (now : Z) :
  records_keyed (redis_client q) ->
  records_keyed (redis_client (update_job q job now).2).
Proof.
  intros Hk. unfold update_job.
  destruct (negb (connected q)); [done |].
  destruct (status job) eqn:Hs; simpl; rewrite ?Hs; simpl.
  - by apply records_keyed_setex.
  - by apply records_keyed_setex.
  - change (job_key (set_completed_at (Some now) job)) with (job_key job).
    eapply records_keyed_same_data; [| by apply records_keyed_setex]. done.
  - change (job_key (set_completed_at (Some now) job)) with (job_key job).
    eapply records_keyed_same_data; [| by apply records_keyed_setex]. done.
Qed.

Lemma get_next_job_keyed (q : t) (now : Z) :
  records_keyed (redis_client q) ->
  records_keyed (redis_client (get_next_job q now).2).
Proof.
  intros Hk. unfold get_next_job.
  destruct (negb (connected q)); [done |].
  destruct (zpopmax_waiting (redis_client q)) as [[[jid sc] |] r] eqn:Hpop;
    [| done].
  destruct (zpopmax_waiting_spec _ _ _ _ Hpop) as (_ & _ & _ & _ & _ & _ & Hd).
  assert (Hr : records_keyed r) by (by eapply records_keyed_same_data).
  destruct (get_job_data jid r) as [job |]; [| done].
  set (job' := set_started_at (Some now) (set_status PROCESSING job)).
  pose proof (update_job_keyed (with_redis (sadd_processing jid r) q) job' now)
    as Hu.
  destruct (update_job _ job' now) as [[[e |] j] q']; simpl in *;
    apply Hu; by eapply records_keyed_same_data.
Qed.

Lemma add_jobs_keyed (l : list (string * Z)) (now : Z) :
  forall q, records_keyed (redis_client q) ->
            records_keyed (redis_client (Samples.add_jobs q l now)).
Proof.
  induction l as [| [uuid p] l IH]; intros q Hk; [done |].
  apply IH. by apply add_job_keyed.
Qed.

Lemma queue_one_processing_keyed :
  records_keyed (redis_client Samples.queue_one_processing).
Proof.
  apply get_next_job_keyed, add_jobs_keyed, records_keyed_empty.
Qed.

(** *** The claims at sample inputs *)

Lemma get_next_job_missing_record_witness :
  let q := Samples.queue_expired_record in
  connected q = true
  /\ job_data (redis_client q) !! "b" = None
  /\ (get_next_job q 20).1 = None
  /\ ("b" ∈ dom (waiting (redis_client q)))
  /\ ("b" ∉ dom (waiting (redis_client (get_next_job q 20).2)))
  /\ processing (redis_client (get_next_job q 20).2) = ∅.
Proof.
  intros q.
  assert (Hpop : exists r', zpopmax_waiting (redis_client q) = (Some ("b", 0), r')).
  { eexists. vm_compute. reflexivity. }
  destruct Hpop as [r' Hpop].
  destruct (get_next_job_missing_record q 20 "b" 0 r'
              ltac:(reflexivity) Hpop ltac:(reflexivity))
    as (Hnext & Hin & Hw & Hout & Hp & _).
  split; [reflexivity |]. split; [reflexivity |].
  split; [by rewrite Hnext |].
  split; [apply elem_of_dom; eexists; exact Hin |].
  rewrite Hnext.
  split; [apply not_elem_of_dom; exact Hout |].
  change (processing r' = ∅). rewrite Hp. reflexivity.
Defined.

Lemma add_job_capacity_witness :
  let q := Samples.queue_at_capacity in
  let job := Samples.new_job "abc12345678" 0 in
  connected q = true
  /\ size (waiting (redis_client q)) = 1%nat
  /\ size (processing (redis_client q)) = 1%nat
  /\ max_queue_size q = 2
  /\ (add_job q job "c" 30).1.1 = inl (QueueFull 2)
  /\ (add_job q job "c" 30).2 = q.
Proof.
  intros q job.
  pose proof (add_job_capacity q job "c" 30 ltac:(reflexivity)) as H.
  destruct (add_job q job "c" 30) as [[res job'] q'].
  destruct H as (_ & Hfull & _).
  destruct Hfull as [-> ->]; [vm_compute; discriminate |].
  by split_and!.
Defined.

(** C5 as stated, at a failing input.  The id "a" is waiting with
    priority 5 and the queue is below its capacity.  A job that carries
    the id "a" is added: [add_job] returns "a", which is in the queue
    already and so is not a fresh id; no id is inserted, the waiting set
    keeps its one member, and the score and the record of "a" are
    written over. *)
Theorem add_job_returns_stored_id :
  let q := Samples.add_jobs (Samples.fresh_queue 10) [("a", 5)] 10 in
  let job := set_job_id (Some "a") (Samples.new_job "xyz12345678" 1) in
  let '(res, _, q') := add_job q job "b" 20 in
  connected q = true
  /\ get_queue_size q < max_queue_size q
  /\ waiting (redis_client q) !! "a" = Some (-5)
  /\ (video_id <$> get_job q "a") = Some "abc12345678"
  /\ res = inr "a"
  /\ dom (waiting (redis_client q')) = dom (waiting (redis_client q))
  /\ size (waiting (redis_client q')) = 1%nat
  /\ waiting (redis_client q') !! "a" = Some (-1)
  /\ (video_id <$> get_job q' "a") = Some "xyz12345678".
Proof. vm_compute. split_and!; try done. Qed.

(** The capacity scenario: with capacity 2 and two jobs waiting or in
    processing a third [add_job] raises; once one of them has completed
    the same call succeeds. *)
Example add_job_capacity_two :
  let q := Samples.queue_at_capacity in
  let job := Samples.new_job "abc12345678" 0 in
  (add_job q job "c" 30).1.1 = inl (QueueFull 2)
  /\ (add_job
        (update_job q (set_status COMPLETED Samples.job_a_processing) 25).2
        job "c" 30).1.1 = inr "c".
Proof. vm_compute. done. Qed.

Lemma requeue_stuck_jobs_spec_witness :
  let q := Samples.queue_one_processing in
  let r' := redis_client (requeue_stuck_jobs q 3600 3700000020).2 in
  ("a" ∈ processing (redis_client q))
  /\ ("a" ∉ processing r')
  /\ waiting r' !! "a" = Some 0
  /\ job_data r' !! "a" = Some (600, retried Samples.job_a_processing).
Proof.
  intros q r'.
  assert (Hin : "a" ∈ processing (redis_client q)) by (by vm_compute).
  destruct (requeue_stuck_jobs_spec q 3600 3700000020 "a" 600
              Samples.job_a_processing 20
              ltac:(reflexivity) queue_one_processing_keyed Hin
              ltac:(reflexivity) ltac:(reflexivity))
    as (Hretry & _ & _).
  destruct Hretry as (Hp & Hw & Hd & _); [lia | simpl; lia |].
  split_and!; [exact Hin | exact Hp | exact Hw | exact Hd].
Defined.

(** The recovery scenario: a job with [retry_count = 0] and
    [max_retries = 3] that gets stuck each time it is handed out is
    requeued with retry counts 1 and 2 and fails at retry count 3. *)
Example requeue_stuck_jobs_three_rounds :
  let hour := 3600000000 in
  let q0 := Samples.queue_one_processing in
  let q1 := (requeue_stuck_jobs q0 3600 (2 * hour)).2 in
  let q2 := (requeue_stuck_jobs (get_next_job q1 (3 * hour)).2 3600 (5 * hour)).2 in
  let q3 := (requeue_stuck_jobs (get_next_job q2 (6 * hour)).2 3600 (8 * hour)).2 in
  let view q := (fun j => (status j, retry_count j)) <$> get_job q "a" in
  view q1 = Some (QUEUED, 1)
  /\ view q2 = Some (QUEUED, 2)
  /\ view q3 = Some (FAILED, 3)
  /\ (error <$> get_job q3 "a")
     = Some (Some "Max retries exceeded (stuck for 7200.0s)")
  /\ ("a" ∈ failed (redis_client q3)).
Proof. vm_compute. done. Qed.

End QueueFacts.

(** ** The extraction orchestrator *)

Section ExtractorFacts.

Import TranscriptExtractor.

Variable settings : Settings.
Variable adapters : TranscriptMethod -> string -> list string -> AdapterOutcome.
Variable video_id : string.
Variable languages : list string.
Variable use_fallback_methods use_vpn_rotation : bool.
Variable now processing_time : Z.

Local Abbreviation enabled := (_is_method_enabled settings).
Local Abbreviation loop todo e last_error calls :=
  (try_methods settings adapters todo e video_id languages
     use_fallback_methods use_vpn_rotation now processing_time
     last_error calls).

(** The loop only appends to the list of calls.  When a method [k] among
    the new calls returned segments, the loop returned from inside with a
    success response naming [k], and the new calls are the enabled
    methods in front of [k], then [k]. *)
Lemma try_methods_attempted_success (todo : list TranscriptMethod) :
  forall (e : t) (last_error : option string) (calls0 : list TranscriptMethod),
  exists new : list TranscriptMethod,
    (loop todo e last_error calls0).2 = (calls0 ++ new)%list
    /\ forall (k : TranscriptMethod) (r : AdapterResult),
         k ∈ new ->
         adapters k video_id languages = Returns (Some r) ->
         ar_segments r <> [] ->
         (exists before after,
             todo = (before ++ k :: after)%list
             /\ new = (List.filter enabled before ++ [k])%list)
         /\ exists response,
             (loop todo e last_error calls0).1.1 = Returned response
             /\ success response = true
             /\ method_used response = Some k
             /\ segments response = ar_segments r
             /\ resp_error response = None.
Proof.
  induction todo as [| m todo IH]; intros e last_error calls0.
  - exists []. simpl. split; [by rewrite app_nil_r |].
    intros k r Hk. by inversion Hk.
  - simpl. destruct (enabled m) eqn:Hen; simpl.
    + set (e1 := if use_vpn_rotation then _ else e).
      destruct (adapters m video_id languages) as [msg | [result |]] eqn:Ha.
      * (* the method raised *)
        destruct use_fallback_methods; simpl.
        -- set (e2 := Build_t _ _).
           destruct (IH e2 (Some msg) (calls0 ++ [m])%list) as (new & Hc & Hs).
           exists (m :: new). split.
           { rewrite Hc. by rewrite <- app_assoc. }
           intros k r Hk Hok Hseg.
           apply elem_of_cons in Hk as [-> | Hk]; [congruence |].
           destruct (Hs k r Hk Hok Hseg) as ((before & after & -> & ->) & Hr).
           split; [| exact Hr].
           exists (m :: before), after. simpl. by rewrite Hen.
        -- exists [m]. split; [done |].
           intros k r Hk Hok Hseg.
           apply list_elem_of_singleton in Hk as ->. congruence.
      * destruct (ar_segments result) as [| s segs] eqn:Hsegs.
        -- (* an empty list of segments *)
           destruct (IH e1 last_error (calls0 ++ [m])%list) as (new & Hc & Hs).
           exists (m :: new). split.
           { rewrite Hc. by rewrite <- app_assoc. }
           intros k r Hk Hok Hseg.
           apply elem_of_cons in Hk as [-> | Hk]; [congruence |].
           destruct (Hs k r Hk Hok Hseg) as ((before & after & -> & ->) & Hr).
           split; [| exact Hr].
           exists (m :: before), after. simpl. by rewrite Hen.
        -- (* segments: the loop returns *)
           exists [m]. split; [done |].
           intros k r Hk Hok Hseg.
           apply list_elem_of_singleton in Hk as ->.
           assert (r = result) as -> by congruence.
           split; [by exists [], todo |].
           eexists. simpl. split; [reflexivity |]. by rewrite Hsegs.
      * (* the method returned None *)
        destruct (IH e1 last_error (calls0 ++ [m])%list) as (new & Hc & Hs).
        exists (m :: new). split.
        { rewrite Hc. by rewrite <- app_assoc. }
        intros k r Hk Hok Hseg.
        apply elem_of_cons in Hk as [-> | Hk]; [congruence |].
        destruct (Hs k r Hk Hok Hseg) as ((before & after & -> & ->) & Hr).
        split; [| exact Hr].
        exists (m :: before), after. simpl. by rewrite Hen.
    + destruct (IH e last_error calls0) as (new & Hc & Hs).
      exists new. split; [exact Hc |].
      intros k r Hk Hok Hseg.
      destruct (Hs k r Hk Hok Hseg) as ((before & after & -> & ->) & Hr).
      split; [| exact Hr].
      exists (m :: before), after. simpl. by rewrite Hen.
Qed.

(** A method [k] is attempted when the enabled methods in front of it
    returned no segments and, if fallback is off, did not raise. *)
Lemma try_methods_attempts
    (before after : list TranscriptMethod) (k : TranscriptMethod) :
  enabled k = true ->
  (forall x r, x ∈ before -> enabled x = true ->
     adapters x video_id languages = Returns (Some r) -> ar_segments r = []) ->
  (use_fallback_methods = false ->
   forall x msg, x ∈ before -> enabled x = true ->
     adapters x video_id languages <> Raises msg) ->
  forall (e : t) (last_error : option string) (calls0 : list TranscriptMethod),
    k ∈ (loop (before ++ k :: after)%list e last_error calls0).2.
Proof.
  intros Hk. induction before as [| m before IH]; intros Hempty Hraise e le c0.
  - simpl. rewrite Hk. simpl.
    set (e1 := if use_vpn_rotation then _ else e).
    pose proof (try_methods_attempted_success after) as Hafter.
    assert (Hin : forall new : list TranscriptMethod,
               k ∈ ((c0 ++ [k]) ++ new)%list).
    { intros new. rewrite !elem_of_app, list_elem_of_singleton. tauto. }
    destruct (adapters k video_id languages) as [msg | [result |]].
    + destruct use_fallback_methods; simpl.
      * match goal with
        | |- context [try_methods _ _ _ ?e' _ _ _ _ _ _ ?le' _] =>
            destruct (Hafter e' le' (c0 ++ [k])%list) as (new & -> & _)
        end.
        apply Hin.
      * rewrite elem_of_app, list_elem_of_singleton. tauto.
    + destruct (ar_segments result).
      * destruct (Hafter e1 le (c0 ++ [k])%list) as (new & -> & _). apply Hin.
      * simpl. rewrite elem_of_app, list_elem_of_singleton. tauto.
    + destruct (Hafter e1 le (c0 ++ [k])%list) as (new & -> & _). apply Hin.
  - assert (Hempty' : forall x r, x ∈ before -> enabled x = true ->
              adapters x video_id languages = Returns (Some r) ->
              ar_segments r = []).
    { intros x r Hx. apply Hempty. apply elem_of_cons. by right. }
    assert (Hraise' : use_fallback_methods = false ->
              forall x msg, x ∈ before -> enabled x = true ->
              adapters x video_id languages <> Raises msg).
    { intros Hfb x msg Hx. apply (Hraise Hfb). apply elem_of_cons. by right. }
    specialize (IH Hempty' Hraise').
    assert (Hm : m ∈ m :: before) by (apply elem_of_cons; by left).
    simpl. destruct (enabled m) eqn:Hen; simpl; [| apply IH].
    destruct (adapters m video_id languages) as [msg | [result |]] eqn:Ha.
    + destruct use_fallback_methods; simpl; [apply IH |].
      by destruct (Hraise eq_refl m msg Hm Hen).
    + rewrite (Hempty m result Hm Hen Ha). apply IH.
    + apply IH.
Qed.

(** With fallback off, a first enabled method that raises ends the call:
    it is the only method invoked and its message is the error. *)
Lemma try_methods_no_fallback_raises
    (before after : list TranscriptMethod) (m : TranscriptMethod)
    (msg : string) :
  use_fallback_methods = false ->
  (forall x, x ∈ before -> enabled x = false) ->
  enabled m = true ->
  adapters m video_id languages = Raises msg ->
  forall (e : t) (last_error : option string) (calls0 : list TranscriptMethod),
    (loop (before ++ m :: after)%list e last_error calls0).1.1
    = Ended (Some msg)
    /\ (loop (before ++ m :: after)%list e last_error calls0).2
       = (calls0 ++ [m])%list.
Proof.
  intros Hfb Hdis Hen Ha.
  induction before as [| x before IH]; intros e le c0; simpl.
  - rewrite Hen, Ha, Hfb. simpl. done.
  - rewrite (Hdis x) by (apply elem_of_cons; by left). simpl.
    apply IH. intros y Hy. apply Hdis. apply elem_of_cons. by right.
Qed.

End ExtractorFacts.

Lemma NoDup_methods : NoDup TranscriptExtractor.methods.
Proof. by apply (bool_decide_unpack _). Qed.

(** In terms of the invocation log: whenever a method [k] is attempted
    during [extract_transcript] and its attempt returns at least one
    segment, the call returns a success response whose [method_used] is
    [k]; the methods invoked are the enabled methods in front of [k] in
    the fixed order and then [k], and no method behind [k] is invoked. *)
Lemma extract_transcript_first_success
    (settings : TranscriptExtractor.Settings)
    (adapters : TranscriptMethod -> string -> list string
                -> TranscriptExtractor.AdapterOutcome)
    (e : TranscriptExtractor.t) (video_id : string)
    (language_preference : option (list string))
    (use_fallback_methods use_vpn_rotation : bool) (now processing_time : Z)
    (k : TranscriptMethod) (r : TranscriptExtractor.AdapterResult) :
  let languages := default ["en"; "hi"; "mr"] language_preference in
  let '(response, _, calls) :=
    TranscriptExtractor.extract_transcript settings adapters e video_id
      language_preference use_fallback_methods use_vpn_rotation
      now processing_time in
  k ∈ calls ->
  adapters k video_id languages = TranscriptExtractor.Returns (Some r) ->
  TranscriptExtractor.ar_segments r <> [] ->
  success response = true
  /\ method_used response = Some k
  /\ segments response = TranscriptExtractor.ar_segments r
  /\ exists before after,
       TranscriptExtractor.methods = (before ++ k :: after)%list
       /\ calls
          = (List.filter (TranscriptExtractor._is_method_enabled settings) before
             ++ [k])%list
       /\ forall m, m ∈ after -> m ∉ calls.
Proof.
  intros languages. unfold TranscriptExtractor.extract_transcript.
  fold languages.
  match goal with
  | |- context [TranscriptExtractor.try_methods _ _ ?todo ?e1 _ _ _ _ _ _ ?le ?c0] =>
      destruct (try_methods_attempted_success settings adapters video_id
                  languages use_fallback_methods use_vpn_rotation now
                  processing_time todo e1 le c0) as (new & Hcalls & Hsucc);
      destruct (TranscriptExtractor.try_methods settings adapters todo e1
                  video_id languages use_fallback_methods use_vpn_rotation
                  now processing_time le c0) as [[res e'] calls]
  end.
  simpl in Hcalls. subst calls.
  assert (Hgoal :
    k ∈ new ->
    adapters k video_id languages = TranscriptExtractor.Returns (Some r) ->
    TranscriptExtractor.ar_segments r <> [] ->
    exists response,
      res = TranscriptExtractor.Returned response
      /\ success response = true
      /\ method_used response = Some k
      /\ segments response = TranscriptExtractor.ar_segments r
      /\ exists before after,
           TranscriptExtractor.methods = (before ++ k :: after)%list
           /\ new
              = (List.filter (TranscriptExtractor._is_method_enabled settings)
                   before ++ [k])%list
           /\ forall m, m ∈ after -> m ∉ new).
  { intros Hk Hok Hseg.
    destruct (Hsucc k r Hk Hok Hseg)
      as ((before & after & Hm & Hnew) & response & Hres & H1 & H2 & H3 & _).
    exists response. simpl in Hres. split_and!; try done.
    exists before, after. split_and!; try done.
    intros m Hafter Hin.
    pose proof NoDup_methods as Hnd. rewrite Hm in Hnd.
    apply NoDup_app in Hnd as (_ & Hba & Hka).
    apply NoDup_cons in Hka as (Hka & _).
    rewrite Hnew in Hin. apply elem_of_app in Hin as [Hin | Hin].
    - apply list_elem_of_In, filter_In in Hin as [Hin _].
      apply list_elem_of_In in Hin.
      apply (Hba m Hin). apply elem_of_cons. by right.
    - apply list_elem_of_singleton in Hin as ->. done. }
  destruct res as [response | last_error].
  - intros Hk Hok Hseg.
    destruct (Hgoal Hk Hok Hseg) as (resp & [= <-] & H).
    exact H.
  - intros Hk Hok Hseg.
    by destruct (Hgoal Hk Hok Hseg) as (resp & [=] & _).
Qed.

Lemma extract_transcript_first_success_witness :
  let '(response, _, calls) :=
    TranscriptExtractor.extract_transcript Samples.all_enabled
      Samples.adapters_raise_then_ok Samples.fresh_extractor "abc12345678"
      None true false 0 5 in
  (XML_DIRECT ∈ calls)
  /\ success response = true
  /\ method_used response = Some XML_DIRECT
  /\ segments response = Samples.one_segment.
Proof.
  pose proof (extract_transcript_first_success Samples.all_enabled
                Samples.adapters_raise_then_ok Samples.fresh_extractor
                "abc12345678" None true false 0 5 XML_DIRECT
                {| TranscriptExtractor.ar_segments := Samples.one_segment;
                   TranscriptExtractor.ar_language := Some "en";
                   TranscriptExtractor.ar_metadata :=
                     [("source", "xml_direct")] |}) as H.
  simpl in H. simpl.
  assert (Hin : XML_DIRECT ∈ [YOUTUBE_TRANSCRIPT_API; XML_DIRECT]).
  { apply elem_of_cons. right. apply elem_of_cons. by left. }
  destruct (H Hin ltac:(reflexivity) ltac:(discriminate))
    as (H1 & H2 & H3 & _).
  split; [exact Hin |]. split; [exact H1 |]. split; [exact H2 | exact H3].
Defined.

(** In terms of what the methods would do: when [k] is enabled and returns
    segments, every enabled method in front of it returns none, and
    fallback is on (or none of them raises), then [k] is attempted and the
    call succeeds with [k]. *)
Lemma extract_transcript_first_enabled_success
    (settings : TranscriptExtractor.Settings)
    (adapters : TranscriptMethod -> string -> list string
                -> TranscriptExtractor.AdapterOutcome)
    (e : TranscriptExtractor.t) (video_id : string)
    (language_preference : option (list string))
    (use_fallback_methods use_vpn_rotation : bool) (now processing_time : Z)
    (before after : list TranscriptMethod) (k : TranscriptMethod)
    (r : TranscriptExtractor.AdapterResult) :
  let languages := default ["en"; "hi"; "mr"] language_preference in
  TranscriptExtractor.methods = (before ++ k :: after)%list ->
  TranscriptExtractor._is_method_enabled settings k = true ->
  adapters k video_id languages = TranscriptExtractor.Returns (Some r) ->
  TranscriptExtractor.ar_segments r <> [] ->
  (forall x r', x ∈ before ->
     TranscriptExtractor._is_method_enabled settings x = true ->
     adapters x video_id languages = TranscriptExtractor.Returns (Some r') ->
     TranscriptExtractor.ar_segments r' = []) ->
  (use_fallback_methods = false ->
   forall x msg, x ∈ before ->
     TranscriptExtractor._is_method_enabled settings x = true ->
     adapters x video_id languages <> TranscriptExtractor.Raises msg) ->
  let '(response, _, calls) :=
    TranscriptExtractor.extract_transcript settings adapters e video_id
      language_preference use_fallback_methods use_vpn_rotation
      now processing_time in
  (k ∈ calls)
  /\ success response = true
  /\ method_used response = Some k.
Proof.
  intros languages Hm Hen Hok Hseg Hempty Hraise.
  unfold TranscriptExtractor.extract_transcript. fold languages. rewrite Hm.
  match goal with
  | |- context [TranscriptExtractor.try_methods _ _ ?todo ?e1 _ _ _ _ _ _ ?le ?c0] =>
      pose proof (try_methods_attempts settings adapters video_id languages
                    use_fallback_methods use_vpn_rotation now processing_time
                    before after k Hen Hempty Hraise e1 le c0) as Hin;
      destruct (try_methods_attempted_success settings adapters video_id
                  languages use_fallback_methods use_vpn_rotation now
                  processing_time todo e1 le c0) as (new & Hcalls & Hsucc);
      destruct (TranscriptExtractor.try_methods settings adapters todo e1
                  video_id languages use_fallback_methods use_vpn_rotation
                  now processing_time le c0) as [[res e'] calls]
  end.
  simpl in Hin, Hcalls. subst calls.
  destruct (Hsucc k r Hin Hok Hseg) as (_ & response & Hres & H1 & H2 & _).
  simpl in Hres. subst res. done.
Qed.

Lemma NoDup_split_unique {A : Type} (k : A) (b1 a1 b2 a2 : list A) :
  NoDup (b1 ++ k :: a1) ->
  (b1 ++ k :: a1 = b2 ++ k :: a2)%list ->
  b1 = b2 /\ a1 = a2.
Proof.
  revert b2. induction b1 as [| x b1 IH]; intros b2 Hnd Heq.
  - destruct b2 as [| y b2]; simpl in *.
    + by injection Heq as ->.
    + injection Heq as <- Heq. apply NoDup_cons in Hnd as [Hk _].
      exfalso. apply Hk. rewrite Heq, elem_of_app, elem_of_cons. tauto.
  - destruct b2 as [| y b2]; simpl in *.
    + injection Heq as -> Heq. apply NoDup_cons in Hnd as [Hk _].
      exfalso. apply Hk. rewrite elem_of_app, elem_of_cons. tauto.
    + injection Heq as <- Heq. apply NoDup_cons in Hnd as [_ Hnd].
      destruct (IH b2 Hnd Heq) as [-> ->]. done.
Qed.

(** C2, amended.  Let [k] be the first enabled method that returns at
    least one segment for the video: it is enabled and returns segments,
    and no enabled method in front of it does.  When fallback is on, or no
    enabled method in front of [k] raises, [extract_transcript] invokes
    the enabled methods in front of [k] and then [k], returns a success
    response whose [method_used] is [k] and whose segments are those [k]
    returned, and invokes no method behind [k]. *)
Theorem extract_transcript_first_enabled_reached
    (settings : TranscriptExtractor.Settings)
    (adapters : TranscriptMethod -> string -> list string
                -> TranscriptExtractor.AdapterOutcome)
    (e : TranscriptExtractor.t) (video_id : string)
    (language_preference : option (list string))
    (use_fallback_methods use_vpn_rotation : bool) (now processing_time : Z)
    (before after : list TranscriptMethod) (k : TranscriptMethod)
    (r : TranscriptExtractor.AdapterResult) :
  let languages := default ["en"; "hi"; "mr"] language_preference in
  TranscriptExtractor.methods = (before ++ k :: after)%list ->
  TranscriptExtractor._is_method_enabled settings k = true ->
  adapters k video_id languages = TranscriptExtractor.Returns (Some r) ->
  TranscriptExtractor.ar_segments r <> [] ->
  (forall x, x ∈ before ->
     TranscriptExtractor._is_method_enabled settings x = true ->
     TranscriptExtractor.has_segments (adapters x video_id languages) = false) ->
  (use_fallback_methods = false ->
   forall x, x ∈ before ->
     TranscriptExtractor._is_method_enabled settings x = true ->
     TranscriptExtractor.raised (adapters x video_id languages) = None) ->
  let '(response, _, calls) :=
    TranscriptExtractor.extract_transcript settings adapters e video_id
      language_preference use_fallback_methods use_vpn_rotation
      now processing_time in
  calls
  = (List.filter (TranscriptExtractor._is_method_enabled settings) before
     ++ [k])%list
  /\ success response = true
  /\ method_used response = Some k
  /\ segments response = TranscriptExtractor.ar_segments r
  /\ forall m, m ∈ after -> m ∉ calls.
Proof.
  intros languages Hm Hen Hok Hseg Hnone Hraise.
  assert (Hempty : forall x r', x ∈ before ->
            TranscriptExtractor._is_method_enabled settings x = true ->
            adapters x video_id languages
            = TranscriptExtractor.Returns (Some r') ->
            TranscriptExtractor.ar_segments r' = []).
  { intros x r' Hx Hex Hr'. specialize (Hnone x Hx Hex).
    rewrite Hr' in Hnone. simpl in Hnone.
    by destruct (TranscriptExtractor.ar_segments r'). }
  assert (Hraise' : use_fallback_methods = false ->
            forall x msg, x ∈ before ->
            TranscriptExtractor._is_method_enabled settings x = true ->
            adapters x video_id languages <> TranscriptExtractor.Raises msg).
  { intros Hfb x msg Hx Hex Hr'. specialize (Hraise Hfb x Hx Hex).
    by rewrite Hr' in Hraise. }
  pose proof (extract_transcript_first_enabled_success settings adapters e
                video_id language_preference use_fallback_methods
                use_vpn_rotation now processing_time before after k r
                Hm Hen Hok Hseg Hempty Hraise') as Hreach.
  pose proof (extract_transcript_first_success settings adapters e
                video_id language_preference use_fallback_methods
                use_vpn_rotation now processing_time k r) as Hfirst.
  cbv zeta in Hreach, Hfirst. fold languages in Hfirst.
  destruct (TranscriptExtractor.extract_transcript _ _ _ _ _ _ _ _ _)
    as [[response e'] calls].
  destruct Hreach as (Hin & _).
  destruct (Hfirst Hin Hok Hseg)
    as (H1 & H2 & H3 & before' & after' & Hm' & Hcalls & Hafter).
  pose proof NoDup_methods as Hnd. rewrite Hm in Hnd.
  rewrite Hm in Hm'.
  destruct (NoDup_split_unique k before after before' after' Hnd Hm')
    as [<- <-].
  by split_and!.
Qed.

Lemma extract_transcript_first_enabled_reached_witness :
  let '(response, _, calls) :=
    TranscriptExtractor.extract_transcript Samples.all_enabled
      Samples.adapters_raise_then_ok Samples.fresh_extractor "abc12345678"
      None true false 0 5 in
  calls = [YOUTUBE_TRANSCRIPT_API; XML_DIRECT]
  /\ success response = true
  /\ method_used response = Some XML_DIRECT
  /\ segments response = Samples.one_segment
  /\ YT_DLP ∉ calls.
Proof.
  pose proof (extract_transcript_first_enabled_reached Samples.all_enabled
                Samples.adapters_raise_then_ok Samples.fresh_extractor
                "abc12345678" None true false 0 5
                [YOUTUBE_TRANSCRIPT_API] [YT_DLP; WHISPER_AUDIO] XML_DIRECT
                {| TranscriptExtractor.ar_segments := Samples.one_segment;
                   TranscriptExtractor.ar_language := Some "en";
                   TranscriptExtractor.ar_metadata :=
                     [("source", "xml_direct")] |}) as H.
  cbv zeta in H.
  destruct (TranscriptExtractor.extract_transcript _ _ _ _ _ _ _ _ _)
    as [[response e'] calls].
  destruct H as (H1 & H2 & H3 & H4 & H5).
  - reflexivity.
  - reflexivity.
  - reflexivity.
  - discriminate.
  - intros x Hx _. apply list_elem_of_singleton in Hx as ->. reflexivity.
  - discriminate.
  - split_and!; [exact H1 | exact H2 | exact H3 | exact H4 |].
    apply H5. apply elem_of_cons. by left.
Defined.

(** C2 as stated, at a failing input.  Fallback is off and every method is
    enabled; the first method raises and the second returns a segment, so
    the second is the first enabled method that returns a segment.  The
    call invokes the first method only and returns failure: the second
    method is never tried. *)
Theorem extract_transcript_first_enabled_not_reached :
  let out m :=
    Samples.adapters_raise_then_ok m "abc12345678" ["en"; "hi"; "mr"] in
  let '(response, _, calls) :=
    TranscriptExtractor.extract_transcript Samples.all_enabled
      Samples.adapters_raise_then_ok Samples.fresh_extractor "abc12345678"
      None false false 0 5 in
  TranscriptExtractor._is_method_enabled Samples.all_enabled XML_DIRECT = true
  /\ TranscriptExtractor.has_segments (out XML_DIRECT) = true
  /\ TranscriptExtractor.has_segments (out YOUTUBE_TRANSCRIPT_API) = false
  /\ success response = false
  /\ method_used response = None
  /\ calls = [YOUTUBE_TRANSCRIPT_API].
Proof. vm_compute. done. Qed.

(** C3, at a failing input.  Fallback is off and every method is enabled.
    The first method returns an empty list of segments without raising;
    the orchestrator goes on to the second method and returns its
    success. *)
Theorem extract_transcript_no_fallback_empty_segments :
  let '(response, _, calls) :=
    TranscriptExtractor.extract_transcript Samples.all_enabled
      Samples.adapters_empty_then_ok Samples.fresh_extractor "abc12345678"
      None false false 0 5 in
  success response = true
  /\ method_used response = Some XML_DIRECT
  /\ calls = [YOUTUBE_TRANSCRIPT_API; XML_DIRECT].
Proof. vm_compute. done. Qed.

(** With fallback off, a first enabled method that raises makes
    [extract_transcript] return a failure carrying its message (the
    default text when the message is empty), and no other method is
    invoked. *)
Lemma extract_transcript_no_fallback_raises
    (settings : TranscriptExtractor.Settings)
    (adapters : TranscriptMethod -> string -> list string
                -> TranscriptExtractor.AdapterOutcome)
    (e : TranscriptExtractor.t) (video_id : string)
    (language_preference : option (list string))
    (use_vpn_rotation : bool) (now processing_time : Z)
    (before after : list TranscriptMethod) (m : TranscriptMethod)
    (msg : string) :
  TranscriptExtractor.methods = (before ++ m :: after)%list ->
  (forall x, x ∈ before ->
     TranscriptExtractor._is_method_enabled settings x = false) ->
  TranscriptExtractor._is_method_enabled settings m = true ->
  adapters m video_id (default ["en"; "hi"; "mr"] language_preference)
  = TranscriptExtractor.Raises msg ->
  let '(response, _, calls) :=
    TranscriptExtractor.extract_transcript settings adapters e video_id
      language_preference false use_vpn_rotation now processing_time in
  success response = false
  /\ method_used response = None
  /\ resp_error response = Some (TranscriptExtractor.error_text (Some msg))
  /\ calls = [m].
Proof.
  intros Hm Hdis Hen Ha. unfold TranscriptExtractor.extract_transcript.
  rewrite Hm.
  match goal with
  | |- context [TranscriptExtractor.try_methods _ _ _ ?e1 _ ?l _ _ _ _ ?le ?c0] =>
      destruct (try_methods_no_fallback_raises settings adapters video_id l
                  false use_vpn_rotation now processing_time before after m
                  msg eq_refl Hdis Hen Ha e1 le c0) as (Hres & Hcalls);
      destruct (TranscriptExtractor.try_methods settings adapters
                  (before ++ m :: after)%list e1
                  video_id l false use_vpn_rotation
                  now processing_time le c0) as [[res e'] calls]
  end.
  simpl in Hres, Hcalls. subst res calls. done.
Qed.

(** ** The proxy rotator *)

Section RotatorFacts.

Import VPNRotator.

Lemma set_current_proxy_index_same (r : t) :
  set_current_proxy_index (current_proxy_index r) r = r.
Proof. by destruct r. Qed.

Lemma set_current_proxy_index_twice (i j : nat) (r : t) :
  set_current_proxy_index j (set_current_proxy_index i r)
  = set_current_proxy_index j r.
Proof. done. Qed.

Lemma offset_index_step (r : t) (d : nat) :
  offset_index (set_current_proxy_index (offset_index r 0) r) d
  = offset_index r (S d).
Proof.
  unfold offset_index. simpl.
  rewrite <- Nat.add_assoc, Nat.Div0.add_mod_idemp_l.
  f_equal. lia.
Qed.

(** The loop of [rotate_proxy]: either it stops at the first offset whose
    identity is below the threshold, or every offset it tried is at or
    over the threshold and only the index has moved. *)
Lemma rotate_loop_spec (now : Z) (fuel : nat) :
  forall r : t,
    proxy_list r <> [] ->
    match rotate_loop fuel r now with
    | (true, r') =>
        exists (d : nat) (p : ProxyEndpoint),
          (d < fuel)%nat
          /\ proxy_list r !! offset_index r d = Some p
          /\ failure_count p < max_failures r
          /\ (forall d' p', (d' < d)%nat ->
                proxy_list r !! offset_index r d' = Some p' ->
                max_failures r <= failure_count p')
          /\ r' = rotated_to (offset_index r d) p now r
    | (false, r') =>
        (forall d' p', (d' < fuel)%nat ->
           proxy_list r !! offset_index r d' = Some p' ->
           max_failures r <= failure_count p')
        /\ exists i, r' = set_current_proxy_index i r
    end.
Proof.
  induction fuel as [| fuel IH]; intros r Hne; simpl.
  - split; [intros; lia |].
    exists (current_proxy_index r). by rewrite set_current_proxy_index_same.
  - assert (Hlen : (0 < length (proxy_list r))%nat).
    { destruct (proxy_list r); [done | simpl; lia]. }
    assert (Hidx0 : ((current_proxy_index r + 1) `mod` length (proxy_list r))%nat
                    = offset_index r 0).
    { unfold offset_index. by rewrite Nat.add_0_r. }
    rewrite Hidx0.
    assert (Hlt : (offset_index r 0 < length (proxy_list r))%nat).
    { unfold offset_index. apply Nat.mod_upper_bound. lia. }
    destruct (lookup_lt_is_Some_2 _ _ Hlt) as [p Hp]. rewrite Hp.
    destruct (failure_count p <? max_failures r) eqn:Hok.
    + exists 0%nat, p. split_and!; try done; [lia | lia |].
      intros d' p' Hd'. lia.
    + specialize (IH (set_current_proxy_index (offset_index r 0) r) Hne).
      destruct (rotate_loop fuel _ now) as [[|] r'].
      * destruct IH as (d & p' & Hd & Hl & Hf & Hprev & ->).
        rewrite offset_index_step in Hl.
        exists (S d), p'. split_and!; try done; [lia | |].
        -- intros d' q Hd' Hq. destruct d' as [| d'].
           ++ rewrite Hp in Hq. injection Hq as <-. lia.
           ++ apply (Hprev d' q); [lia |].
              by rewrite offset_index_step.
        -- by rewrite offset_index_step.
      * destruct IH as (Hall & i & ->). split; [| by exists i].
        intros d' q Hd' Hq. destruct d' as [| d'].
        -- rewrite Hp in Hq. injection Hq as <-. lia.
        -- apply (Hall d' q); [lia |]. by rewrite offset_index_step.
Qed.

(** Every position of the pool is some offset behind the current one. *)
Lemma offset_index_surjective (r : t) (i : nat) :
  (i < length (proxy_list r))%nat ->
  exists d, (d < length (proxy_list r))%nat /\ offset_index r d = i.
Proof.
  intros Hi. unfold offset_index.
  set (n := length (proxy_list r)) in *.
  set (a := ((current_proxy_index r + 1) `mod` n)%nat).
  assert (Ha : (a < n)%nat) by (apply Nat.mod_upper_bound; lia).
  destruct (le_lt_dec a i) as [Hle | Hgt].
  - exists (i - a)%nat. split; [lia |].
    rewrite <- Nat.Div0.add_mod_idemp_l. fold a.
    replace (a + (i - a))%nat with i by lia. by apply Nat.mod_small.
  - exists (i + n - a)%nat. split; [lia |].
    rewrite <- Nat.Div0.add_mod_idemp_l. fold a.
    replace (a + (i + n - a))%nat with (i + 1 * n)%nat by lia.
    rewrite Nat.Div0.mod_add. by apply Nat.mod_small.
Qed.

Lemma no_proxies_false (r : t) : proxy_list r <> [] -> no_proxies r = false.
Proof. unfold no_proxies. by destruct (proxy_list r). Qed.

(** C8, refuted as stated: every identity of the pool is at or over the
    threshold, and after [rotate_proxy] the pool is the same as before;
    the failure counts of its identities have not been reset. *)
Lemma rotate_proxy_keeps_failure_counts :
  let r := Samples.rotator_all_failed in
  enabled r = true
  /\ proxy_list r <> []
  /\ Forall (fun p => max_failures r <= failure_count p) (proxy_list r)
  /\ proxy_list (rotate_proxy r 100) = proxy_list r
  /\ ~ Forall (fun p => failure_count p = 0) (proxy_list (rotate_proxy r 100)).
Proof.
  simpl. split_and!; try done.
  - repeat constructor; simpl; lia.
  - intros H. inversion H as [| p l Hp _]. simpl in Hp. lia.
Qed.

(** C8, as the code has it.  For an enabled rotator with a non-empty pool:
    - when some identity is below the failure threshold, [rotate_proxy]
      moves [current_proxy_index] to the first identity behind the current
      one, cyclically, whose failure count is below the threshold, stamps
      that identity's [last_used], and resets [request_count] and
      [last_rotation];
    - when every identity is at or over the threshold, the pool and the
      failure counts of its identities stay as they are (the refresh
      returns at once on a non-empty pool), [current_proxy_index] becomes
      0, and [request_count] and [last_rotation] are reset. *)
Theorem rotate_proxy_spec (r : t) (now : Z) :
  enabled r = true ->
  proxy_list r <> [] ->
  let r' := rotate_proxy r now in
  ((exists p, p ∈ proxy_list r /\ failure_count p < max_failures r) ->
   exists (d : nat) (p : ProxyEndpoint),
     (d < length (proxy_list r))%nat
     /\ proxy_list r !! offset_index r d = Some p
     /\ failure_count p < max_failures r
     /\ (forall d' p', (d' < d)%nat ->
           proxy_list r !! offset_index r d' = Some p' ->
           max_failures r <= failure_count p')
     /\ current_proxy_index r' = offset_index r d
     /\ proxy_list r'
        = <[offset_index r d := set_last_used now p]> (proxy_list r)
     /\ request_count r' = 0
     /\ last_rotation r' = now)
  /\ ((forall p, p ∈ proxy_list r -> max_failures r <= failure_count p) ->
      proxy_list r' = proxy_list r
      /\ current_proxy_index r' = 0%nat
      /\ request_count r' = 0
      /\ last_rotation r' = now).
Proof.
  intros Hen Hne r'. subst r'. unfold rotate_proxy.
  rewrite Hen, (no_proxies_false r Hne). simpl.
  pose proof (rotate_loop_spec now (length (proxy_list r)) r Hne) as Hloop.
  destruct (rotate_loop (length (proxy_list r)) r now) as [[|] r1].
  - destruct Hloop as (d & p & Hd & Hl & Hf & Hprev & ->).
    split.
    + intros _. exists d, p. by split_and!.
    + intros Hall. exfalso.
      assert (Hp : p ∈ proxy_list r) by (by eapply list_elem_of_lookup_2).
      specialize (Hall p Hp). lia.
  - destruct Hloop as (Hall & i & ->).
    split.
    + intros (p & Hp & Hf). exfalso.
      apply list_elem_of_lookup in Hp as [j Hj].
      destruct (offset_index_surjective r j) as (d & Hd & <-).
      { by eapply lookup_lt_Some. }
      specialize (Hall d p Hd Hj). lia.
    + intros _. unfold fetch_proxy_list.
      change (no_proxies (set_current_proxy_index i r)) with (no_proxies r).
      rewrite (no_proxies_false r Hne). simpl.
      change (no_proxies (set_current_proxy_index 0 (set_current_proxy_index i r)))
        with (no_proxies r).
      by rewrite (no_proxies_false r Hne).
Qed.

Lemma rotate_proxy_spec_witness :
  let r := Samples.rotator_mixed in
  let r' := rotate_proxy r 100 in
  enabled r = true
  /\ proxy_list r <> []
  /\ current_proxy_index r' = 3%nat
  /\ request_count r' = 0
  /\ last_rotation r' = 100.
Proof.
  intros r r'.
  assert (Hne : proxy_list r <> []) by discriminate.
  destruct (rotate_proxy_spec r 100 ltac:(reflexivity) Hne) as [Hsome _].
  destruct Hsome as (d & p & Hd & Hl & Hf & Hprev & Hidx & Hlist & Hreq & Hrot).
  { exists (Samples.proxy "p0" 0). split; [| simpl; lia].
    apply elem_of_cons. by left. }
  split; [reflexivity |]. split; [exact Hne |].
  split; [reflexivity |]. split; [exact Hreq | exact Hrot].
Defined.

End RotatorFacts.

(** ** More on the job queue *)

Section QueueOperations.

Import QueueManager.

(** After a successful [add_job] the job can be read back under the
    returned id, as the call left it, and no other record has changed. *)
Theorem add_job_get_job
    (q : t) (job : TranscriptJob) (uuid4 : string) (now : Z) :
  connected q = true ->
  get_queue_size q < max_queue_size q ->
  let '(res, job', q') := add_job q job uuid4 now in
  exists jid,
    res = inr jid
    /\ get_job q' jid = Some job'
    /\ status job' = QUEUED
    /\ created_at job' = now
    /\ ttl_job jid (redis_client q') = Some (job_timeout q)
    /\ forall k, k <> jid -> get_job q' k = get_job q k.
Proof.
  intros Hc Hsize. unfold add_job. rewrite Hc. simpl.
  assert (E : (get_queue_size q >=? max_queue_size q) = false) by lia.
  rewrite E.
  set (job1 := if no_job_id job then set_job_id (Some uuid4) job else job).
  set (job' := set_status QUEUED (set_created_at now job1)).
  exists (job_key job'). unfold get_job, get_job_data, ttl_job. simpl.
  rewrite Hc. simpl. rewrite !lookup_insert_eq. split_and!; try done.
  intros k Hk. by rewrite lookup_insert_ne.
Qed.

Lemma add_job_get_job_witness :
  let q := Samples.fresh_queue 2 in
  let job := Samples.new_job "abc12345678" 4 in
  (add_job q job "a" 10).1.1 = inr "a"
  /\ (priority <$> get_job (add_job q job "a" 10).2 "a") = Some 4.
Proof.
  intros q job.
  pose proof (add_job_get_job q job "a" 10 ltac:(reflexivity)
                ltac:(reflexivity)) as H.
  destruct (add_job q job "a" 10) as [[res job'] q'] eqn:E.
  destruct H as (jid & Hres & Hget & _).
  assert (Hjid : jid = "a").
  { vm_compute in E. injection E as <- _ _. congruence. }
  subst jid. split; [exact Hres |].
  simpl. rewrite Hget. simpl.
  vm_compute in E. injection E as _ <- _. reflexivity.
Defined.

(** What [get_next_job] does when the popped id has a record: the job
    comes back in status [PROCESSING] with [started_at] stamped, the id
    has moved from the waiting set to the processing set, no waiting id
    had a higher score, and the record written back (under the key of the
    job's own id, with the job time-out) is the job returned. *)
Theorem get_next_job_hands_out
    (q : t) (now : Z) (jid : string) (score ttl : Z) (r1 : Redis)
    (job : TranscriptJob) :
  connected q = true ->
  zpopmax_waiting (redis_client q) = (Some (jid, score), r1) ->
  job_data (redis_client q) !! jid = Some (ttl, job) ->
  let job' := set_started_at (Some now) (set_status PROCESSING job) in
  let r := redis_client q in
  exists q',
    get_next_job q now = (Some job', q')
    /\ (forall m s, waiting r !! m = Some s -> s <= score)
    /\ waiting (redis_client q') = delete jid (waiting r)
    /\ processing (redis_client q') = {[jid]} ∪ processing r
    /\ completed (redis_client q') = completed r
    /\ failed (redis_client q') = failed r
    /\ job_data (redis_client q')
       = <[job_key job := (job_timeout q, job')]> (job_data r).
Proof.
  intros Hc Hpop Hd job' r.
  destruct (zpopmax_waiting_spec _ _ _ _ Hpop)
    as (_ & Hmax & Hw & Hp & Hcm & Hf & Hdata).
  unfold get_next_job. rewrite Hc, Hpop. simpl.
  unfold get_job_data. rewrite Hdata, Hd. simpl.
  rewrite update_job_non_terminal by (simpl; auto).
  eexists. split; [reflexivity |]. simpl.
  rewrite Hw, Hp, Hcm, Hf, Hdata. by split_and!.
Qed.

Lemma get_next_job_hands_out_witness :
  let q := Samples.add_jobs (Samples.fresh_queue 2) [("a", 0)] 10 in
  (status <$> (get_next_job q 20).1) = Some PROCESSING
  /\ (started_at <$> (get_next_job q 20).1) = Some (Some 20).
Proof.
  intros q.
  assert (Hpop : exists r1,
             zpopmax_waiting (redis_client q) = (Some ("a", 0), r1)).
  { eexists. vm_compute. reflexivity. }
  destruct Hpop as [r1 Hpop].
  destruct (get_next_job_hands_out q 20 "a" 0 600 r1
              (set_status QUEUED
                 (set_created_at 10
                    (set_job_id (Some "a") (Samples.new_job "abc12345678" 0))))
              ltac:(reflexivity) Hpop ltac:(reflexivity))
    as (q' & Hnext & _).
  rewrite Hnext. by split.
Defined.

(** On a connected queue [get_next_job] returns no job exactly when the
    waiting set is empty or the record of the popped id is missing. *)
Theorem get_next_job_none_iff (q : t) (now : Z) :
  connected q = true ->
  (get_next_job q now).1 = None
  <-> waiting (redis_client q) = ∅
      \/ exists jid score r1,
           zpopmax_waiting (redis_client q) = (Some (jid, score), r1)
           /\ job_data (redis_client q) !! jid = None.
Proof.
  intros Hc. unfold get_next_job. rewrite Hc. simpl.
  destruct (zpopmax_waiting (redis_client q)) as [[[jid sc] |] r1] eqn:Hpop.
  - destruct (zpopmax_waiting_spec _ _ _ _ Hpop)
      as (Hin & _ & _ & _ & _ & _ & Hdata).
    unfold get_job_data. rewrite Hdata.
    destruct (job_data (redis_client q) !! jid) as [[ttl job] |] eqn:Hd; simpl.
    + rewrite update_job_non_terminal by (simpl; auto). simpl.
      split; [done |]. intros [He | (j & s & r & [= <- _ _] & Hn)].
      * rewrite He in Hin. by rewrite lookup_empty in Hin.
      * congruence.
    + split; [| done]. intros _. right. by exists jid, sc, r1.
  - split; [| done]. intros _. left.
    unfold zpopmax_waiting in Hpop.
    destruct (zmax (map_to_list (waiting (redis_client q))))
      as [[m s] |] eqn:Hz; [done |].
    apply zmax_nil_iff in Hz. by apply map_to_list_empty_iff.
Qed.

Lemma get_next_job_none_iff_witness :
  (get_next_job (Samples.fresh_queue 2) 20).1 = None.
Proof.
  apply (get_next_job_none_iff (Samples.fresh_queue 2) 20 ltac:(reflexivity)).
  by left.
Defined.

(** A queue that is not connected does nothing: [add_job] and
    [update_job] raise, the readers return nothing, and the store is
    never touched. *)
Theorem disconnected_queue_is_inert
    (q : t) (job : TranscriptJob) (uuid4 jid : string) (now mpt : Z) :
  connected q = false ->
  add_job q job uuid4 now = (inl RedisNotConnected, job, q)
  /\ update_job q job now = (Some RedisNotConnected, job, q)
  /\ get_next_job q now = (None, q)
  /\ get_job q jid = None
  /\ get_queue_size q = 0
  /\ requeue_stuck_jobs q mpt now = (0, q).
Proof.
  intros Hc.
  unfold add_job, update_job, get_next_job, get_job, get_queue_size,
    requeue_stuck_jobs.
  by rewrite Hc.
Qed.

Lemma disconnected_queue_is_inert_witness :
  let q := {| redis_client := redis_client Samples.queue_5153;
              max_queue_size := 1000; job_timeout := 600;
              connected := false |} in
  get_next_job q 20 = (None, q) /\ get_queue_size q = 0.
Proof.
  intros q.
  destruct (disconnected_queue_is_inert q (Samples.new_job "v" 0) "u" "a" 20
              3600 ltac:(reflexivity)) as (_ & _ & H3 & _ & H5 & _).
  split; [exact H3 | exact H5].
Defined.

(** *** The capacity bound *)

Lemma size_srem_le (X : gset string) (k : string) :
  (size (X ∖ {[k]}) <= size X)%nat.
Proof. apply subseteq_size. apply subseteq_difference_l. done. Qed.

Lemma size_srem_elem (X : gset string) (k : string) :
  k ∈ X -> S (size (X ∖ {[k]})) = size X.
Proof.
  intros Hk. rewrite size_difference by (by apply singleton_subseteq_l).
  rewrite size_singleton.
  assert (size X <> 0%nat); [| lia].
  intros H0. apply size_empty_iff in H0. rewrite H0 in Hk.
  by apply not_elem_of_empty in Hk.
Qed.

Lemma size_sadd_le (X : gset string) (k : string) :
  (size ({[k]} ∪ X) <= S (size X))%nat.
Proof.
  rewrite size_union_alt, size_singleton.
  pose proof (size_srem_le X k). lia.
Qed.

Lemma size_zadd_le (m : gmap string Z) (k : string) (v : Z) :
  (size (<[k := v]> m) <= S (size m))%nat.
Proof. rewrite map_size_insert. destruct (m !! k); simpl; lia. Qed.

(** [add_job] never takes the queue over its capacity: the number of
    waiting plus processing jobs grows by at most one, and only while it
    is below [max_queue_size]. *)
Theorem add_job_within_capacity
    (q : t) (job : TranscriptJob) (uuid4 : string) (now : Z) :
  get_queue_size q <= max_queue_size q ->
  let q' := (add_job q job uuid4 now).2 in
  get_queue_size q' <= max_queue_size q'
  /\ get_queue_size q' <= get_queue_size q + 1.
Proof.
  intros Hb. unfold add_job.
  destruct (connected q) eqn:Hc; simpl; [| lia].
  destruct (get_queue_size q >=? max_queue_size q) eqn:Hfull; simpl; [lia |].
  unfold get_queue_size in *. simpl. rewrite Hc in *.
  match goal with
  | |- context [size (<[?k := ?v]> ?m)] => pose proof (size_zadd_le m k v)
  end.
  lia.
Qed.

Lemma add_job_within_capacity_witness :
  let q := Samples.queue_at_capacity in
  get_queue_size q = 2
  /\ get_queue_size (add_job q (Samples.new_job "v" 9) "c" 30).2 <= 2.
Proof.
  intros q. split; [reflexivity |].
  destruct (add_job_within_capacity q (Samples.new_job "v" 9) "c" 30
              ltac:(vm_compute; discriminate)) as [H _].
  exact H.
Defined.

(** Neither [get_next_job] nor [update_job] ever increases the number of
    waiting plus processing jobs. *)
Theorem queue_size_never_grows (q : t) (job : TranscriptJob) (now : Z) :
  get_queue_size (get_next_job q now).2 <= get_queue_size q
  /\ get_queue_size (update_job q job now).2 <= get_queue_size q.
Proof.
  split.
  - unfold get_next_job. destruct (connected q) eqn:Hc; simpl; [| lia].
    destruct (zpopmax_waiting (redis_client q)) as [[[jid sc] |] r1] eqn:Hpop;
      [| simpl; lia].
    destruct (zpopmax_waiting_spec _ _ _ _ Hpop)
      as (Hin & _ & Hw & Hp & _ & _ & Hdata).
    assert (Hsz : S (size (waiting r1)) = size (waiting (redis_client q))).
    { rewrite Hw, map_size_delete, Hin. simpl.
      assert (size (waiting (redis_client q)) <> 0%nat); [| lia].
      intros H0. apply map_size_empty_iff in H0. rewrite H0 in Hin.
      by rewrite lookup_empty in Hin. }
    destruct (get_job_data jid r1) as [j |].
    + rewrite update_job_non_terminal by (simpl; auto). simpl.
      unfold get_queue_size. simpl. rewrite Hc.
      pose proof (size_sadd_le (processing r1) jid). rewrite Hp in *. lia.
    + simpl. unfold get_queue_size. simpl. rewrite Hc, Hp. lia.
  - unfold update_job. destruct (connected q) eqn:Hc; simpl; [| lia].
    unfold get_queue_size.
    destruct (status job) eqn:Hs; simpl; rewrite ?Hs; simpl; rewrite Hc;
      try lia.
    + pose proof (size_srem_le (processing (redis_client q))
                    (job_key (set_completed_at (Some now) job))). lia.
    + pose proof (size_srem_le (processing (redis_client q))
                    (job_key (set_completed_at (Some now) job))). lia.
Qed.

Lemma requeue_one_size
    (q : t) (max_processing_time now c : Z) (jid : string) :
  connected q = true ->
  records_keyed (redis_client q) ->
  jid ∈ processing (redis_client q) ->
  get_queue_size (requeue_one q max_processing_time now c jid).2
  <= get_queue_size q.
Proof.
  intros Hc Hk Hin. rewrite requeue_one_connected by done.
  destruct (job_data (redis_client q) !! jid) as [[ttl job] |] eqn:Hd;
    [| simpl; lia].
  assert (Hkey : job_key job = jid) by (by eapply Hk).
  destruct (started_at job) as [st |]; [| simpl; lia].
  destruct (now - st >? max_processing_time * 1000000); [| simpl; lia].
  unfold get_queue_size.
  destruct (retry_count job + 1 <? max_retries job); simpl; rewrite Hc.
  - pose proof (size_srem_elem _ _ Hin).
    pose proof (size_zadd_le (waiting (redis_client q)) jid
                  (score_of (priority job))).
    lia.
  - pose proof (size_srem_le (processing (redis_client q)) (job_key job)).
    lia.
Qed.

Lemma requeue_loop_size (max_processing_time now : Z) (ids : list string) :
  forall (q : t) (c : Z),
    connected q = true ->
    records_keyed (redis_client q) ->
    NoDup ids ->
    (forall x, x ∈ ids -> x ∈ processing (redis_client q)) ->
    get_queue_size (requeue_loop q max_processing_time now c ids).2
    <= get_queue_size q.
Proof.
  induction ids as [| jid ids IH]; intros q c Hc Hk Hnd Hall; simpl; [lia |].
  apply NoDup_cons in Hnd as [Hnotin Hnd].
  assert (Hjid : jid ∈ processing (redis_client q)).
  { apply Hall. apply elem_of_cons. by left. }
  pose proof (requeue_one_size q max_processing_time now c jid Hc Hk Hjid)
    as Hsize.
  assert (Hothers : forall k,
            let '(e, _, q') := requeue_one q max_processing_time now c jid in
            e = None /\ connected q' = true
            /\ job_timeout q' = job_timeout q
            /\ records_keyed (redis_client q')
            /\ (k <> jid -> same_at k (redis_client q) (redis_client q'))).
  { intros k. by apply requeue_one_other. }
  destruct (requeue_one q max_processing_time now c jid) as [[e c1] q1].
  simpl in Hsize.
  destruct (Hothers jid) as (-> & Hc1 & _ & Hk1 & _).
  etrans; [apply IH; try done | exact Hsize].
  intros x Hx.
  assert (Hne : x <> jid) by (intros ->; done).
  destruct (Hothers x) as (_ & _ & _ & _ & Hs).
  destruct (Hs Hne) as (_ & Hp & _).
  apply Hp. apply Hall. apply elem_of_cons. by right.
Qed.

(** On a queue whose records sit under their own ids the stuck-job sweep
    never increases the number of waiting plus processing jobs. *)
Theorem requeue_stuck_jobs_size (q : t) (max_processing_time now : Z) :
  records_keyed (redis_client q) ->
  get_queue_size (requeue_stuck_jobs q max_processing_time now).2
  <= get_queue_size q.
Proof.
  intros Hk. unfold requeue_stuck_jobs.
  destruct (connected q) eqn:Hc; simpl; [| lia].
  pose proof (requeue_loop_size max_processing_time now
                (elements (processing (redis_client q))) q 0 Hc Hk
                (NoDup_elements _)) as H.
  destruct (requeue_loop q max_processing_time now 0 _) as [[[e |] c] q'];
    simpl in *; apply H; intros x Hx; by apply elem_of_elements.
Qed.

Lemma requeue_stuck_jobs_size_witness :
  let q := Samples.queue_one_processing in
  get_queue_size (requeue_stuck_jobs q 3600 3700000020).2 <= 1.
Proof.
  intros q.
  pose proof (requeue_stuck_jobs_size q 3600 3700000020
                queue_one_processing_keyed) as H.
  exact H.
Defined.

(** *** Administrative reset and clean-up *)

Lemma del_jobs_lookup (keys : list string) (r : Redis) (k : string) :
  job_data (del_jobs keys r) !! k
  = if decide (k ∈ keys) then None else job_data r !! k.
Proof.
  induction keys as [| x keys IH].
  - destruct (decide (k ∈ [])) as [H | H]; [by inversion H | done].
  - change (job_data (del_jobs (x :: keys) r))
      with (delete x (job_data (del_jobs keys r))).
    rewrite lookup_delete. destruct (decide (x = k)) as [-> | Hx].
    + rewrite decide_True; [done |]. apply elem_of_cons. by left.
    + rewrite IH. destruct (decide (k ∈ keys)) as [Hk | Hk].
      * rewrite decide_True; [done |]. apply elem_of_cons. by right.
      * rewrite decide_False; [done |].
        intros H. apply elem_of_cons in H as [-> | H]; done.
Qed.

(** [clear_queue] on a connected queue empties the four collections,
    removes the record of every id that was in one of them and no other
    record, and returns the number of those ids. *)
Theorem clear_queue_spec (q : t) :
  connected q = true ->
  let r := redis_client q in
  let all_jobs : gset string :=
    dom (waiting r) ∪ processing r ∪ completed r ∪ failed r in
  let '(n, q') := clear_queue q in
  n = Z.of_nat (size all_jobs)
  /\ waiting (redis_client q') = ∅
  /\ processing (redis_client q') = ∅
  /\ completed (redis_client q') = ∅
  /\ failed (redis_client q') = ∅
  /\ get_queue_size q' = 0
  /\ (forall jid, jid ∈ all_jobs -> get_job q' jid = None)
  /\ (forall jid, jid ∉ all_jobs -> get_job q' jid = get_job q jid).
Proof.
  intros Hc r all_jobs. unfold clear_queue. rewrite Hc. simpl.
  fold r. fold all_jobs.
  unfold get_queue_size, get_job, get_job_data. simpl. rewrite Hc. simpl.
  rewrite ?map_size_empty, ?size_empty.
  split_and!; try done.
  - intros jid Hin. case_decide as He.
    + rewrite He in Hin. by apply not_elem_of_empty in Hin.
    + rewrite del_jobs_lookup, decide_True; [done |].
      by apply elem_of_elements.
  - intros jid Hnotin. case_decide as He; [done |].
    rewrite del_jobs_lookup, decide_False; [done |].
    by rewrite elem_of_elements.
Qed.

Lemma clear_queue_spec_witness :
  let q := Samples.queue_at_capacity in
  (clear_queue q).1 = 2
  /\ get_queue_size (clear_queue q).2 = 0
  /\ get_job (clear_queue q).2 "a" = None.
Proof.
  intros q.
  pose proof (clear_queue_spec q ltac:(reflexivity)) as H.
  destruct (clear_queue q) as [n q'].
  destruct H as (Hn & _ & _ & _ & _ & Hsize & Hgone & _).
  split; [rewrite Hn; reflexivity |]. split; [exact Hsize |].
  apply Hgone. by vm_compute.
Defined.

Lemma stale_same_data (cutoff : Z) (r r' : Redis) (k : string) :
  job_data r' !! k = job_data r !! k -> stale cutoff r' k = stale cutoff r k.
Proof. unfold stale. by intros ->. Qed.

(** One iteration of the clean-up, spelled out. *)
Lemma cleanup_one_spec (cutoff n : Z) (r : Redis) (jid : string) :
  let '(n', r') := cleanup_one cutoff (n, r) jid in
  n' = n + (if stale cutoff r jid then 1 else 0)
  /\ completed r'
     = (if stale cutoff r jid then completed r ∖ {[jid]} else completed r)
  /\ (forall k, job_data r' !! k
                = if decide (k = jid)
                  then (if stale cutoff r jid then None else job_data r !! k)
                  else job_data r !! k)
  /\ waiting r' = waiting r
  /\ processing r' = processing r
  /\ failed r' = failed r.
Proof.
  unfold cleanup_one, stale, get_job_data.
  destruct (job_data r !! jid) as [[ttl job] |] eqn:Hd; simpl.
  - destruct (completed_at job) as [at_ |].
    + destruct (at_ <? cutoff); simpl.
      * split_and!; try done. intros k. rewrite lookup_delete.
        case_decide; [subst; by rewrite decide_True
                     | by rewrite decide_False by congruence].
      * split_and!; try done; [lia |]. intros k. case_decide; by subst.
    + split_and!; try done; [lia |]. intros k. case_decide; by subst.
  - split_and!; try done. intros k. case_decide; by subst.
Qed.

Lemma cleanup_loop_spec (cutoff : Z) (ids : list string) :
  forall (n : Z) (r : Redis),
    NoDup ids ->
    (forall x, x ∈ ids -> x ∈ completed r) ->
    let '(n', r') := foldl (cleanup_one cutoff) (n, r) ids in
    (forall k, k ∈ completed r'
               <-> k ∈ completed r /\ (k ∈ ids -> stale cutoff r k = false))
    /\ (forall k, job_data r' !! k
                  = if decide (k ∈ ids)
                    then (if stale cutoff r k then None else job_data r !! k)
                    else job_data r !! k)
    /\ n' + Z.of_nat (size (completed r')) = n + Z.of_nat (size (completed r))
    /\ waiting r' = waiting r
    /\ processing r' = processing r
    /\ failed r' = failed r.
Proof.
  induction ids as [| jid ids IH]; intros n r Hnd Hall; cbn [foldl].
  - split_and!; try done.
    intros k. split; [intros H; split; [done |]; by inversion 1 | by intros []].
  - apply NoDup_cons in Hnd as [Hnotin Hnd].
    pose proof (cleanup_one_spec cutoff n r jid) as H1.
    destruct (cleanup_one cutoff (n, r) jid) as [n1 r1].
    destruct H1 as (Hn1 & Hc1 & Hd1 & Hw1 & Hp1 & Hf1).
    assert (Hjid : jid ∈ completed r).
    { apply Hall. apply elem_of_cons. by left. }
    assert (Hall1 : forall x, x ∈ ids -> x ∈ completed r1).
    { intros x Hx. assert (x <> jid) by (by intros ->).
      assert (x ∈ completed r) by (apply Hall; apply elem_of_cons; by right).
      rewrite Hc1. destruct (stale cutoff r jid); [| done].
      by apply elem_of_srem_ne. }
    assert (Hstale1 : forall k, k <> jid ->
              stale cutoff r1 k = stale cutoff r k).
    { intros k Hk. apply stale_same_data. rewrite Hd1.
      by rewrite decide_False. }
    specialize (IH n1 r1 Hnd Hall1).
    destruct (foldl (cleanup_one cutoff) (n1, r1) ids) as [n' r'].
    destruct IH as (Hc & Hd & Hn & Hw & Hp & Hf).
    split_and!; try congruence.
    + intros k. rewrite Hc, Hc1, elem_of_cons.
      destruct (decide (k = jid)) as [-> | Hne].
      * destruct (stale cutoff r jid) eqn:Hs.
        -- split; [intros [H _]; by apply not_elem_of_srem in H |].
           intros [_ H]. by specialize (H (or_introl eq_refl)).
        -- split; [intros [H _]; split; [done | by intros _] |].
           intros [H _]. split; [done | by intros ?].
      * rewrite (Hstale1 k Hne).
        destruct (stale cutoff r jid).
        -- rewrite elem_of_srem_ne by done.
           split; intros [H1 H2]; (split; [done |]); intros H3;
             apply H2; tauto.
        -- split; intros [H1 H2]; (split; [done |]); intros H3;
             apply H2; tauto.
    + intros k. rewrite Hd, Hd1.
      destruct (decide (k = jid)) as [-> | Hne].
      * rewrite (decide_False (P := jid ∈ ids)) by done.
        rewrite decide_True by (apply elem_of_cons; by left). done.
      * rewrite (Hstale1 k Hne).
        destruct (decide (k ∈ ids)) as [Hin | Hnin].
        -- rewrite decide_True by (apply elem_of_cons; by right). done.
        -- rewrite decide_False; [done |].
           intros H. apply elem_of_cons in H as [? | ?]; done.
    + rewrite Hn, Hn1, Hc1. destruct (stale cutoff r jid); [| lia].
      pose proof (size_srem_elem _ _ Hjid). lia.
Qed.

(** [cleanup_expired_jobs] on a connected queue removes from the completed
    set exactly the ids whose record is missing or carries a completion
    stamp more than an hour old, deletes the records of these ids and no
    other, and returns how many ids it removed. *)
Theorem cleanup_expired_jobs_spec (q : t) (now : Z) :
  connected q = true ->
  let r := redis_client q in
  let cutoff := now - 3600 * 1000000 in
  let '(n, q') := cleanup_expired_jobs q now in
  let r' := redis_client q' in
  (forall jid, jid ∈ completed r'
               <-> jid ∈ completed r /\ stale cutoff r jid = false)
  /\ (forall jid, jid ∈ completed r -> stale cutoff r jid = true ->
        job_data r' !! jid = None)
  /\ (forall jid, jid ∉ completed r \/ stale cutoff r jid = false ->
        job_data r' !! jid = job_data r !! jid)
  /\ n + Z.of_nat (size (completed r')) = Z.of_nat (size (completed r))
  /\ waiting r' = waiting r
  /\ processing r' = processing r
  /\ failed r' = failed r.
Proof.
  intros Hc r cutoff. unfold cleanup_expired_jobs. rewrite Hc. simpl.
  fold r. fold cutoff.
  pose proof (cleanup_loop_spec cutoff (elements (completed r)) 0 r
                (NoDup_elements _)) as H.
  destruct (foldl (cleanup_one cutoff) (0, r) (elements (completed r)))
    as [n r'].
  destruct H as (Hcm & Hd & Hn & Hw & Hp & Hf).
  { intros x. by rewrite elem_of_elements. }
  simpl. split_and!; try done.
  - intros jid. rewrite Hcm, elem_of_elements. split.
    + intros [H1 H2]. auto.
    + intros [H1 H2]. auto.
  - intros jid Hin Hs. rewrite Hd, decide_True by (by apply elem_of_elements).
    by rewrite Hs.
  - intros jid Hor. rewrite Hd. case_decide as Hin; [| done].
    apply elem_of_elements in Hin. destruct Hor as [? | ->]; done.
Qed.

Lemma cleanup_expired_jobs_spec_witness :
  let q :=
    (update_job Samples.queue_one_processing
       (set_status COMPLETED Samples.job_a_processing) 50).2 in
  ("a" ∈ completed (redis_client q))
  /\ ("a" ∈ completed
            (redis_client (cleanup_expired_jobs q 999000000000).2)).
Proof.
  intros q.
  assert (Hin : "a" ∈ completed (redis_client q)) by (by vm_compute).
  pose proof (cleanup_expired_jobs_spec q 999000000000 ltac:(reflexivity))
    as H.
  destruct (cleanup_expired_jobs q 999000000000) as [n q'].
  destruct H as (Hcm & _).
  split; [exact Hin |]. apply Hcm. split; [exact Hin | reflexivity].
Defined.

Lemma update_job_config (q : t) (job : TranscriptJob) (now : Z) :
  let q' := (update_job q job now).2 in
  connected q' = connected q
  /\ max_queue_size q' = max_queue_size q
  /\ job_timeout q' = job_timeout q.
Proof.
  unfold update_job. destruct (connected q) eqn:Hc; simpl; [| done].
  by destruct (status job).
Qed.

(** A job that the worker took from [get_next_job] (no completion stamp
    yet) and reported as [COMPLETED] through [update_job] is not removed
    by a [cleanup_expired_jobs] that runs on the store as [update_job]
    left it (the record still under its key), whatever its clock reads:
    the stamp was not persisted, so the age test never applies to the
    record. *)
Theorem update_job_then_cleanup_keeps
    (q : t) (job : TranscriptJob) (finished now : Z) :
  connected q = true ->
  status job = COMPLETED ->
  completed_at job = None ->
  let q1 := (update_job q job finished).2 in
  let q2 := (cleanup_expired_jobs q1 now).2 in
  (job_key job ∈ completed (redis_client q2))
  /\ get_job q2 (job_key job) = Some job.
Proof.
  intros Hc Hs Hat q1 q2.
  pose proof (update_job_terminal q job finished Hc (or_introl Hs)) as Hu.
  pose proof (update_job_config q job finished) as (Hc1 & _).
  subst q2 q1.
  destruct (update_job q job finished) as [[e job'] q1]. simpl in *.
  rewrite Hc in Hc1.
  destruct Hu as (_ & _ & Hd & _ & _ & Hcm & _).
  destruct (Hcm Hs) as (Hcm1 & _).
  assert (Hstale : stale (now - 3600 * 1000000) (redis_client q1) (job_key job)
                   = false).
  { unfold stale. by rewrite Hd, lookup_insert_eq, Hat. }
  unfold cleanup_expired_jobs, get_job, get_job_data. rewrite Hc1. simpl.
  pose proof (cleanup_loop_spec (now - 3600 * 1000000)
                (elements (completed (redis_client q1))) 0 (redis_client q1)
                (NoDup_elements _)) as H.
  destruct (foldl _ _ _) as [n r'].
  destruct H as (Hin & Hdata & _).
  { intros x. by rewrite elem_of_elements. }
  simpl. rewrite Hc1. simpl. split.
  - apply Hin. split; [| done]. rewrite Hcm1. apply elem_of_sadd.
  - rewrite Hdata, Hstale. case_decide; by rewrite Hd, lookup_insert_eq.
Qed.

Lemma update_job_then_cleanup_keeps_witness :
  let q1 :=
    (update_job Samples.queue_one_processing
       (set_status COMPLETED Samples.job_a_processing) 50).2 in
  "a" ∈ completed (redis_client (cleanup_expired_jobs q1 999000000000).2).
Proof.
  intros q1.
  destruct (update_job_then_cleanup_keeps Samples.queue_one_processing
              (set_status COMPLETED Samples.job_a_processing) 50 999000000000
              ltac:(reflexivity) ltac:(reflexivity) ltac:(reflexivity))
    as [H _].
  exact H.
Defined.

(** *** Records stay under their own ids *)

Lemma records_keyed_subset (r r' : Redis) :
  (forall k v, job_data r' !! k = Some v -> job_data r !! k = Some v) ->
  records_keyed r -> records_keyed r'.
Proof. intros Hsub Hk k ttl j H. apply (Hk k ttl j). by apply Hsub. Qed.

Lemma requeue_stuck_jobs_keyed (q : t) (max_processing_time now : Z) :
  records_keyed (redis_client q) ->
  records_keyed (redis_client (requeue_stuck_jobs q max_processing_time now).2).
Proof.
  intros Hk. unfold requeue_stuck_jobs.
  destruct (connected q) eqn:Hc; simpl; [| done].
  assert (Hgen : forall ids (q0 : t) c,
             connected q0 = true -> records_keyed (redis_client q0) ->
             records_keyed
               (redis_client
                  (requeue_loop q0 max_processing_time now c ids).2)).
  { clear. induction ids as [| jid ids IH]; intros q0 c Hc Hk; [done |].
    simpl.
    pose proof (requeue_one_other q0 max_processing_time now c jid jid Hc Hk)
      as H1.
    destruct (requeue_one q0 max_processing_time now c jid) as [[e c1] q1].
    destruct H1 as (-> & Hc1 & _ & Hk1 & _). by apply IH. }
  specialize (Hgen (elements (processing (redis_client q))) q 0 Hc Hk).
  by destruct (requeue_loop q max_processing_time now 0 _) as [[[e |] c] q'].
Qed.

Lemma clear_queue_keyed (q : t) :
  records_keyed (redis_client q) ->
  records_keyed (redis_client (clear_queue q).2).
Proof.
  intros Hk. unfold clear_queue.
  destruct (connected q); simpl; [| done].
  case_decide; [done |].
  eapply records_keyed_subset; [| exact Hk].
  intros k v. simpl. rewrite del_jobs_lookup. by case_decide.
Qed.

Lemma cleanup_expired_jobs_keyed (q : t) (now : Z) :
  records_keyed (redis_client q) ->
  records_keyed (redis_client (cleanup_expired_jobs q now).2).
Proof.
  intros Hk. unfold cleanup_expired_jobs.
  destruct (connected q); simpl; [| done].
  pose proof (cleanup_loop_spec (now - 3600 * 1000000)
                (elements (completed (redis_client q))) 0 (redis_client q)
                (NoDup_elements _)) as H.
  destruct (foldl _ _ _) as [n r'].
  destruct H as (_ & Hd & _).
  { intros x. by rewrite elem_of_elements. }
  simpl. eapply records_keyed_subset; [| exact Hk].
  intros k v. rewrite Hd. case_decide; [| done].
  by destruct (stale _ _ _).
Qed.

Lemma reachable_keyed (q : t) : reachable q -> records_keyed (redis_client q).
Proof.
  induction 1.
  - apply records_keyed_empty.
  - by apply add_job_keyed.
  - by apply get_next_job_keyed.
  - by apply update_job_keyed.
  - by apply requeue_stuck_jobs_keyed.
  - by apply clear_queue_keyed.
  - by apply cleanup_expired_jobs_keyed.
  - eapply records_keyed_subset; [| exact IHreachable].
    intros k v. simpl. rewrite lookup_delete. by case_decide.
Qed.

(** On every queue that the operations can build from an empty store,
    [get_job] under an id returns a job that carries this very id: no
    operation ever files a record under another job's key. *)
Theorem reachable_get_job_id (q : t) (jid : string) (job : TranscriptJob) :
  reachable q ->
  get_job q jid = Some job ->
  job_id job = Some jid \/ (job_id job = None /\ jid = "None").
Proof.
  intros Hr Hget. apply reachable_keyed in Hr.
  unfold get_job, get_job_data in Hget.
  destruct (negb (connected q)); [done |].
  destruct (job_data (redis_client q) !! jid) as [[ttl j] |] eqn:Hd; [| done].
  injection Hget as ->. apply Hr in Hd. unfold job_key in Hd.
  destruct (job_id job); [left; congruence | right; by split].
Qed.

Lemma reachable_queue_5153 : reachable Samples.queue_5153.
Proof.
  unfold Samples.queue_5153, Samples.add_jobs. simpl.
  repeat apply reach_add_job. apply reach_connect.
Qed.

Lemma reachable_get_job_id_witness :
  (job_id <$> get_job Samples.queue_5153 "c") = Some (Some "c").
Proof.
  destruct (get_job Samples.queue_5153 "c") as [job |] eqn:E;
    [| by vm_compute in E].
  destruct (reachable_get_job_id Samples.queue_5153 "c" job
              reachable_queue_5153 E) as [H | [H _]].
  - simpl. by rewrite H.
  - exfalso. vm_compute in E. injection E as <-. discriminate.
Defined.

(** *** The count the sweep returns *)

Lemma requeue_one_count
    (q : t) (max_processing_time now c : Z) (jid : string) :
  connected q = true ->
  (requeue_one q max_processing_time now c jid).1.2
  = c + (if requeueable max_processing_time now (redis_client q) jid
         then 1 else 0).
Proof.
  intros Hc. rewrite requeue_one_connected by done. unfold requeueable.
  destruct (job_data (redis_client q) !! jid) as [[ttl job] |];
    [| simpl; lia].
  destruct (started_at job) as [st |]; [| simpl; lia].
  destruct (now - st >? max_processing_time * 1000000); [| simpl; lia].
  destruct (retry_count job + 1 <? max_retries job); simpl; lia.
Qed.

Lemma requeue_loop_count (max_processing_time now : Z) (ids : list string) :
  forall (q : t) (c : Z),
    connected q = true ->
    records_keyed (redis_client q) ->
    NoDup ids ->
    (requeue_loop q max_processing_time now c ids).1
    = (None,
       c + Z.of_nat
             (length (List.filter
                        (requeueable max_processing_time now (redis_client q))
                        ids))).
Proof.
  induction ids as [| jid ids IH]; intros q c Hc Hk Hnd.
  - simpl. f_equal. lia.
  - apply NoDup_cons in Hnd as [Hnotin Hnd]. cbn [requeue_loop List.filter].
    pose proof (requeue_one_count q max_processing_time now c jid Hc) as Hcount.
    assert (Hothers : forall k,
              let '(e, _, q') := requeue_one q max_processing_time now c jid in
              e = None /\ connected q' = true
              /\ job_timeout q' = job_timeout q
              /\ records_keyed (redis_client q')
              /\ (k <> jid -> same_at k (redis_client q) (redis_client q'))).
    { intros k. by apply requeue_one_other. }
    destruct (requeue_one q max_processing_time now c jid) as [[e c1] q1].
    simpl in Hcount. subst c1.
    destruct (Hothers jid) as (-> & Hc1 & _ & Hk1 & _).
    rewrite (IH q1 _ Hc1 Hk1 Hnd). f_equal.
    assert (Hsame : List.filter
                      (requeueable max_processing_time now (redis_client q1))
                      ids
                    = List.filter
                        (requeueable max_processing_time now (redis_client q))
                        ids).
    { apply filter_ext_in. intros x Hx. apply list_elem_of_In in Hx.
      assert (Hne : x <> jid) by (by intros ->).
      destruct (Hothers x) as (_ & _ & _ & _ & Hs).
      destruct (Hs Hne) as (_ & _ & _ & _ & Hd).
      unfold requeueable. by rewrite Hd. }
    rewrite Hsame.
    destruct (requeueable max_processing_time now (redis_client q) jid);
      simpl; lia.
Qed.

(** On a connected queue whose records sit under their own ids
    [requeue_stuck_jobs] returns the number of processing jobs it moved
    back to the waiting set: the stuck ones with retries left.  Jobs it
    marked as failed are not counted. *)
Theorem requeue_stuck_jobs_count (q : t) (max_processing_time now : Z) :
  connected q = true ->
  records_keyed (redis_client q) ->
  (requeue_stuck_jobs q max_processing_time now).1
  = Z.of_nat
      (length (List.filter
                 (requeueable max_processing_time now (redis_client q))
                 (elements (processing (redis_client q))))).
Proof.
  intros Hc Hk. unfold requeue_stuck_jobs. rewrite Hc. simpl.
  pose proof (requeue_loop_count max_processing_time now
                (elements (processing (redis_client q))) q 0 Hc Hk
                (NoDup_elements _)) as H.
  destruct (requeue_loop q max_processing_time now 0 _) as [[e c] q'].
  simpl in H. injection H as -> ->. simpl. lia.
Qed.

Lemma requeue_stuck_jobs_count_witness :
  (requeue_stuck_jobs Samples.queue_one_processing 3600 3700000020).1 = 1.
Proof.
  rewrite (requeue_stuck_jobs_count Samples.queue_one_processing 3600
             3700000020 ltac:(reflexivity) queue_one_processing_keyed).
  reflexivity.
Defined.

End QueueOperations.

(** ** More on the proxy rotator *)

Section RotatorOperations.

Import VPNRotator.

Lemma rotate_loop_config (now : Z) (fuel : nat) :
  forall r : t,
    let r' := (rotate_loop fuel r now).2 in
    enabled r' = enabled r
    /\ rotation_interval r' = rotation_interval r
    /\ max_failures r' = max_failures r
    /\ max_requests_per_proxy r' = max_requests_per_proxy r
    /\ without_last_used <$> proxy_list r' = without_last_used <$> proxy_list r.
Proof.
  induction fuel as [| fuel IH]; intros r; simpl; [done |].
  set (index := ((current_proxy_index r + 1) `mod` length (proxy_list r))%nat).
  destruct (proxy_list r !! index) as [p |] eqn:Hp; [| done].
  destruct (failure_count p <? max_failures r).
  - simpl. split_and!; try done.
    rewrite list_fmap_insert. apply list_insert_id.
    by rewrite list_lookup_fmap, Hp.
  - apply (IH (set_current_proxy_index index r)).
Qed.

(** [rotate_proxy] never adds, drops or alters an identity apart from its
    [last_used] stamp (in particular it never changes a failure count),
    and never changes the rotator's switches and thresholds. *)
Theorem rotate_proxy_keeps_identities (r : t) (now : Z) :
  let r' := rotate_proxy r now in
  without_last_used <$> proxy_list r' = without_last_used <$> proxy_list r
  /\ failure_count <$> proxy_list r' = failure_count <$> proxy_list r
  /\ length (proxy_list r') = length (proxy_list r)
  /\ enabled r' = enabled r
  /\ max_failures r' = max_failures r
  /\ rotation_interval r' = rotation_interval r
  /\ max_requests_per_proxy r' = max_requests_per_proxy r.
Proof.
  assert (Hmain : let r' := rotate_proxy r now in
            without_last_used <$> proxy_list r'
            = without_last_used <$> proxy_list r
            /\ enabled r' = enabled r
            /\ max_failures r' = max_failures r
            /\ rotation_interval r' = rotation_interval r
            /\ max_requests_per_proxy r' = max_requests_per_proxy r).
  { unfold rotate_proxy.
    destruct (negb (enabled r) || no_proxies r); [done |].
    pose proof (rotate_loop_config now (length (proxy_list r)) r) as H.
    destruct (rotate_loop (length (proxy_list r)) r now) as [[|] r1];
      simpl in H; destruct H as (He & Hi & Hm & Hq & Hl); [done |].
    unfold fetch_proxy_list. destruct (negb (no_proxies r1)) eqn:Hn; simpl.
    - change (no_proxies (set_current_proxy_index 0 r1)) with (no_proxies r1).
      by rewrite Hn.
    - done. }
  destruct Hmain as (Hl & He & Hm & Hi & Hq). simpl.
  split_and!; try done.
  - apply (f_equal (fmap failure_count)) in Hl.
    rewrite <- !list_fmap_compose in Hl. exact Hl.
  - apply (f_equal length) in Hl. by rewrite !length_fmap in Hl.
Qed.

(** After a rotation that found an identity below the threshold the
    rotator stands on a valid identity and does not ask to rotate again at
    the same instant, whenever the interval and the request cap are
    positive. *)
Theorem rotate_proxy_settles (r : t) (now : Z) :
  enabled r = true ->
  (exists p, p ∈ proxy_list r /\ failure_count p < max_failures r) ->
  0 < rotation_interval r ->
  0 < max_requests_per_proxy r ->
  let r' := rotate_proxy r now in
  should_rotate r' now = false
  /\ exists p, get_current_proxy r' = Some p
               /\ failure_count p < max_failures r
               /\ last_used p = now.
Proof.
  intros Hen (p0 & Hp0 & Hf0) Hint Hcap.
  assert (Hne : proxy_list r <> []).
  { intros He. rewrite He in Hp0. by inversion Hp0. }
  unfold rotate_proxy. rewrite Hen, (no_proxies_false r Hne). simpl.
  pose proof (rotate_loop_spec now (length (proxy_list r)) r Hne) as Hloop.
  destruct (rotate_loop (length (proxy_list r)) r now) as [[|] r1].
  - destruct Hloop as (d & p & Hd & Hl & Hf & _ & ->).
    assert (Hlt : (offset_index r d < length (proxy_list r))%nat).
    { by eapply lookup_lt_Some. }
    assert (Hcur : proxy_list (rotated_to (offset_index r d) p now r)
                   !! offset_index r d = Some (set_last_used now p)).
    { simpl. by apply list_lookup_insert_eq. }
    assert (Hnp : no_proxies (rotated_to (offset_index r d) p now r) = false).
    { apply no_proxies_false. simpl. intros He.
      apply (f_equal length) in He. rewrite length_insert in He.
      simpl in He. lia. }
    split.
    + unfold should_rotate. rewrite Hnp. simpl. rewrite Hen. simpl.
      assert (E1 : (now - now >=? rotation_interval r) = false) by lia.
      assert (E2 : (0 >=? max_requests_per_proxy r) = false) by lia.
      rewrite E1, E2.
      simpl in Hcur. rewrite Hcur. simpl.
      assert (E3 : (failure_count p >=? max_failures r) = false) by lia.
      by rewrite E3.
    + exists (set_last_used now p). unfold get_current_proxy.
      rewrite Hnp. simpl. rewrite Hen. simpl.
      simpl in Hcur. by rewrite Hcur.
  - exfalso. destruct Hloop as (Hall & _).
    apply list_elem_of_lookup in Hp0 as [j Hj].
    destruct (offset_index_surjective r j) as (d & Hd & <-).
    { by eapply lookup_lt_Some. }
    specialize (Hall d p0 Hd Hj). lia.
Qed.

Lemma rotate_proxy_settles_witness :
  should_rotate (rotate_proxy Samples.rotator_mixed 1000) 1000 = false.
Proof.
  destruct (rotate_proxy_settles Samples.rotator_mixed 1000
              ltac:(reflexivity)
              ltac:(exists (Samples.proxy "p0" 0);
                    split; [apply elem_of_cons; by left | simpl; lia])
              ltac:(simpl; lia) ltac:(simpl; lia)) as [H _].
  exact H.
Defined.

(** When every identity is at or over the threshold a rotation does not
    help: the rotator still asks to rotate, at whatever instant it is
    asked next. *)
Theorem rotate_proxy_all_failed_still_rotates (r : t) (now later : Z) :
  enabled r = true ->
  proxy_list r <> [] ->
  (forall p, p ∈ proxy_list r -> max_failures r <= failure_count p) ->
  should_rotate (rotate_proxy r now) later = true.
Proof.
  intros Hen Hne Hall.
  unfold rotate_proxy. rewrite Hen, (no_proxies_false r Hne). simpl.
  pose proof (rotate_loop_spec now (length (proxy_list r)) r Hne) as Hloop.
  destruct (rotate_loop (length (proxy_list r)) r now) as [[|] r1].
  - exfalso. destruct Hloop as (d & p & _ & Hl & Hf & _).
    assert (Hp : p ∈ proxy_list r) by (by eapply list_elem_of_lookup_2).
    specialize (Hall p Hp). lia.
  - destruct Hloop as (_ & i & ->).
    unfold fetch_proxy_list.
    change (no_proxies (set_current_proxy_index i r)) with (no_proxies r).
    rewrite (no_proxies_false r Hne). simpl.
    change (no_proxies (set_current_proxy_index 0 (set_current_proxy_index i r)))
      with (no_proxies r).
    rewrite (no_proxies_false r Hne). simpl.
    unfold should_rotate. simpl.
    change (no_proxies _) with (no_proxies r).
    rewrite Hen, (no_proxies_false r Hne). simpl.
    destruct (later - now >=? rotation_interval r); [done |].
    destruct (0 >=? max_requests_per_proxy r); [done |].
    destruct (proxy_list r) as [| p l] eqn:Hl; [done |]. simpl.
    assert (Hp : p ∈ p :: l) by (apply elem_of_cons; by left).
    specialize (Hall p Hp).
    assert (E : (failure_count p >=? max_failures r) = true) by lia.
    by rewrite E.
Qed.

Lemma rotate_proxy_all_failed_still_rotates_witness :
  should_rotate (rotate_proxy Samples.rotator_all_failed 100) 101 = true.
Proof.
  apply (rotate_proxy_all_failed_still_rotates Samples.rotator_all_failed
           100 101 ltac:(reflexivity) ltac:(discriminate)).
  intros p Hp. simpl in Hp.
  apply elem_of_cons in Hp as [-> | Hp]; [simpl; lia |].
  apply elem_of_cons in Hp as [-> | Hp]; [simpl; lia | by inversion Hp].
Defined.

Lemma set_proxy_list_same (r : t) : set_proxy_list (proxy_list r) r = r.
Proof. by destruct r. Qed.

Lemma record_failure_iter (n : nat) (r : t) (p : ProxyEndpoint) :
  proxy_list r !! current_proxy_index r = Some p ->
  Nat.iter n record_failure r
  = set_proxy_list
      (<[current_proxy_index r :=
           set_failure_count (failure_count p + Z.of_nat n) p]> (proxy_list r))
      r.
Proof.
  intros Hp. induction n as [| n IH].
  - simpl. replace (set_failure_count (failure_count p + Z.of_nat 0) p) with p.
    + by rewrite list_insert_id, set_proxy_list_same.
    + destruct p. unfold set_failure_count. simpl. f_equal. lia.
  - rewrite Nat.iter_succ, IH. unfold record_failure. simpl.
    rewrite list_lookup_insert_eq by (by eapply lookup_lt_Some).
    unfold set_proxy_list. simpl. rewrite list_insert_insert_eq.
    replace (failure_count p + Z.of_nat n + 1)
      with (failure_count p + Z.of_nat (S n)) by lia.
    reflexivity.
Qed.

(** [record_failure] adds one to the failure count of the current identity
    and touches nothing else; once the recorded failures take the count
    to the threshold, the rotator asks to rotate, whatever the clock and
    the request count say. *)
Theorem record_failure_reaches_threshold
    (r : t) (n : nat) (p : ProxyEndpoint) (now : Z) :
  enabled r = true ->
  proxy_list r !! current_proxy_index r = Some p ->
  let r' := Nat.iter n record_failure r in
  proxy_list r'
  = <[current_proxy_index r :=
        set_failure_count (failure_count p + Z.of_nat n) p]> (proxy_list r)
  /\ current_proxy_index r' = current_proxy_index r
  /\ request_count r' = request_count r
  /\ last_rotation r' = last_rotation r
  /\ (max_failures r <= failure_count p + Z.of_nat n ->
      should_rotate r' now = true).
Proof.
  intros Hen Hp r'. subst r'. rewrite (record_failure_iter n r p Hp). simpl.
  split_and!; try done.
  intros Hth. unfold should_rotate. simpl. rewrite Hen.
  assert (Hlt : (current_proxy_index r < length (proxy_list r))%nat).
  { by eapply lookup_lt_Some. }
  assert (Hnp : no_proxies
                  (set_proxy_list
                     (<[current_proxy_index r :=
                          set_failure_count (failure_count p + Z.of_nat n) p]>
                        (proxy_list r)) r) = false).
  { apply no_proxies_false. simpl. intros He.
    apply (f_equal length) in He. rewrite length_insert in He.
    simpl in He. lia. }
  rewrite Hnp. simpl.
  destruct (now - last_rotation r >=? rotation_interval r); [done |].
  destruct (request_count r >=? max_requests_per_proxy r); [done |].
  rewrite list_lookup_insert_eq by done. simpl.
  assert (E : (failure_count p + Z.of_nat n >=? max_failures r) = true) by lia.
  by rewrite E.
Qed.

Lemma record_failure_reaches_threshold_witness :
  should_rotate (Nat.iter 3 record_failure Samples.rotator_mixed) 1 = true.
Proof.
  destruct (record_failure_reaches_threshold Samples.rotator_mixed 3
              (Samples.proxy "p0" 0) 1 ltac:(reflexivity) ltac:(reflexivity))
    as (_ & _ & _ & _ & H).
  apply H. simpl. lia.
Defined.

(** [record_success] takes back one recorded failure: when the rotator
    stands on an identity whose count is not negative, [record_success]
    after [record_failure] restores the rotator exactly; and
    [record_success] alone lowers the count by one but never below
    zero. *)
Theorem record_success_undoes_failure (r : t) (p : ProxyEndpoint) :
  proxy_list r !! current_proxy_index r = Some p ->
  0 <= failure_count p ->
  record_success (record_failure r) = r
  /\ exists p',
       proxy_list (record_success r) !! current_proxy_index r = Some p'
       /\ failure_count p' = Z.max 0 (failure_count p - 1)
       /\ 0 <= failure_count p'.
Proof.
  intros Hp Hnn. split.
  - unfold record_failure. rewrite Hp.
    unfold record_success. simpl.
    rewrite list_lookup_insert_eq by (by eapply lookup_lt_Some). simpl.
    unfold set_proxy_list. simpl. rewrite list_insert_insert_eq.
    replace (set_failure_count (0 `max` (failure_count p + 1 - 1))
               (set_failure_count (failure_count p + 1) p)) with p.
    + rewrite list_insert_id by done. by destruct r.
    + destruct p. unfold set_failure_count. simpl in *. f_equal. lia.
  - unfold record_success. rewrite Hp. simpl.
    rewrite list_lookup_insert_eq by (by eapply lookup_lt_Some).
    eexists. split; [reflexivity |]. simpl. lia.
Qed.

Lemma record_success_undoes_failure_witness :
  record_success (record_failure Samples.rotator_mixed) = Samples.rotator_mixed.
Proof.
  destruct (record_success_undoes_failure Samples.rotator_mixed _ eq_refl)
    as [H _].
  - simpl. lia.
  - exact H.
Defined.

(** A rotator built by [__init__] is enabled exactly when rotation is
    switched on and both credentials are non-empty; it then owns exactly
    one identity, without failures, and stands on it; otherwise its pool
    is empty.  [initialize] changes nothing on it. *)
Theorem init_single_identity (s : Settings) :
  let r := init s in
  (enabled r = true
   <-> enable_vpn_rotation s = true
       /\ webshare_proxy_username s <> ""
       /\ webshare_proxy_password s <> "")
  /\ (enabled r = true ->
      exists p, proxy_list r = [p] /\ failure_count p = 0
                /\ get_current_proxy r = Some p)
  /\ (enabled r = false -> proxy_list r = [] /\ get_current_proxy r = None)
  /\ initialize r = r.
Proof.
  unfold init, nonempty, initialize, get_current_proxy. simpl.
  destruct (enable_vpn_rotation s); simpl;
    repeat case_decide; simpl; split_and!; try done;
    try (split; [done | intros (_ & ? & ?); done]);
    try (split; [done | intros (? & _); done]);
    try (intros _; eexists; by split_and!).
Qed.

(** With a single identity a rotation never leaves it: the index stays at
    0 and the identity stays what it is; only the stamps and the request
    counter are reset. *)
Theorem rotate_proxy_single_identity (r : t) (p : ProxyEndpoint) (now : Z) :
  enabled r = true ->
  proxy_list r = [p] ->
  let r' := rotate_proxy r now in
  current_proxy_index r' = 0%nat
  /\ request_count r' = 0
  /\ last_rotation r' = now
  /\ proxy_list r'
     = [if failure_count p <? max_failures r then set_last_used now p else p].
Proof.
  intros Hen Hl. unfold rotate_proxy, no_proxies. rewrite Hen, Hl. simpl.
  rewrite Hl. simpl.
  destruct (failure_count p <? max_failures r); simpl.
  - done.
  - unfold fetch_proxy_list, no_proxies. simpl. rewrite Hl. simpl.
    by rewrite Hl.
Qed.

Lemma rotate_proxy_single_identity_witness :
  let r :=
    init {| enable_vpn_rotation := true; webshare_proxy_username := "user";
            webshare_proxy_password := "secret";
            proxy_rotation_interval := 300 |} in
  current_proxy_index (rotate_proxy r 500) = 0%nat
  /\ last_rotation (rotate_proxy r 500) = 500.
Proof.
  intros r.
  destruct (rotate_proxy_single_identity r
              {| host := "rotating-residential.webshare.io"; port := 9000;
                 username := "user"; password := "secret";
                 protocol := "http"; last_used := 0; failure_count := 0 |}
              500 ltac:(reflexivity) ltac:(reflexivity))
    as (H1 & _ & H3 & _).
  split; [exact H1 | exact H3].
Defined.

End RotatorOperations.

(** ** More on the extraction orchestrator *)

Section ExtractorOutcome.

Import TranscriptExtractor.

Variable settings : Settings.
Variable adapters : TranscriptMethod -> string -> list string -> AdapterOutcome.
Variable video_id : string.
Variable languages : list string.
Variable use_fallback_methods use_vpn_rotation : bool.
Variable now processing_time : Z.

Local Abbreviation enabled := (_is_method_enabled settings).
Local Abbreviation out m := (adapters m video_id languages).
Local Abbreviation loop todo e last_error calls :=
  (try_methods settings adapters todo e video_id languages
     use_fallback_methods use_vpn_rotation now processing_time
     last_error calls).

Lemma last_cons_elem {A : Type} (x y : A) (l : list A) :
  y ∈ l -> last (x :: l) = last l.
Proof. destruct l; [by inversion 1 | done]. Qed.

(** The loop, in full: which methods it invokes and what it ends with. *)
Lemma try_methods_outcome (todo : list TranscriptMethod) :
  forall (e : t) (last_error : option string) (calls0 : list TranscriptMethod),
  exists new : list TranscriptMethod,
    (loop todo e last_error calls0).2 = (calls0 ++ new)%list
    /\ new `prefix_of` List.filter enabled todo
    /\ match (loop todo e last_error calls0).1.1 with
       | Returned response =>
           exists pre k r,
             new = (pre ++ [k])%list
             /\ out k = Returns (Some r)
             /\ ar_segments r <> []
             /\ (forall m, m ∈ pre -> has_segments (out m) = false)
             /\ (use_fallback_methods = false ->
                 forall m, m ∈ pre -> raised (out m) = None)
             /\ response = success_response video_id processing_time k r
       | Ended last_error' =>
           (forall m, m ∈ new -> has_segments (out m) = false)
           /\ last_error' = last_raised ((fun m => out m) <$> new) last_error
           /\ (use_fallback_methods = true -> new = List.filter enabled todo)
           /\ (use_fallback_methods = false ->
               forall m, m ∈ new -> is_Some (raised (out m)) ->
                         last new = Some m)
       end.
Proof.
  induction todo as [| m todo IH]; intros e le c0.
  - exists []. simpl. rewrite app_nil_r. split_and!; try done.
    + intros m Hm. by inversion Hm.
    + intros _ m Hm. by inversion Hm.
  - simpl. destruct (enabled m) eqn:Hen; simpl; [| apply IH].
    set (e1 := if use_vpn_rotation then _ else e).
    assert (Hstep : forall (e' : t) (le' : option string),
              has_segments (out m) = false ->
              le' = match raised (out m) with
                    | Some msg => Some msg | None => le end ->
              (use_fallback_methods = false -> raised (out m) = None) ->
              exists new : list TranscriptMethod,
                (loop todo e' le' (c0 ++ [m])%list).2 = (c0 ++ new)%list
                /\ new `prefix_of` m :: List.filter enabled todo
                /\ match (loop todo e' le' (c0 ++ [m])%list).1.1 with
                   | Returned response =>
                       exists pre k r,
                         new = (pre ++ [k])%list
                         /\ out k = Returns (Some r)
                         /\ ar_segments r <> []
                         /\ (forall x, x ∈ pre -> has_segments (out x) = false)
                         /\ (use_fallback_methods = false ->
                             forall x, x ∈ pre -> raised (out x) = None)
                         /\ response = success_response video_id processing_time k r
                   | Ended last_error' =>
                       (forall x, x ∈ new -> has_segments (out x) = false)
                       /\ last_error'
                          = last_raised ((fun x => out x) <$> new) le
                       /\ (use_fallback_methods = true ->
                           new = m :: List.filter enabled todo)
                       /\ (use_fallback_methods = false ->
                           forall x, x ∈ new -> is_Some (raised (out x)) ->
                                     last new = Some x)
                   end).
    { intros e' le' Hno Hle Hnr.
      destruct (IH e' le' (c0 ++ [m])%list) as (new & Hc & Hpre & Hres).
      exists (m :: new). split; [by rewrite Hc, <- app_assoc |].
      split; [by apply prefix_cons |].
      destruct ((loop todo e' le' (c0 ++ [m])%list).1.1) as [resp | le''].
      - destruct Hres as (pre & k & r & -> & Hk & Hseg & Hp & Hq & ->).
        exists (m :: pre), k, r. split_and!; try done.
        + intros x Hx. apply elem_of_cons in Hx as [-> | Hx]; auto.
        + intros Hfb x Hx. apply elem_of_cons in Hx as [-> | Hx]; auto.
      - destruct Hres as (Hall & -> & Hfull & Hlast).
        split_and!.
        + intros x Hx. apply elem_of_cons in Hx as [-> | Hx]; auto.
        + by rewrite Hle.
        + intros Hfb. by rewrite (Hfull Hfb).
        + intros Hfb x Hx Hr. apply elem_of_cons in Hx as [-> | Hx].
          * rewrite (Hnr Hfb) in Hr. by destruct Hr.
          * rewrite (last_cons_elem m x new Hx). by apply Hlast. }
    destruct (out m) as [msg | [result |]] eqn:Ha.
    + destruct use_fallback_methods eqn:Hfb; simpl.
      * by apply Hstep.
      * exists [m]. split_and!; try done.
        -- apply prefix_cons, prefix_nil.
        -- intros x Hx. apply list_elem_of_singleton in Hx as ->.
           by rewrite Ha.
        -- simpl. by rewrite Ha.
        -- intros _ x Hx _. by apply list_elem_of_singleton in Hx as ->.
    + destruct (ar_segments result) as [| s segs] eqn:Hsegs.
      * apply Hstep; try done. simpl. by rewrite Hsegs.
      * exists [m]. split_and!; try done.
        -- apply prefix_cons, prefix_nil.
        -- exists [], m, result. split_and!; try done.
           ++ by rewrite Hsegs.
           ++ intros x Hx. by inversion Hx.
           ++ intros _ x Hx. by inversion Hx.
           ++ simpl. unfold success_response. by rewrite Hsegs.
    + by apply Hstep.
Qed.

(** [extract_transcript] in terms of the loop started on all methods. *)
Lemma extract_transcript_outcome (e : t) :
  let languages_opt := Some languages in
  let '(response, _, calls) :=
    extract_transcript settings adapters e video_id languages_opt
      use_fallback_methods use_vpn_rotation now processing_time in
  calls `prefix_of` List.filter enabled methods
  /\ ((exists pre k r,
         calls = (pre ++ [k])%list
         /\ out k = Returns (Some r)
         /\ ar_segments r <> []
         /\ (forall m, m ∈ pre -> has_segments (out m) = false)
         /\ (use_fallback_methods = false ->
             forall m, m ∈ pre -> raised (out m) = None)
         /\ response = success_response video_id processing_time k r)
      \/ ((forall m, m ∈ calls -> has_segments (out m) = false)
          /\ response
             = failure_response video_id processing_time
                 (last_raised ((fun m => out m) <$> calls) None)
          /\ (use_fallback_methods = true ->
              calls = List.filter enabled methods)
          /\ (use_fallback_methods = false ->
              forall m, m ∈ calls -> is_Some (raised (out m)) ->
                        last calls = Some m))).
Proof.
  unfold extract_transcript.
  change (default ["en"; "hi"; "mr"] (Some languages)) with languages.
  match goal with
  | |- context [try_methods _ _ ?todo ?e1 _ _ _ _ _ _ ?le ?c0] =>
      destruct (try_methods_outcome todo e1 le c0) as (new & Hc & Hpre & Hres);
      destruct (try_methods settings adapters todo e1 video_id languages
                  use_fallback_methods use_vpn_rotation now processing_time
                  le c0) as [[res e'] calls]
  end.
  simpl in Hc, Hres. subst calls.
  destruct res as [response | le'].
  - split; [done |]. left. exact Hres.
  - split; [done |]. right.
    destruct Hres as (Hall & -> & Hfull & Hlast). by split_and!.
Qed.

End ExtractorOutcome.

(** Only the defaulted language list matters. *)
Lemma extract_transcript_languages
    (settings : TranscriptExtractor.Settings)
    (adapters : TranscriptMethod -> string -> list string
                -> TranscriptExtractor.AdapterOutcome)
    (e : TranscriptExtractor.t) (video_id : string)
    (language_preference : option (list string))
    (use_fallback_methods use_vpn_rotation : bool) (now processing_time : Z) :
  TranscriptExtractor.extract_transcript settings adapters e video_id
    language_preference use_fallback_methods use_vpn_rotation
    now processing_time
  = TranscriptExtractor.extract_transcript settings adapters e video_id
      (Some (default ["en"; "hi"; "mr"] language_preference))
      use_fallback_methods use_vpn_rotation now processing_time.
Proof. reflexivity. Qed.

Lemma elem_of_methods (m : TranscriptMethod) : m ∈ TranscriptExtractor.methods.
Proof.
  unfold TranscriptExtractor.methods.
  destruct m; rewrite !elem_of_cons; tauto.
Qed.

Lemma NoDup_filter_methods (f : TranscriptMethod -> bool) :
  NoDup (List.filter f TranscriptExtractor.methods).
Proof.
  apply NoDup_ListNoDup, List.NoDup_filter, NoDup_ListNoDup, NoDup_methods.
Qed.

Lemma elem_of_list_filter {A : Type} (f : A -> bool) (l : list A) (x : A) :
  x ∈ List.filter f l <-> x ∈ l /\ f x = true.
Proof. by rewrite !list_elem_of_In, filter_In. Qed.

Lemma extract_transcript_calls_prefix_aux
    (settings : TranscriptExtractor.Settings)
    (adapters : TranscriptMethod -> string -> list string
                -> TranscriptExtractor.AdapterOutcome)
    (e : TranscriptExtractor.t) (video_id : string)
    (language_preference : option (list string))
    (use_fallback_methods use_vpn_rotation : bool) (now processing_time : Z) :
  (TranscriptExtractor.extract_transcript settings adapters e video_id
     language_preference use_fallback_methods use_vpn_rotation
     now processing_time).2
  `prefix_of`
    List.filter (TranscriptExtractor._is_method_enabled settings)
      TranscriptExtractor.methods.
Proof.
  rewrite extract_transcript_languages.
  pose proof (extract_transcript_outcome settings adapters video_id
                (default ["en"; "hi"; "mr"] language_preference)
                use_fallback_methods use_vpn_rotation now processing_time e)
    as H.
  cbv zeta in H.
  destruct (TranscriptExtractor.extract_transcript _ _ _ _ _ _ _ _ _)
    as [[resp e'] calls].
  by destruct H as [H _].
Qed.

(** The methods [extract_transcript] invokes always form an initial
    segment of the enabled methods in the fixed order: every invoked
    method is enabled, none is invoked twice, and none is skipped in
    favour of a later one. *)
Theorem extract_transcript_calls_prefix
    (settings : TranscriptExtractor.Settings)
    (adapters : TranscriptMethod -> string -> list string
                -> TranscriptExtractor.AdapterOutcome)
    (e : TranscriptExtractor.t) (video_id : string)
    (language_preference : option (list string))
    (use_fallback_methods use_vpn_rotation : bool) (now processing_time : Z) :
  let calls :=
    (TranscriptExtractor.extract_transcript settings adapters e video_id
       language_preference use_fallback_methods use_vpn_rotation
       now processing_time).2 in
  calls `prefix_of`
    List.filter (TranscriptExtractor._is_method_enabled settings)
      TranscriptExtractor.methods
  /\ NoDup calls
  /\ forall m, m ∈ calls ->
       TranscriptExtractor._is_method_enabled settings m = true.
Proof.
  intros calls.
  pose proof (extract_transcript_calls_prefix_aux settings adapters e video_id
                language_preference use_fallback_methods use_vpn_rotation
                now processing_time) as Hpre.
  fold calls in Hpre.
  split; [exact Hpre |]. destruct Hpre as [rest Hrest]. split.
  - pose proof (NoDup_filter_methods
                  (TranscriptExtractor._is_method_enabled settings)) as Hnd.
    rewrite Hrest in Hnd. by apply NoDup_app in Hnd as [Hnd _].
  - intros m Hm.
    assert (Hin : m ∈ List.filter
                        (TranscriptExtractor._is_method_enabled settings)
                        TranscriptExtractor.methods).
    { rewrite Hrest. apply elem_of_app. by left. }
    by apply elem_of_list_filter in Hin as [_ Hin].
Qed.

Lemma extract_transcript_outcome_default
    (settings : TranscriptExtractor.Settings)
    (adapters : TranscriptMethod -> string -> list string
                -> TranscriptExtractor.AdapterOutcome)
    (e : TranscriptExtractor.t) (video_id : string)
    (language_preference : option (list string))
    (use_fallback_methods use_vpn_rotation : bool) (now processing_time : Z) :
  let languages := default ["en"; "hi"; "mr"] language_preference in
  let out m := adapters m video_id languages in
  let '(response, _, calls) :=
    TranscriptExtractor.extract_transcript settings adapters e video_id
      language_preference use_fallback_methods use_vpn_rotation
      now processing_time in
  (exists pre k r,
     calls = (pre ++ [k])%list
     /\ out k = TranscriptExtractor.Returns (Some r)
     /\ TranscriptExtractor.ar_segments r <> []
     /\ (forall m, m ∈ pre -> TranscriptExtractor.has_segments (out m) = false)
     /\ (use_fallback_methods = false ->
         forall m, m ∈ pre -> TranscriptExtractor.raised (out m) = None)
     /\ response
        = TranscriptExtractor.success_response video_id processing_time k r)
  \/ ((forall m, m ∈ calls -> TranscriptExtractor.has_segments (out m) = false)
      /\ response
         = TranscriptExtractor.failure_response video_id processing_time
             (TranscriptExtractor.last_raised (out <$> calls) None)
      /\ (use_fallback_methods = true ->
          calls = List.filter (TranscriptExtractor._is_method_enabled settings)
                    TranscriptExtractor.methods)
      /\ (use_fallback_methods = false ->
          forall m, m ∈ calls ->
            is_Some (TranscriptExtractor.raised (out m)) ->
            last calls = Some m)).
Proof.
  intros languages out. rewrite extract_transcript_languages.
  pose proof (extract_transcript_outcome settings adapters video_id languages
                use_fallback_methods use_vpn_rotation now processing_time e)
    as H.
  cbv zeta in H. fold languages.
  destruct (TranscriptExtractor.extract_transcript _ _ _ _ _ _ _ _ _)
    as [[resp e'] calls].
  by destruct H as [_ H].
Qed.

Lemma error_text_spec (last_error : option string) :
  TranscriptExtractor.error_text last_error
  = match last_error with
    | Some msg => if decide (msg = "") then "No transcript available" else msg
    | None => "No transcript available"
    end.
Proof. by destruct last_error as [[| c msg] |]. Qed.

(** Every response of [extract_transcript] has one of two shapes.  Either
    it is the success response of the method invoked last, which returned
    at least one segment; or it is the failure response, no invoked method
    returned a segment, and its error is the message of the last invoked
    method that raised, or "No transcript available" when none raised or
    when that message is empty. *)
Theorem extract_transcript_response_shape
    (settings : TranscriptExtractor.Settings)
    (adapters : TranscriptMethod -> string -> list string
                -> TranscriptExtractor.AdapterOutcome)
    (e : TranscriptExtractor.t) (video_id : string)
    (language_preference : option (list string))
    (use_fallback_methods use_vpn_rotation : bool) (now processing_time : Z) :
  let languages := default ["en"; "hi"; "mr"] language_preference in
  let out m := adapters m video_id languages in
  let '(response, _, calls) :=
    TranscriptExtractor.extract_transcript settings adapters e video_id
      language_preference use_fallback_methods use_vpn_rotation
      now processing_time in
  (exists k r,
     last calls = Some k
     /\ out k = TranscriptExtractor.Returns (Some r)
     /\ TranscriptExtractor.ar_segments r <> []
     /\ response
        = TranscriptExtractor.success_response video_id processing_time k r)
  \/ ((forall m, m ∈ calls -> TranscriptExtractor.has_segments (out m) = false)
      /\ response
         = TranscriptExtractor.failure_response video_id processing_time
             (TranscriptExtractor.last_raised (out <$> calls) None)
      /\ resp_error response
         = Some match TranscriptExtractor.last_raised (out <$> calls) None with
                | Some msg =>
                    if decide (msg = "") then "No transcript available"
                    else msg
                | None => "No transcript available"
                end).
Proof.
  intros languages out.
  pose proof (extract_transcript_outcome_default settings adapters e video_id
                language_preference use_fallback_methods use_vpn_rotation
                now processing_time) as H.
  cbv zeta in H. fold languages in H.
  destruct (TranscriptExtractor.extract_transcript _ _ _ _ _ _ _ _ _)
    as [[resp e'] calls].
  destruct H as [(pre & k & r & -> & Hk & Hseg & _ & _ & ->) | (Hall & -> & _)].
  - left. exists k, r. split_and!; try done. by rewrite last_snoc.
  - right. split_and!; try done. simpl. by rewrite error_text_spec.
Qed.

(** With fallback on, [extract_transcript] succeeds exactly when some
    enabled method returns at least one segment. *)
Theorem extract_transcript_fallback_complete
    (settings : TranscriptExtractor.Settings)
    (adapters : TranscriptMethod -> string -> list string
                -> TranscriptExtractor.AdapterOutcome)
    (e : TranscriptExtractor.t) (video_id : string)
    (language_preference : option (list string))
    (use_vpn_rotation : bool) (now processing_time : Z) :
  let languages := default ["en"; "hi"; "mr"] language_preference in
  success
    (TranscriptExtractor.extract_transcript settings adapters e video_id
       language_preference true use_vpn_rotation now processing_time).1.1
  = true
  <-> exists k,
        TranscriptExtractor._is_method_enabled settings k = true
        /\ TranscriptExtractor.has_segments (adapters k video_id languages)
           = true.
Proof.
  intros languages.
  pose proof (extract_transcript_outcome_default settings adapters e video_id
                language_preference true use_vpn_rotation
                now processing_time) as H.
  pose proof (extract_transcript_calls_prefix_aux settings adapters e video_id
                language_preference true use_vpn_rotation
                now processing_time) as Hpre.
  cbv zeta in H, Hpre. fold languages in H.
  destruct (TranscriptExtractor.extract_transcript _ _ _ _ _ _ _ _ _)
    as [[resp e'] calls]. cbn [fst snd] in *.
  destruct H as [(pre & k & r & -> & Hk & Hseg & _ & _ & ->)
                | (Hall & -> & Hfull & _)].
  - split; [intros _ | done]. exists k. split.
    + destruct Hpre as [rest Hrest].
      assert (Hin : k ∈ List.filter
                          (TranscriptExtractor._is_method_enabled settings)
                          TranscriptExtractor.methods).
      { rewrite Hrest, !elem_of_app, list_elem_of_singleton. tauto. }
      by apply elem_of_list_filter in Hin as [_ Hin].
    + unfold TranscriptExtractor.has_segments. rewrite Hk.
      by destruct (TranscriptExtractor.ar_segments r).
  - split; [done |]. intros (k & Hen & Hhas). exfalso.
    assert (Hin : k ∈ calls).
    { rewrite (Hfull eq_refl). apply elem_of_list_filter.
      split; [apply elem_of_methods | done]. }
    rewrite (Hall k Hin) in Hhas. done.
Qed.

Lemma last_raised_snoc
    (outs : list TranscriptExtractor.AdapterOutcome)
    (o : TranscriptExtractor.AdapterOutcome) (init : option string) :
  TranscriptExtractor.last_raised (outs ++ [o])%list init
  = match TranscriptExtractor.raised o with
    | Some msg => Some msg
    | None => TranscriptExtractor.last_raised outs init
    end.
Proof. unfold TranscriptExtractor.last_raised. by rewrite foldl_app. Qed.

(** With fallback off, a method that raises is the last one invoked: the
    call returns the failure response, whose error is that method's
    message, or "No transcript available" when the message is empty. *)
Theorem extract_transcript_no_fallback_stops_at_raise
    (settings : TranscriptExtractor.Settings)
    (adapters : TranscriptMethod -> string -> list string
                -> TranscriptExtractor.AdapterOutcome)
    (e : TranscriptExtractor.t) (video_id : string)
    (language_preference : option (list string))
    (use_vpn_rotation : bool) (now processing_time : Z)
    (m : TranscriptMethod) (msg : string) :
  let languages := default ["en"; "hi"; "mr"] language_preference in
  let '(response, _, calls) :=
    TranscriptExtractor.extract_transcript settings adapters e video_id
      language_preference false use_vpn_rotation now processing_time in
  m ∈ calls ->
  adapters m video_id languages = TranscriptExtractor.Raises msg ->
  last calls = Some m
  /\ response
     = TranscriptExtractor.failure_response video_id processing_time
         (Some msg)
  /\ resp_error response
     = Some (if decide (msg = "") then "No transcript available" else msg).
Proof.
  intros languages.
  pose proof (extract_transcript_outcome_default settings adapters e video_id
                language_preference false use_vpn_rotation
                now processing_time) as H.
  cbv zeta in H. fold languages in H.
  destruct (TranscriptExtractor.extract_transcript _ _ _ _ _ _ _ _ _)
    as [[resp e'] calls].
  intros Hin Hraise.
  destruct H as [(pre & k & r & -> & Hk & _ & _ & Hnr & _)
                | (_ & -> & _ & Hlast)].
  - exfalso. apply elem_of_app in Hin as [Hin | Hin].
    + specialize (Hnr eq_refl m Hin). by rewrite Hraise in Hnr.
    + apply list_elem_of_singleton in Hin as ->. congruence.
  - assert (Hl : last calls = Some m).
    { apply (Hlast eq_refl m Hin). rewrite Hraise. by eexists. }
    split; [exact Hl |].
    apply last_Some in Hl as [l' ->].
    rewrite fmap_app. simpl. rewrite last_raised_snoc, Hraise.
    split; [done |]. simpl. by destruct msg.
Qed.

Lemma extract_transcript_no_fallback_stops_at_raise_witness :
  let '(response, _, calls) :=
    TranscriptExtractor.extract_transcript Samples.all_enabled
      Samples.adapters_raise_then_ok Samples.fresh_extractor "abc12345678"
      None false false 0 5 in
  calls = [YOUTUBE_TRANSCRIPT_API]
  /\ success response = false
  /\ resp_error response = Some "unavailable".
Proof.
  pose proof (extract_transcript_no_fallback_stops_at_raise
                Samples.all_enabled Samples.adapters_raise_then_ok
                Samples.fresh_extractor "abc12345678" None false 0 5
                YOUTUBE_TRANSCRIPT_API "unavailable") as H.
  cbv zeta in H.
  destruct (TranscriptExtractor.extract_transcript _ _ _ _ _ _ _ _ _)
    as [[response e'] calls] eqn:E.
  assert (Hcalls : calls = [YOUTUBE_TRANSCRIPT_API]).
  { vm_compute in E. by injection E as _ _ <-. }
  destruct H as (_ & -> & _); [| reflexivity |].
  - rewrite Hcalls. apply elem_of_cons. by left.
  - by split_and!.
Defined.

(** An exception whose text is empty leaves the default text in the
    response. *)
Example extract_transcript_empty_message :
  resp_error
    (TranscriptExtractor.extract_transcript Samples.all_enabled
       (fun _ _ _ => TranscriptExtractor.Raises "")
       Samples.fresh_extractor "abc12345678" None false false 0 5).1.1
  = Some "No transcript available".
Proof. reflexivity. Qed.

(** *** What a success response carries *)

Section SuccessResponse.

Import Utils TranscriptExtractor.

Local Open Scope Q_scope.

Lemma round2_lower_bound (c : Z) (x : Q) :
  c # 100 <= x -> c # 100 <= round2 x.
Proof.
  intros Hx. unfold round2.
  set (y := x * 100). set (n := Qfloor y).
  assert (Hy : inject_Z c <= y).
  { unfold y. assert (inject_Z c == (c # 100) * 100) as ->; [| lra].
    unfold Qeq. simpl. lia. }
  assert (Hn : (c <= n)%Z).
  { rewrite <- (Qfloor_Z c). by apply Qfloor_resp_le. }
  assert (Hk : forall k : Z, (c <= k)%Z -> c # 100 <= k # 100).
  { intros k Hk. unfold Qle. simpl. lia. }
  destruct (y - inject_Z n ?= 1 # 2); [destruct (Z.even n) | |];
    apply Hk; lia.
Qed.

Lemma base_score_method (k : TranscriptMethod) :
  75 # 100 <= base_score (method_value k).
Proof. destruct k; vm_compute; discriminate. Qed.

Lemma count_words_from_nonneg (s : string) :
  forall b : bool, (0 <= count_words_from b s)%Z.
Proof.
  induction s as [| c s IH]; intros b; simpl; [lia |].
  destruct (is_space c); [apply IH |].
  specialize (IH true). destruct b; lia.
Qed.

Lemma max_end_fold (rest : list TranscriptSegment) :
  forall cur : Q,
    let d :=
      foldl (fun cur s =>
               let e := start s + duration s in
               if Qle_bool e cur then cur else e) cur rest in
    cur <= d
    /\ (forall s, s ∈ rest -> segment_end s <= d)
    /\ (d = cur \/ exists s, s ∈ rest /\ d = segment_end s).
Proof.
  induction rest as [| s rest IH]; intros cur; cbv zeta in *; simpl.
  - split_and!; [lra | by inversion 1 | by left].
  - destruct (Qle_bool (start s + duration s) cur) eqn:Hle.
    + apply Qle_bool_iff in Hle.
      destruct (IH cur) as (H1 & H2 & H3). split_and!; [done | |].
      * intros x Hx. apply elem_of_cons in Hx as [-> | Hx]; [| by apply H2].
        unfold segment_end. eapply Qle_trans; [exact Hle | exact H1].
      * destruct H3 as [-> | (x & Hx & ->)]; [by left |].
        right. exists x. split; [apply elem_of_cons; by right | done].
    + assert (Hlt : cur < start s + duration s).
      { apply Qnot_le_lt. intros H. apply Qle_bool_iff in H. congruence. }
      destruct (IH (start s + duration s)) as (H1 & H2 & H3).
      split_and!; [lra | |].
      * intros x Hx. apply elem_of_cons in Hx as [-> | Hx]; [| by apply H2].
        exact H1.
      * right. destruct H3 as [-> | (x & Hx & ->)].
        -- exists s. split; [apply elem_of_cons; by left | done].
        -- exists x. split; [apply elem_of_cons; by right | done].
Qed.

Lemma max_end_spec (segs : list TranscriptSegment) :
  segs <> [] ->
  (forall s, s ∈ segs -> segment_end s <= max_end segs)
  /\ exists s, s ∈ segs /\ max_end segs = segment_end s.
Proof.
  destruct segs as [| s0 rest]; [done |]. intros _. unfold max_end.
  pose proof (max_end_fold rest (start s0 + duration s0)) as H.
  cbv zeta in H. destruct H as (H1 & H2 & H3). split.
  - intros s Hs. apply elem_of_cons in Hs as [-> | Hs]; [exact H1 | by apply H2].
  - destruct H3 as [-> | (x & Hx & ->)].
    + exists s0. split; [apply elem_of_cons; by left | done].
    + exists x. split; [apply elem_of_cons; by right | done].
Qed.

Lemma word_count_nonneg (segs : list TranscriptSegment) :
  (0 <= foldr Z.add 0 ((fun s => count_words (text s)) <$> segs))%Z.
Proof.
  induction segs as [| s segs IH]; [simpl; lia |].
  rewrite fmap_cons. cbn [foldr].
  pose proof (count_words_from_nonneg (text s) false). unfold count_words in *. lia.
Qed.

Lemma confidence_score_method_bounds
    (segs : list TranscriptSegment) (k : TranscriptMethod) :
  segs <> [] ->
  75 # 100 <= calculate_confidence_score segs (method_value k) <= 1.
Proof.
  intros Hne. destruct segs as [| s segs]; [done |].
  unfold calculate_confidence_score.
  pose proof (base_score_method k) as Hb.
  pose proof (quality_bonus_nonneg (join_space (map text (s :: segs)))) as Hq.
  split.
  - apply round2_lower_bound. apply Q.min_glb; [discriminate | lra].
  - apply round2_numerator_bounds. split.
    + apply Q.min_glb; [discriminate | lra].
    + apply Q.le_min_l.
Qed.

(** A success response of [extract_transcript] carries a confidence score
    between 0.75 and 1, a total duration that is the end of one of its
    segments and not before the end of any of them, and a word count that
    is not negative. *)
Theorem extract_transcript_success_bounds
    (settings : Settings)
    (adapters : TranscriptMethod -> string -> list string -> AdapterOutcome)
    (e : t) (video_id : string) (language_preference : option (list string))
    (use_fallback_methods use_vpn_rotation : bool) (now processing_time : Z) :
  let response :=
    (extract_transcript settings adapters e video_id language_preference
       use_fallback_methods use_vpn_rotation now processing_time).1.1 in
  success response = true ->
  exists (c d : Q) (w : Z),
    confidence_score response = Some c
    /\ 75 # 100 <= c <= 1
    /\ total_duration response = Some d
    /\ (forall s, s ∈ segments response -> segment_end s <= d)
    /\ (exists s, s ∈ segments response /\ d = segment_end s)
    /\ word_count response = Some w
    /\ (0 <= w)%Z.
Proof.
  intros response. subst response.
  pose proof (extract_transcript_outcome_default settings adapters e video_id
                language_preference use_fallback_methods use_vpn_rotation
                now processing_time) as H.
  cbv zeta in H.
  destruct (extract_transcript _ _ _ _ _ _ _ _ _) as [[resp e'] calls].
  cbn [fst snd].
  destruct H as [(pre & k & r & _ & _ & Hseg & _ & _ & ->) | (_ & -> & _)];
    [| done].
  intros _. unfold success_response. cbn [confidence_score total_duration
    segments word_count].
  destruct (max_end_spec (ar_segments r) Hseg) as [Hmax Hatt].
  eexists _, _, _. split; [reflexivity |].
  split; [by apply confidence_score_method_bounds |].
  split; [reflexivity |]. split; [exact Hmax |]. split; [exact Hatt |].
  split; [reflexivity | apply word_count_nonneg].
Qed.

Lemma extract_transcript_success_bounds_witness :
  confidence_score
    (extract_transcript Samples.all_enabled Samples.adapters_raise_then_ok
       Samples.fresh_extractor "abc12345678" None true false 0 5).1.1
  = Some (85 # 100)
  /\ total_duration
       (extract_transcript Samples.all_enabled Samples.adapters_raise_then_ok
          Samples.fresh_extractor "abc12345678" None true false 0 5).1.1
     = Some (2 # 1).
Proof.
  destruct (extract_transcript_success_bounds Samples.all_enabled
              Samples.adapters_raise_then_ok Samples.fresh_extractor
              "abc12345678" None true false 0 5 ltac:(reflexivity))
    as (c & d & w & Hc & _ & Hd & _).
  split; reflexivity.
Defined.

End SuccessResponse.

(** *** The statistics *)

Section ExtractorStats.

Import TranscriptExtractor.

Variable settings : Settings.
Variable adapters : TranscriptMethod -> string -> list string -> AdapterOutcome.
Variable video_id : string.
Variable languages : list string.
Variable use_fallback_methods use_vpn_rotation : bool.
Variable now processing_time : Z.

Local Abbreviation enabled := (_is_method_enabled settings).
Local Abbreviation out m := (adapters m video_id languages).
Local Abbreviation loop todo e last_error calls :=
  (try_methods settings adapters todo e video_id languages
     use_fallback_methods use_vpn_rotation now processing_time
     last_error calls).

Lemma method_value_inj (a b : TranscriptMethod) :
  method_value a = method_value b -> a = b.
Proof. by destruct a, b. Qed.

Lemma counter_incr (m : gmap string Z) (k x : TranscriptMethod) :
  counter (incr (method_value k) m) x
  = counter m x + (if decide (x = k) then 1 else 0).
Proof.
  unfold counter, incr. case_decide as Hx.
  - subst. by rewrite lookup_insert_eq.
  - rewrite lookup_insert_ne; [lia |].
    intros H. by apply method_value_inj in H.
Qed.

Local Abbreviation raised_by new x := (failures_of (fun m => out m) new x).

Lemma raised_by_cons (m : TranscriptMethod) (new : list TranscriptMethod)
    (x : TranscriptMethod) :
  m ∉ new ->
  raised_by (m :: new) x
  = (if decide (x = m /\ is_Some (raised (out m))) then 1 else 0)
    + raised_by new x.
Proof.
  intros Hm. unfold failures_of.
  repeat case_decide; try lia; exfalso;
    rewrite ?elem_of_cons in *; intuition (subst; eauto).
Qed.

Lemma raised_by_singleton (m x : TranscriptMethod) :
  raised_by [m] x
  = (if decide (x = m /\ is_Some (raised (out m))) then 1 else 0).
Proof.
  unfold failures_of.
  repeat case_decide; try lia; exfalso;
    rewrite ?list_elem_of_singleton in *; intuition (subst; eauto).
Qed.

Lemma try_methods_stats (todo : list TranscriptMethod) :
  NoDup todo ->
  forall (e : t) (last_error : option string) (calls0 : list TranscriptMethod),
  exists new : list TranscriptMethod,
    (loop todo e last_error calls0).2 = (calls0 ++ new)%list
    /\ (forall x, x ∈ new -> x ∈ todo)
    /\ let res := (loop todo e last_error calls0).1.1 in
       let st := stats e in
       let st' := stats (loop todo e last_error calls0).1.2 in
       total_requests st' = total_requests st
       /\ successful_extractions st'
          = successful_extractions st
            + (match res with Returned _ => 1 | Ended _ => 0 end)
       /\ (forall x, counter (error_counts st') x
                     = counter (error_counts st) x + raised_by new x)
       /\ (forall x, counter (method_usage st') x
                     = counter (method_usage st) x + returned_by res x)
       /\ (use_vpn_rotation = false ->
           vpn_rotator (loop todo e last_error calls0).1.2 = vpn_rotator e).
Proof.
  induction todo as [| m todo IH]; intros Hnd e le c0.
  - exists []. simpl. rewrite app_nil_r.
    split_and!; try done; try lia; intros x; simpl; try lia.
    unfold failures_of. rewrite decide_False; [lia |].
    intros [H _]. by inversion H.
  - apply NoDup_cons in Hnd as [Hm Hnd]. specialize (IH Hnd).
    simpl. destruct (enabled m) eqn:Hen; simpl.
    2:{ destruct (IH e le c0) as (new & Hc & Hsub & Hst).
        exists new. split; [done |]. split; [| exact Hst].
        intros x Hx. apply elem_of_cons. right. by apply Hsub. }
    set (e1 := if use_vpn_rotation then _ else e).
    assert (He1 : stats e1 = stats e) by (subst e1; by destruct use_vpn_rotation).
    assert (Hr1 : use_vpn_rotation = false -> vpn_rotator e1 = vpn_rotator e).
    { intros H. subst e1. by rewrite H. }
    assert (Hstep : forall (e' : t) (le' : option string),
              total_requests (stats e') = total_requests (stats e) ->
              successful_extractions (stats e')
              = successful_extractions (stats e) ->
              method_usage (stats e') = method_usage (stats e) ->
              (forall x, counter (error_counts (stats e')) x
                         = counter (error_counts (stats e)) x
                           + (if decide (x = m /\ is_Some (raised (out m)))
                              then 1 else 0)) ->
              (use_vpn_rotation = false -> vpn_rotator e' = vpn_rotator e) ->
              exists new : list TranscriptMethod,
                (loop todo e' le' (c0 ++ [m])%list).2 = (c0 ++ new)%list
                /\ (forall x, x ∈ new -> x ∈ m :: todo)
                /\ let res := (loop todo e' le' (c0 ++ [m])%list).1.1 in
                   let st := stats e in
                   let st' := stats (loop todo e' le' (c0 ++ [m])%list).1.2 in
                   total_requests st' = total_requests st
                   /\ successful_extractions st'
                      = successful_extractions st
                        + (match res with Returned _ => 1 | Ended _ => 0 end)
                   /\ (forall x, counter (error_counts st') x
                                 = counter (error_counts st) x + raised_by new x)
                   /\ (forall x, counter (method_usage st') x
                                 = counter (method_usage st) x
                                   + returned_by res x)
                   /\ (use_vpn_rotation = false ->
                       vpn_rotator (loop todo e' le' (c0 ++ [m])%list).1.2
                       = vpn_rotator e)).
    { intros e' le' Ht Hs Hu Herr Hrot.
      destruct (IH e' le' (c0 ++ [m])%list)
        as (new & Hc & Hsub & Ht' & Hs' & Herr' & Hu' & Hrot').
      exists (m :: new). split; [by rewrite Hc, <- app_assoc |].
      split.
      { intros x Hx. apply elem_of_cons in Hx as [-> | Hx];
          apply elem_of_cons; [by left | right; by apply Hsub]. }
      cbv zeta. split_and!.
      - congruence.
      - by rewrite Hs', Hs.
      - intros x. rewrite Herr', Herr.
        assert (Hnew : m ∉ new) by (intros H; by apply Hsub in H).
        rewrite (raised_by_cons m new x Hnew). lia.
      - intros x. by rewrite Hu', Hu.
      - intros Hv. by rewrite (Hrot' Hv), (Hrot Hv). }
    destruct (out m) as [msg | [result |]] eqn:Ha.
    + destruct use_fallback_methods eqn:Hfb; simpl.
      * apply Hstep; simpl; rewrite ?He1; try done.
        intros x. rewrite counter_incr.
        repeat case_decide; try lia; exfalso; intuition (subst; eauto).
      * exists [m]. simpl. rewrite He1. split_and!; try done.
        -- intros x Hx. apply list_elem_of_singleton in Hx as ->.
           apply elem_of_cons. by left.
        -- lia.
        -- intros x. rewrite counter_incr, raised_by_singleton, Ha.
           repeat case_decide; try lia; exfalso; intuition (subst; eauto).
        -- intros x. lia.
    + destruct (ar_segments result) as [| s segs] eqn:Hsegs.
      * apply Hstep; simpl; rewrite ?He1; try done.
        intros x. rewrite decide_False; [lia |]. intros [_ [? [=]]].
      * exists [m]. simpl. rewrite He1. split_and!; try done.
        -- intros x Hx. apply list_elem_of_singleton in Hx as ->.
           apply elem_of_cons. by left.
        -- intros x. rewrite raised_by_singleton, Ha.
           rewrite decide_False; [lia |]. intros [_ [? [=]]].
        -- intros x. rewrite counter_incr.
           repeat case_decide; try lia; congruence.
    + apply Hstep; simpl; rewrite ?He1; try done.
      intros x. rewrite decide_False; [lia |]. intros [_ [? [=]]].
Qed.

(** The bookkeeping of one [extract_transcript] call: one more request;
    one more successful extraction exactly when the response is a
    success; for every method, one more error exactly when it was invoked
    and raised, and one more use exactly when it produced the response;
    and without rotation the rotator is left alone. *)
Theorem extract_transcript_stats (e : t) :
  let '(response, e', calls) :=
    extract_transcript settings adapters e video_id (Some languages)
      use_fallback_methods use_vpn_rotation now processing_time in
  let st := stats e in
  let st' := stats e' in
  total_requests st' = total_requests st + 1
  /\ successful_extractions st'
     = successful_extractions st + (if success response then 1 else 0)
  /\ (forall x, counter (error_counts st') x
                = counter (error_counts st) x
                  + failures_of (fun m => out m) calls x)
  /\ (forall x, counter (method_usage st') x
                = counter (method_usage st) x
                  + (if decide (method_used response = Some x) then 1 else 0))
  /\ (use_vpn_rotation = false -> vpn_rotator e' = vpn_rotator e).
Proof.
  unfold extract_transcript.
  change (default ["en"; "hi"; "mr"] (Some languages)) with languages.
  match goal with
  | |- context [try_methods _ _ ?todo ?e1 _ _ _ _ _ _ ?le ?c0] =>
      destruct (try_methods_stats todo NoDup_methods e1 le c0)
        as (new & Hc & _ & Ht & Hs & Herr & Hu & Hrot);
      pose proof (try_methods_outcome settings adapters video_id languages
                    use_fallback_methods use_vpn_rotation now processing_time
                    todo e1 le c0) as (new' & _ & _ & Hout);
      destruct (try_methods settings adapters todo e1 video_id languages
                  use_fallback_methods use_vpn_rotation now processing_time
                  le c0) as [[res e'] calls]
  end.
  cbn [fst snd stats total_requests successful_extractions error_counts
       method_usage vpn_rotator] in *.
  subst calls.
  destruct res as [response | le'].
  - destruct Hout as (pre & k & r & _ & _ & _ & _ & _ & ->).
    cbn [success success_response]. by split_and!.
  - cbn [success method_used returned_by] in *. by split_and!.
Qed.

End ExtractorStats.

(** ** More on the utilities *)

Section UtilsFacts.

Import Utils.

Lemma string_app_empty_r (s : string) : s +:+ "" = s.
Proof.
  induction s as [| c s IH]; [done |].
  change (String c (s +:+ "") = String c s). by rewrite IH.
Qed.

Lemma match_id_chars_spec (n : nat) :
  forall s rest,
    match_id_chars n s = Some rest
    <-> exists core,
          s = core +:+ rest
          /\ String.length core = n
          /\ forallb is_id_char (list_ascii_of_string core) = true.
Proof.
  induction n as [| n IH]; intros s rest; simpl.
  - split.
    + intros [= ->]. by exists "".
    + intros (core & -> & Hlen & _). by destruct core.
  - destruct s as [| c s].
    + split; [done |]. intros (core & Hs & Hlen & _).
      destruct core; [done |]. discriminate.
    + destruct (is_id_char c) eqn:Hc.
      * rewrite IH. split.
        -- intros (core & -> & Hlen & Hall).
           exists (String c core). simpl. rewrite Hc, Hall, Hlen. done.
        -- intros (core & Hs & Hlen & Hall).
           destruct core as [| c' core]; [done |].
           simpl in *. injection Hs as -> ->. injection Hlen as Hlen.
           rewrite Hc in Hall. by exists core.
      * split; [done |]. intros (core & Hs & Hlen & Hall).
        destruct core as [| c' core]; [done |].
        simpl in *. injection Hs as -> ->. by rewrite Hc in Hall.
Qed.

(** [validate_video_id] accepts exactly the texts made of 11 characters
    from letters, digits, underscore and hyphen, and those 11 characters
    followed by one newline (which [$] lets through). *)
Theorem validate_video_id_spec (video_id : string) :
  validate_video_id video_id = true
  <-> exists core,
        String.length core = 11%nat
        /\ forallb is_id_char (list_ascii_of_string core) = true
        /\ (video_id = core \/ video_id = core +:+ String "010"%char "").
Proof.
  unfold validate_video_id. split.
  - case_decide as He; [done |].
    destruct (match_id_chars 11 video_id) as [rest |] eqn:Hm; [| done].
    apply match_id_chars_spec in Hm as (core & -> & Hlen & Hall).
    unfold at_end. intros Hend. exists core. split_and!; try done.
    repeat case_decide; subst; try done.
    + left. apply string_app_empty_r.
    + by right.
  - intros (core & Hlen & Hall & Hs).
    assert (Hne : video_id <> "").
    { intros ->. destruct Hs as [<- | Hs]; [done |]. by destruct core. }
    rewrite decide_False by done.
    assert (Hm : exists rest, match_id_chars 11 video_id = Some rest
                              /\ at_end rest = true).
    { destruct Hs as [-> | ->].
      - exists "". split; [| done]. apply match_id_chars_spec.
        exists core. split_and!; try done.
        by rewrite string_app_empty_r.
      - exists (String "010"%char ""). split; [| done].
        apply match_id_chars_spec. by exists core. }
    destruct Hm as (rest & -> & Hend). exact Hend.
Qed.

(** The identifiers the orchestrator is used with pass, and so does one
    with a newline behind it; a shorter one and one with a blank do not. *)
Example validate_video_id_samples :
  validate_video_id "abc12345678" = true
  /\ validate_video_id "dQw4w9WgXcQ" = true
  /\ validate_video_id ("abc12345678" +:+ String "010"%char "") = true
  /\ validate_video_id "abc1234567" = false
  /\ validate_video_id "abc 2345678" = false
  /\ validate_video_id "" = false.
Proof. vm_compute. done. Qed.

Lemma chunk_loop_spec (max_chunk_size : Z) (segments : list TranscriptSegment) :
  forall (chunks : list (list TranscriptSegment))
         (current : list TranscriptSegment) (size : Z),
    size = chunk_size current ->
    Forall (fun c => c <> []
                     /\ ((2 <= length c)%nat -> chunk_size c <= max_chunk_size))
           chunks ->
    ((2 <= length current)%nat -> chunk_size current <= max_chunk_size) ->
    let '(chunks', current') :=
      chunk_loop segments max_chunk_size chunks current size in
    (concat chunks' ++ current' = concat chunks ++ current ++ segments)%list
    /\ Forall (fun c => c <> []
                        /\ ((2 <= length c)%nat ->
                            chunk_size c <= max_chunk_size))
              chunks'
    /\ ((2 <= length current')%nat -> chunk_size current' <= max_chunk_size).
Proof.
  induction segments as [| seg segments IH]; intros chunks current size
    Hsize Hchunks Hcur; simpl.
  - by rewrite app_nil_r.
  - assert (Happ : forall l : list TranscriptSegment,
              chunk_size (l ++ [seg])
              = chunk_size l + Z.of_nat (String.length (text seg))).
    { clear. induction l as [| x l IHl]; simpl; [lia |].
      unfold chunk_size in *. simpl. rewrite IHl. lia. }
    destruct ((size + Z.of_nat (String.length (text seg)) >? max_chunk_size)
              && match current with [] => false | _ :: _ => true end)
      eqn:Hcond.
    + apply andb_true_iff in Hcond as [_ Hne].
      specialize (IH (chunks ++ [current])%list [seg]
                    (Z.of_nat (String.length (text seg)))).
      destruct (chunk_loop segments max_chunk_size _ _ _) as [chunks' current'].
      destruct IH as (Hcat & Hall & Hlast).
      * unfold chunk_size. simpl. lia.
      * apply Forall_app. split; [done |]. apply Forall_singleton.
        split; [by destruct current | done].
      * simpl. lia.
      * split_and!; try done.
        rewrite Hcat, concat_app. simpl. by rewrite app_nil_r, <- !app_assoc.
    + specialize (IH chunks (current ++ [seg])%list
                    (size + Z.of_nat (String.length (text seg)))).
      destruct (chunk_loop segments max_chunk_size _ _ _) as [chunks' current'].
      destruct IH as (Hcat & Hall & Hlast).
      * rewrite Happ. lia.
      * done.
      * intros Hlen. rewrite Happ, <- Hsize.
        apply andb_false_iff in Hcond as [Hgt | Hempty]; [lia |].
        destruct current; [simpl in Hlen; lia | done].
      * split_and!; try done.
        rewrite Hcat. by rewrite <- !app_assoc.
Qed.

(** [chunk_segments] cuts the list of segments into consecutive chunks:
    joined together the chunks give back the list, in order; no chunk is
    empty; and a chunk of two or more segments never exceeds the size
    limit (only a single over-long segment can). *)
Theorem chunk_segments_spec
    (segments : list TranscriptSegment) (max_chunk_size : Z) :
  let chunks := chunk_segments segments max_chunk_size in
  concat chunks = segments
  /\ Forall (fun c => c <> []) chunks
  /\ Forall (fun c => (2 <= length c)%nat -> chunk_size c <= max_chunk_size)
            chunks.
Proof.
  unfold chunk_segments.
  pose proof (chunk_loop_spec max_chunk_size segments [] [] 0 eq_refl
                (List.Forall_nil _)) as H.
  destruct (chunk_loop segments max_chunk_size [] [] 0) as [chunks current].
  destruct H as (Hcat & Hall & Hlast); [simpl; lia |].
  simpl in Hcat.
  assert (Hsplit : Forall (fun c => c <> []) chunks
                   /\ Forall (fun c => (2 <= length c)%nat ->
                                       chunk_size c <= max_chunk_size) chunks).
  { split; eapply Forall_impl; try exact Hall; by intros c [? ?]. }
  destruct Hsplit as [Hne Hfit].
  destruct current as [| s current].
  - rewrite app_nil_r in Hcat. by split_and!.
  - split_and!.
    + rewrite concat_app. simpl. by rewrite app_nil_r.
    + apply Forall_app. split; [done |]. by apply Forall_singleton.
    + apply Forall_app. split; [done |]. by apply Forall_singleton.
Qed.

Lemma lower_char_idempotent (c : ascii) :
  lower_char (lower_char c) = lower_char c.
Proof.
  destruct c as [b0 b1 b2 b3 b4 b5 b6 b7].
  destruct b0, b1, b2, b3, b4, b5, b6, b7; reflexivity.
Qed.

Lemma lower_idempotent (s : string) : lower (lower s) = lower s.
Proof.
  induction s as [| c s IH]; simpl; [done |].
  by rewrite lower_char_idempotent, IH.
Qed.

Lemma lower_empty_iff (s : string) : lower s = "" <-> s = "".
Proof. by destruct s. Qed.

Lemma length_substring_le (n m : nat) (s : string) :
  (String.length (substring n m s) <= m)%nat.
Proof.
  revert n m. induction s as [| c s IH]; intros n m.
  - destruct n, m; simpl; lia.
  - destruct n as [| n]; simpl.
    + destruct m as [| m]; simpl; [lia |]. specialize (IH 0%nat m). lia.
    + apply IH.
Qed.

(** [normalize_language_code] returns "en" for the empty code, and
    otherwise one of the four codes of its table or a text of at most two
    characters; it does not distinguish upper from lower case. *)
Theorem normalize_language_code_spec (lang_code : string) :
  normalize_language_code "" = "en"
  /\ (normalize_language_code lang_code ∈ ["hi"; "mr"; "en"; "auto"]
      \/ (String.length (normalize_language_code lang_code) <= 2)%nat)
  /\ normalize_language_code (lower lang_code)
     = normalize_language_code lang_code.
Proof.
  split; [reflexivity |]. split.
  - unfold normalize_language_code.
    repeat case_decide;
      try (left; rewrite !elem_of_cons; tauto).
    right. apply length_substring_le.
  - unfold normalize_language_code. rewrite lower_idempotent.
    destruct (decide (lang_code = "")) as [-> | Hne]; [done |].
    rewrite decide_False; [done |]. by rewrite lower_empty_iff.
Qed.

(** A code of blanks only is not given the default: it comes back
    empty. *)
Example normalize_language_code_samples :
  normalize_language_code "Hindi" = "hi"
  /\ normalize_language_code " MARATHI " = "mr"
  /\ normalize_language_code "Automatic" = "auto"
  /\ normalize_language_code "fr-CA" = "fr"
  /\ normalize_language_code "  " = "".
Proof. vm_compute. done. Qed.

End UtilsFacts.

(** ** The background worker *)

Section WorkerFacts.

Import QueueManager Main.

Variable settings : TranscriptExtractor.Settings.
Variable rotator_settings : VPNRotator.Settings.
Variable adapters :
  TranscriptMethod -> string -> list string -> TranscriptExtractor.AdapterOutcome.

Local Abbreviation run fuel env q ex :=
  (worker_loop settings adapters fuel env q ex).
Local Abbreviation extraction ex job turn :=
  (TranscriptExtractor.extract_transcript settings adapters ex (video_id job)
     (Some ["en"; "hi"; "mr"]) true true
     (extract_at turn) (processing_time turn)).

(** What the passing of time leaves of the store. *)
Lemma expire_jobs_spec (keys : list string) (r : Redis) :
  let r' := foldr expire_job r keys in
  waiting r' = waiting r
  /\ processing r' = processing r
  /\ completed r' = completed r
  /\ failed r' = failed r
  /\ completed_expire r' = completed_expire r
  /\ failed_expire r' = failed_expire r
  /\ forall k, job_data r' !! k
               = if decide (k ∈ keys) then None else job_data r !! k.
Proof.
  induction keys as [| x keys IH]; simpl.
  - by split_and!.
  - destruct IH as (Hw & Hp & Hc & Hf & Hce & Hfe & Hd).
    split_and!; try done. intros k. rewrite lookup_delete, Hd.
    destruct (decide (x = k)) as [-> | Hne].
    + by rewrite decide_True by (apply elem_of_cons; by left).
    + destruct (decide (k ∈ keys)) as [Hin | Hnin].
      * by rewrite decide_True by (apply elem_of_cons; by right).
      * rewrite decide_False; [done |].
        rewrite elem_of_cons. intros [-> | ?]; done.
Qed.

Lemma age_spec (turn : Turn) (r : Redis) :
  let r' := age turn r in
  waiting r' = waiting r
  /\ processing r' = processing r
  /\ completed r' ⊆ completed r
  /\ (completed_expired turn = false -> completed r' = completed r)
  /\ failed r' ⊆ failed r
  /\ forall k, job_data r' !! k
               = if decide (k ∈ expired_jobs turn) then None
                 else job_data r !! k.
Proof.
  unfold age.
  destruct (expire_jobs_spec (expired_jobs turn) r)
    as (Hw & Hp & Hc & Hf & Hce & Hfe & Hd).
  set (r1 := foldr expire_job r (expired_jobs turn)) in *.
  assert (H2 : let r2 := if completed_expired turn
                         then expire_completed_set r1 else r1 in
               waiting r2 = waiting r1 /\ processing r2 = processing r1
               /\ completed r2 ⊆ completed r1
               /\ (completed_expired turn = false -> completed r2 = completed r1)
               /\ failed r2 = failed r1 /\ job_data r2 = job_data r1).
  { destruct (completed_expired turn); simpl; [| by split_and!].
    unfold expire_completed_set. destruct (completed_expire r1); simpl.
    - split_and!; first [done | apply empty_subseteq].
    - by split_and!. }
  cbv zeta in H2.
  set (r2 := if completed_expired turn then expire_completed_set r1 else r1) in *.
  destruct H2 as (Hw2 & Hp2 & Hc2 & Hc2' & Hf2 & Hd2).
  assert (H3 : let r3 := if failed_expired turn
                         then expire_failed_set r2 else r2 in
               waiting r3 = waiting r2 /\ processing r3 = processing r2
               /\ completed r3 = completed r2
               /\ failed r3 ⊆ failed r2 /\ job_data r3 = job_data r2).
  { destruct (failed_expired turn); simpl; [| by split_and!].
    unfold expire_failed_set. destruct (failed_expire r2); simpl.
    - split_and!; first [done | apply empty_subseteq].
    - by split_and!. }
  cbv zeta in H3. destruct H3 as (Hw3 & Hp3 & Hc3 & Hf3 & Hd3).
  cbv zeta. rewrite Hw3, Hp3, Hc3, Hd3, Hw2, Hp2, Hd2, Hw, Hp.
  split_and!; try done.
  - by rewrite <- Hc.
  - intros Hno. by rewrite Hc2', Hc.
  - rewrite <- Hf, <- Hf2. done.
Qed.

(** One turn of the loop on a job whose record is there. *)
Lemma worker_turn
    (q : t) (ex : TranscriptExtractor.t) (turn : Turn) (jid : string)
    (score ttl : Z) (job : TranscriptJob) (r1 : Redis) :
  connected q = true ->
  zpopmax_waiting (redis_client q) = (Some (jid, score), r1) ->
  job_data (redis_client q) !! jid = Some (ttl, job) ->
  job_key job = jid ->
  exists (job1 : TranscriptJob) (q1 q2 : t) (ex2 : TranscriptExtractor.t),
    get_next_job q (taken_at turn) = (Some job1, q1)
    /\ process_job settings adapters q1 ex job1 turn = (None, q2, ex2)
    /\ connected q2 = true
    /\ waiting (redis_client q2) = delete jid (waiting (redis_client q))
    /\ processing (redis_client q2)
       = ({[jid]} ∪ processing (redis_client q)) ∖ {[jid]}
    /\ completed (redis_client q2) = {[jid]} ∪ completed (redis_client q)
    /\ failed (redis_client q2) = failed (redis_client q)
    /\ job_data (redis_client q2)
       = <[jid := (3600, handled (taken_at turn)
                           (extraction ex job turn).1.1 job)]>
           (job_data (redis_client q)).
Proof.
  intros Hc Hpop Hd Hkey.
  destruct (zpopmax_waiting_spec _ _ _ _ Hpop)
    as (_ & _ & Hw & Hp & Hcm & Hf & Hdata).
  destruct (extraction ex (set_status PROCESSING
                             (set_started_at (Some (taken_at turn))
                                (set_status PROCESSING job))) turn)
    as [[resp ex2] calls] eqn:Hex.
  eexists _, _, _, ex2. split; [| split].
  - unfold get_next_job. rewrite Hc, Hpop. cbn [negb].
    unfold get_job_data. rewrite Hdata, Hd. cbn [fmap option_fmap option_map snd].
    rewrite update_job_non_terminal by (simpl; auto). reflexivity.
  - unfold process_job.
    rewrite update_job_non_terminal by (simpl; auto).
    rewrite Hex.
    unfold update_job at 1. cbn [connected with_redis negb]. rewrite Hc.
    cbn [negb status set_result set_status]. reflexivity.
  - change (video_id (set_status PROCESSING
                        (set_started_at (Some (taken_at turn))
                           (set_status PROCESSING job))))
      with (video_id job) in Hex.
    rewrite Hex. cbn [fst].
    unfold job_key in *. simpl. rewrite Hkey, Hc, Hw, Hp, Hcm, Hf, Hdata.
    rewrite !insert_insert_eq. by split_and!.
Qed.

Lemma zpopmax_waiting_nonempty (r : Redis) :
  waiting r <> ∅ ->
  exists jid score r1, zpopmax_waiting r = (Some (jid, score), r1).
Proof.
  intros Hne. unfold zpopmax_waiting.
  destruct (zmax (map_to_list (waiting r))) as [[jid sc] |] eqn:Hz.
  - by eexists _, _, _.
  - apply zmax_nil_iff, map_to_list_empty_iff in Hz. done.
Qed.

(** The loop empties the waiting set when every waiting id has a record
    and no key of the set [spared], which holds the waiting ids, runs out
    during the run: with one more turn than there are waiting jobs it
    ends, and it has handled each of them. *)
Lemma worker_loop_drains (spared : gset string) (n : nat) :
  forall (env : nat -> Turn) (q : t) (ex : TranscriptExtractor.t),
    size (waiting (redis_client q)) = n ->
    connected q = true ->
    records_keyed (redis_client q) ->
    (forall k, k ∈ dom (waiting (redis_client q)) ->
               is_Some (job_data (redis_client q) !! k)) ->
    dom (waiting (redis_client q)) ⊆ spared ->
    (forall i k, k ∈ expired_jobs (env i) -> k ∉ spared) ->
    exists (q' : t) (ex' : TranscriptExtractor.t),
      run (S n) env q ex = Some (q', ex')
      /\ connected q' = true
      /\ waiting (redis_client q') = ∅
      /\ failed (redis_client q') ⊆ failed (redis_client q)
      /\ processing (redis_client q')
         = processing (redis_client q) ∖ dom (waiting (redis_client q))
      /\ completed (redis_client q')
         ⊆ completed (redis_client q) ∪ dom (waiting (redis_client q))
      /\ ((forall i, completed_expired (env i) = false) ->
          completed (redis_client q')
          = completed (redis_client q) ∪ dom (waiting (redis_client q)))
      /\ (forall k, k ∉ dom (waiting (redis_client q)) ->
            job_data (redis_client q') !! k = job_data (redis_client q) !! k
            \/ job_data (redis_client q') !! k = None)
      /\ (forall k, k ∈ spared -> k ∉ dom (waiting (redis_client q)) ->
            job_data (redis_client q') !! k = job_data (redis_client q) !! k)
      /\ (forall k ttl job,
            k ∈ dom (waiting (redis_client q)) ->
            job_data (redis_client q) !! k = Some (ttl, job) ->
            exists ex0 turn,
              job_data (redis_client q') !! k
              = Some (3600, handled (taken_at turn)
                              (extraction ex0 job turn).1.1 job)).
Proof.
  induction n as [| n IH]; intros env q ex Hsize Hc Hk Hrec Hsub Henv.
  - apply map_size_empty_iff in Hsize.
    destruct (age_spec (env 0%nat) (redis_client q))
      as (Hw & Hp & Hcm & Hcm' & Hf & Hd).
    eexists _, ex. cbn [worker_loop]. unfold get_next_job.
    cbn [connected with_redis redis_client]. rewrite Hc. cbn [negb].
    rewrite (zpopmax_waiting_empty (age (env 0%nat) (redis_client q)))
      by (by rewrite Hw).
    split; [reflexivity |]. cbn [connected with_redis redis_client].
    rewrite Hw, Hp, Hsize, dom_empty_L.
    split_and!; try done.
    + by rewrite difference_empty_L.
    + rewrite union_empty_r_L. done.
    + intros Hno. rewrite union_empty_r_L. by apply Hcm'.
    + intros k _. rewrite Hd. case_decide; [by right | by left].
    + intros k Hsp _. rewrite Hd.
      rewrite decide_False; [done |]. intros Hin. by apply (Henv 0%nat k).
  - assert (Hne : waiting (redis_client q) <> ∅).
    { intros He. rewrite He, map_size_empty in Hsize. lia. }
    set (turn := env 0%nat).
    destruct (age_spec turn (redis_client q))
      as (Hwa & Hpa & Hcma & Hcma' & Hfa & Hda).
    set (qa := with_redis (age turn (redis_client q)) q).
    assert (Hra : redis_client qa = age turn (redis_client q)) by done.
    assert (Hca : connected qa = true) by done.
    assert (Hnea : waiting (redis_client qa) <> ∅) by (by rewrite Hra, Hwa).
    destruct (zpopmax_waiting_nonempty _ Hnea) as (jid & sc & r1 & Hpop).
    destruct (zpopmax_waiting_spec _ _ _ _ Hpop) as (Hin & _).
    rewrite Hra, Hwa in Hin.
    assert (Hjid : jid ∈ dom (waiting (redis_client q))).
    { apply elem_of_dom. by eexists. }
    assert (Hspared : forall k, k ∈ spared ->
              job_data (age turn (redis_client q)) !! k
              = job_data (redis_client q) !! k).
    { intros k Hsp. rewrite Hda. rewrite decide_False; [done |].
      intros Hex. by apply (Henv 0%nat k). }
    destruct (Hrec jid Hjid) as [[ttl job] Hd].
    assert (Hkey : job_key job = jid) by (by eapply Hk).
    assert (Hd' : job_data (redis_client qa) !! jid = Some (ttl, job)).
    { rewrite Hra, Hspared; [done |]. by apply Hsub. }
    destruct (worker_turn qa ex turn jid sc ttl job r1 Hca Hpop Hd' Hkey)
      as (job1 & q1 & q2 & ex2 & Hget & Hproc & Hc2 & Hw2 & Hp2 & Hcm2
          & Hf2 & Hd2).
    rewrite Hra in Hw2, Hp2, Hcm2, Hf2, Hd2.
    rewrite Hwa in Hw2. rewrite Hpa in Hp2.
    destruct (IH (fun i => env (S i)) q2 ex2)
      as (q' & ex' & Hrun' & Hc' & Hw' & Hf' & Hp' & Hcm' & Hcmeq'
          & Hother & Hframe & Hdone).
    + rewrite Hw2, map_size_delete, Hin. simpl. lia.
    + done.
    + intros k ttl' j. rewrite Hd2, lookup_insert.
      case_decide; [intros [= <- <-]; by subst |].
      rewrite Hda. case_decide; [done | apply Hk].
    + intros k. rewrite Hw2, dom_delete_L, elem_of_difference,
        not_elem_of_singleton.
      intros [Hkw Hne']. rewrite Hd2, lookup_insert_ne by done.
      rewrite Hspared by (by apply Hsub). by apply Hrec.
    + rewrite Hw2, dom_delete_L. etrans; [| exact Hsub].
      apply subseteq_difference_l. done.
    + intros i k. apply Henv.
    + exists q', ex'.
      split.
      { cbn [worker_loop]. fold turn. fold qa. rewrite Hget, Hproc.
        exact Hrun'. }
      rewrite Hw2, dom_delete_L in *.
      split_and!; try done.
      * etrans; [exact Hf' |]. rewrite Hf2. exact Hfa.
      * rewrite Hp', Hp2. apply set_eq. intros x.
        rewrite !elem_of_difference, !elem_of_union, !elem_of_singleton.
        destruct (decide (x = jid)) as [-> | ?]; tauto.
      * intros x Hx. apply Hcm' in Hx. rewrite Hcm2 in Hx.
        revert Hx.
        rewrite !elem_of_union, elem_of_difference, !elem_of_singleton.
        intros [[-> | Hx] | [Hx _]]; [by right | left; by apply Hcma | by right].
      * intros Hno. rewrite (Hcmeq' (fun i => Hno (S i))), Hcm2.
        rewrite (Hcma' (Hno 0%nat)).
        apply set_eq. intros x.
        rewrite !elem_of_union, elem_of_difference, !elem_of_singleton.
        destruct (decide (x = jid)) as [-> | ?]; tauto.
      * intros k Hnot.
        assert (Hne' : k <> jid) by (by intros ->).
        destruct (Hother k) as [Hsame | Hnone'].
        { rewrite elem_of_difference. tauto. }
        -- rewrite Hsame, Hd2, lookup_insert_ne by done.
           rewrite Hda. case_decide; [by right | by left].
        -- by right.
      * intros k Hsp Hnot.
        assert (Hne' : k <> jid) by (by intros ->).
        rewrite Hframe, Hd2, lookup_insert_ne; [by apply Hspared | done..|].
        rewrite elem_of_difference. tauto.
      * intros k ttl' j Hkw Hkd.
        destruct (decide (k = jid)) as [-> | Hne'].
        -- assert (j = job) as -> by congruence.
           exists ex, turn. rewrite Hframe, Hd2, lookup_insert_eq; [done | |].
           ++ by apply Hsub.
           ++ rewrite elem_of_difference, elem_of_singleton. tauto.
        -- apply (Hdone k ttl' j).
           ++ rewrite elem_of_difference, elem_of_singleton. tauto.
           ++ rewrite Hd2, lookup_insert_ne by done.
              rewrite Hspared by (by apply Hsub). done.
Qed.

(** The background worker, whatever keys run out while it works.  When
    the queue is connected, keeps its records under their own ids, and
    every waiting id has a record that does not run out during the run,
    the worker ends within one turn more than the number of waiting jobs,
    with the waiting set empty.  Every waiting id has then left the
    processing set, and its record has status [COMPLETED] and carries the
    response of its extraction, whether the extraction succeeded or not;
    it is in the completed set unless that set has run out meanwhile.
    Nothing is added to the failed set, and no other record is written. *)
Theorem process_background_jobs_drains (env : nat -> Turn) (q : t) :
  connected q = true ->
  records_keyed (redis_client q) ->
  (forall k, k ∈ dom (waiting (redis_client q)) ->
             is_Some (job_data (redis_client q) !! k)) ->
  (forall i k, k ∈ expired_jobs (env i) ->
               k ∉ dom (waiting (redis_client q))) ->
  let r := redis_client q in
  exists (q' : t) (ex' : TranscriptExtractor.t),
    process_background_jobs settings rotator_settings adapters
      (S (size (waiting r))) env q = Some (q', ex')
    /\ waiting (redis_client q') = ∅
    /\ failed (redis_client q') ⊆ failed r
    /\ processing (redis_client q') = processing r ∖ dom (waiting r)
    /\ completed (redis_client q') ⊆ completed r ∪ dom (waiting r)
    /\ ((forall i, completed_expired (env i) = false) ->
        dom (waiting r) ⊆ completed (redis_client q'))
    /\ (forall k, k ∉ dom (waiting r) ->
          get_job q' k = get_job q k \/ get_job q' k = None)
    /\ (forall k job,
          k ∈ dom (waiting r) -> get_job q k = Some job ->
          exists job',
            get_job q' k = Some job'
            /\ status job' = COMPLETED
            /\ video_id job' = video_id job
            /\ exists ex0 turn, result job' = Some (extraction ex0 job turn).1.1).
Proof.
  intros Hc Hk Hrec Henv r. unfold process_background_jobs.
  destruct (worker_loop_drains (dom (waiting r)) (size (waiting r)) env q
              (TranscriptExtractor.init rotator_settings)
              eq_refl Hc Hk Hrec ltac:(done) Henv)
    as (q' & ex' & Hrun & Hc' & Hw & Hf & Hp & Hcm & Hcmeq & Hother & _
        & Hdone).
  exists q', ex'. unfold get_job, get_job_data. rewrite Hc, Hc'. cbn [negb].
  split_and!; try done.
  - intros Hno. rewrite (Hcmeq Hno). apply union_subseteq_r.
  - intros k Hnot. destruct (Hother k Hnot) as [-> | ->]; [by left | by right].
  - intros k job Hin Hget. fold r in Hget.
    destruct (job_data r !! k) as [[ttl j] |] eqn:Hd; [| done].
    injection Hget as ->.
    destruct (Hdone k ttl job Hin Hd) as (ex0 & turn & ->).
    eexists. split; [reflexivity |]. split_and!; try done. by exists ex0, turn.
Qed.

End WorkerFacts.

Lemma process_background_jobs_drains_witness :
  let q := Samples.add_jobs (Samples.fresh_queue 10) [("a", 5)] 10 in
  let rs :=
    {| VPNRotator.enable_vpn_rotation := false;
       VPNRotator.webshare_proxy_username := "";
       VPNRotator.webshare_proxy_password := "";
       VPNRotator.proxy_rotation_interval := 300 |} in
  let env (i : nat) :=
    {| Main.expired_jobs := ["old"]; Main.completed_expired := true;
       Main.failed_expired := false; Main.taken_at := 20;
       Main.marked_at := 21; Main.extract_at := 22;
       Main.finished_at := 30; Main.processing_time := 5 |} in
  exists q' ex',
    Main.process_background_jobs Samples.all_enabled rs
      Samples.adapters_raise_then_ok 2 env q = Some (q', ex')
    /\ QueueManager.waiting (QueueManager.redis_client q') = ∅
    /\ "a" ∉ QueueManager.processing (QueueManager.redis_client q').
Proof.
  intros q rs env.
  assert (Hw : QueueManager.waiting (QueueManager.redis_client q)
               = {["a" := -5]}) by reflexivity.
  destruct (process_background_jobs_drains Samples.all_enabled rs
              Samples.adapters_raise_then_ok env q)
    as (q' & ex' & Hrun & Hempty & _ & Hp & _).
  - reflexivity.
  - apply add_jobs_keyed, records_keyed_empty.
  - intros k. rewrite Hw, dom_singleton_L, elem_of_singleton. intros ->.
    by eexists.
  - intros i k. rewrite Hw, dom_singleton_L, elem_of_singleton.
    simpl. rewrite list_elem_of_singleton. intros ->. discriminate.
  - exists q', ex'. split; [| split; [exact Hempty |]].
    + rewrite <- Hrun. f_equal.
    + rewrite Hp, Hw, dom_singleton_L, elem_of_difference, elem_of_singleton.
      tauto.
Defined.

(** The end-to-end scenario: the video "abc12345678" is enqueued with
    priority 5, the worker takes it, the first method raises and the
    second returns a segment; the job ends [COMPLETED] with the second
    method as [method_used].  With a method set that finds nothing the
    job still ends [COMPLETED], with an unsuccessful response. *)
Example process_background_jobs_end_to_end :
  let q := Samples.add_jobs (Samples.fresh_queue 10) [("a", 5)] 10 in
  let rs :=
    {| VPNRotator.enable_vpn_rotation := false;
       VPNRotator.webshare_proxy_username := "";
       VPNRotator.webshare_proxy_password := "";
       VPNRotator.proxy_rotation_interval := 300 |} in
  let env (i : nat) :=
    {| Main.expired_jobs := []; Main.completed_expired := false;
       Main.failed_expired := false; Main.taken_at := 20;
       Main.marked_at := 21; Main.extract_at := 22;
       Main.finished_at := 30; Main.processing_time := 5 |} in
  let view adapters :=
    match Main.process_background_jobs Samples.all_enabled rs adapters 2 env q
    with
    | Some (q', _) =>
        (fun j => (status j, fmap success (result j),
                   result j ≫= method_used))
          <$> QueueManager.get_job q' "a"
    | None => None
    end in
  view Samples.adapters_raise_then_ok
  = Some (COMPLETED, Some true, Some XML_DIRECT)
  /\ view (fun _ _ _ => TranscriptExtractor.Raises "unavailable")
     = Some (COMPLETED, Some false, None).
Proof. vm_compute. done. Qed.

(** A record that runs out stops the worker early.  The jobs "a" and "b"
    are waiting and "a" is the one [get_next_job] takes first.  While the
    worker is busy the record of "a" reaches the end of its time-to-live:
    [get_next_job] pops "a", finds no record and returns nothing, and the
    loop ends with "b" still waiting and nothing handled. *)
Example process_background_jobs_expired_record :
  let q := Samples.add_jobs (Samples.fresh_queue 10) [("a", 1); ("b", 5)] 10 in
  let rs :=
    {| VPNRotator.enable_vpn_rotation := false;
       VPNRotator.webshare_proxy_username := "";
       VPNRotator.webshare_proxy_password := "";
       VPNRotator.proxy_rotation_interval := 300 |} in
  let env (i : nat) :=
    {| Main.expired_jobs := ["a"]; Main.completed_expired := false;
       Main.failed_expired := false; Main.taken_at := 700;
       Main.marked_at := 701; Main.extract_at := 702;
       Main.finished_at := 710; Main.processing_time := 5 |} in
  match Main.process_background_jobs Samples.all_enabled rs
          Samples.adapters_raise_then_ok 3 env q
  with
  | Some (q', _) =>
      QueueManager.waiting (QueueManager.redis_client q') = {["b" := -5]}
      /\ QueueManager.completed (QueueManager.redis_client q') = ∅
      /\ (status <$> QueueManager.get_job q' "b") = Some QUEUED
  | None => False
  end.
Proof. vm_compute. done. Qed.

(** ** [merge_overlapping_segments] *)

#[local] Set Warnings "-inexact-float".

Section MergeFacts.

Import Utils.Merge.

Variable F : Type.
Variable add sub : F -> F -> F.
Variable le lt : F -> F -> bool.

Local Abbreviation ordered := (StronglySorted (by_start F lt)).

Lemma insert_by_start_perm (x : Segment F) (l : list (Segment F)) :
  insert_by_start F lt x l ≡ₚ x :: l.
Proof.
  induction l as [| y l IH]; [done |]. simpl.
  destruct (lt (start y) (start x)); [| done].
  rewrite IH. apply Permutation_swap.
Qed.

Lemma sorted_by_start_perm (l : list (Segment F)) :
  sorted_by_start F lt l ≡ₚ l.
Proof.
  induction l as [| x l IH]; [done |]. simpl.
  rewrite insert_by_start_perm. by rewrite IH.
Qed.

Lemma insert_by_start_sorted
    (keys : list F) (x : Segment F) (l : list (Segment F)) :
  comparable F lt keys ->
  start x ∈ keys ->
  Forall (fun y => start y ∈ keys) l ->
  ordered l -> ordered (insert_by_start F lt x l).
Proof.
  intros [Hasym Hneg] Hx. induction l as [| y l IH]; intros Hkeys Hs; simpl.
  - repeat constructor.
  - apply Forall_cons in Hkeys as [Hy Hkeys].
    apply StronglySorted_inv in Hs as [Hl Hyl].
    destruct (lt (start y) (start x)) eqn:Hlt.
    + constructor; [by apply IH |].
      rewrite insert_by_start_perm. constructor; [| done].
      unfold by_start. by apply Hasym.
    + constructor; [by constructor |].
      constructor; [done |].
      rewrite Forall_forall in Hyl, Hkeys |- *. intros z Hz.
      unfold by_start in *.
      apply (Hneg (start z) (start y) (start x)); auto.
Qed.

Lemma sorted_by_start_sorted (keys : list F) (l : list (Segment F)) :
  comparable F lt keys ->
  Forall (fun y => start y ∈ keys) l ->
  ordered (sorted_by_start F lt l).
Proof.
  intros Hcmp. induction l as [| x l IH]; intros Hkeys; simpl; [constructor |].
  apply Forall_cons in Hkeys as [Hx Hkeys].
  apply (insert_by_start_sorted keys); auto.
  rewrite sorted_by_start_perm. done.
Qed.

Lemma merge_loop_spec (overlap_threshold : F) (todo : list (Segment F)) :
  forall (front : list (Segment F)) (last_merged : Segment F),
    ordered (last_merged :: todo) ->
    exists (m : Segment F) (rest : list (Segment F)),
      merge_loop F add sub le lt todo overlap_threshold front last_merged
      = (front ++ m :: rest)%list
      /\ start m = start last_merged
      /\ Sorted (apart F add le overlap_threshold) (m :: rest)
      /\ ordered (m :: rest)
      /\ (forall m', m' ∈ m :: rest ->
            exists s, s ∈ last_merged :: todo /\ start m' = start s)
      /\ (length (m :: rest) <= length (last_merged :: todo))%nat.
Proof.
  induction todo as [| current todo IH]; intros front last_merged Hs.
  - exists last_merged, []. simpl. split_and!; try done.
    + repeat constructor.
    + intros m' Hin. by exists m'.
  - apply StronglySorted_inv in Hs as [Hs Hlast].
    pose proof Hs as Hs'.
    apply StronglySorted_inv in Hs' as [Htodo Hcur].
    apply Forall_cons in Hlast as [Hlc Hlast].
    cbn [merge_loop]. cbv zeta.
    destruct (le (start current)
                (add (add (start last_merged) (duration last_merged))
                   overlap_threshold)) eqn:Hle.
    + match goal with
      | |- context [merge_loop _ _ _ _ _ _ _ _ ?l] => set (last' := l)
      end.
      destruct (IH front last') as (m & rest & Hrun & Hstart & Hsorted
                                     & Hord & Horigin & Hlen).
      { constructor; [done |].
        eapply Forall_impl; [exact Hlast |]. done. }
      exists m, rest. rewrite Hrun. split_and!; try done.
      * intros m' Hm'. destruct (Horigin m' Hm') as (s & Hs0 & Hst).
        apply elem_of_cons in Hs0 as [-> | Hs0].
        -- exists last_merged. split; [left | done].
        -- exists s. split; [by do 2 right | done].
      * simpl in *. lia.
    + destruct (IH (front ++ [last_merged])%list current Hs)
        as (m & rest & Hrun & Hstart & Hsorted & Hord & Horigin & Hlen).
      exists last_merged, (m :: rest). rewrite Hrun, <- app_assoc.
      split_and!; try done.
      * constructor; [done |]. constructor. unfold apart.
        by rewrite Hstart.
      * constructor; [done |].
        rewrite Forall_forall. intros m' Hm'.
        destruct (Horigin m' Hm') as (s & Hs0 & Hst).
        unfold by_start. rewrite Hst.
        assert (Hall : Forall (by_start F lt last_merged) (current :: todo))
          by (by constructor).
        rewrite Forall_forall in Hall. by apply Hall.
      * intros m' Hm'. apply elem_of_cons in Hm' as [-> | Hm'].
        { exists last_merged. split; [left | done]. }
        destruct (Horigin m' Hm') as (s & ? & ?).
        exists s. split; [by right | done].
      * simpl in *. lia.
Qed.

Lemma Sorted_adjacent {A : Type} (R : A -> A -> Prop) (l : list A) :
  Sorted R l ->
  forall (i : nat) (a b : A), l !! i = Some a -> l !! S i = Some b -> R a b.
Proof.
  induction 1 as [| x l Hl IH Hd]; intros i a b Ha Hb; [done |].
  destruct i as [| i].
  - simpl in Ha, Hb. injection Ha as ->.
    destruct Hd as [| y l Hxy]; [done |]. simpl in Hb. by injection Hb as ->.
  - simpl in Ha, Hb. by eapply IH.
Qed.

Lemma StronglySorted_lookup {A : Type} (R : A -> A -> Prop) (l : list A) :
  StronglySorted R l ->
  forall (i j : nat) (a b : A),
    (i < j)%nat -> l !! i = Some a -> l !! j = Some b -> R a b.
Proof.
  induction 1 as [| x l Hl IH Hx]; intros i j a b Hij Ha Hb; [done |].
  destruct j as [| j]; [lia |]. simpl in Hb.
  destruct i as [| i].
  - simpl in Ha. injection Ha as ->.
    rewrite Forall_forall in Hx. apply Hx.
    by eapply list_elem_of_lookup_2.
  - simpl in Ha. apply (IH i j); [lia | done..].
Qed.

(** What [merge_overlapping_segments] returns, whatever the arithmetic of
    the times, as long as [<] orders the given start times.  Each returned
    segment starts more than the threshold after the end of the one in
    front of it; the returned segments are in the order of their start
    times, and no given segment starts before the first of them; every
    returned start time is the start time of a given segment; and the
    result has at most as many segments as were given, none exactly when
    none was given. *)
Theorem merge_overlapping_segments_spec
    (segments : list (Segment F)) (overlap_threshold : F) :
  comparable F lt (start <$> segments) ->
  let merged :=
    merge_overlapping_segments F add sub le lt segments overlap_threshold in
  (forall (i : nat) a b,
     merged !! i = Some a -> merged !! S i = Some b ->
     le (start b) (add (add (start a) (duration a)) overlap_threshold)
     = false)
  /\ (forall (i j : nat) a b,
        (i < j)%nat -> merged !! i = Some a -> merged !! j = Some b ->
        lt (start b) (start a) = false)
  /\ (forall m s, head merged = Some m -> s ∈ segments ->
        lt (start s) (start m) = false)
  /\ (forall m, m ∈ merged -> exists s, s ∈ segments /\ start m = start s)
  /\ (length merged <= length segments)%nat
  /\ (merged = [] <-> segments = []).
Proof.
  intros Hcmp merged. subst merged. unfold merge_overlapping_segments.
  destruct segments as [| s0 segments].
  { split_and!; try done.
    intros m Hm. by apply elem_of_nil in Hm. }
  pose proof (sorted_by_start_perm (s0 :: segments)) as Hperm.
  assert (Hkeys : Forall (fun y => start y ∈ start <$> s0 :: segments)
                         (s0 :: segments)).
  { rewrite Forall_forall. intros y Hy. by apply list_elem_of_fmap_2. }
  pose proof (sorted_by_start_sorted _ _ Hcmp Hkeys) as Hsorted.
  destruct (sorted_by_start F lt (s0 :: segments)) as [| first rest] eqn:Hsort.
  { apply Permutation_nil_l in Hperm. done. }
  destruct (merge_loop_spec overlap_threshold rest [] first Hsorted)
    as (m & out & -> & Hstart & Hap & Hord & Horigin & Hlen).
  rewrite app_nil_l. split_and!.
  - by apply (Sorted_adjacent _ _ Hap).
  - by apply (StronglySorted_lookup _ _ Hord).
  - intros m' s [= <-] Hs. rewrite Hstart.
    rewrite <- Hperm in Hs. apply elem_of_cons in Hs as [-> | Hs].
    + destruct Hcmp as [Hasym _].
      assert (Hin : start first ∈ start <$> s0 :: segments).
      { apply list_elem_of_fmap_2. rewrite <- Hperm. left. }
      destruct (lt (start first) (start first)) eqn:E; [| done].
      by rewrite (Hasym _ _ Hin Hin E) in E.
    + apply StronglySorted_inv in Hsorted as [_ Hall].
      rewrite Forall_forall in Hall. by apply Hall.
  - intros m' Hm'. destruct (Horigin m' Hm') as (s & Hs & ?).
    rewrite Hperm in Hs. by exists s.
  - by rewrite <- (Permutation_length Hperm).
  - done.
Qed.

End MergeFacts.

Lemma merge_overlapping_segments_spec_witness :
  let seg t s d := {| Utils.Merge.text := t; Utils.Merge.start := s;
                      Utils.Merge.duration := d |} in
  let segments :=
    [seg "c" 5%float 1%float; seg "b" 0.4%float 0.5%float;
     seg "a" 0.2%float 0%float] in
  let merged :=
    Utils.Merge.merge_overlapping_segments float PrimFloat.add PrimFloat.sub
      PrimFloat.leb PrimFloat.ltb segments 0.5%float in
  exists a b,
    merged = [a; b]
    /\ PrimFloat.leb (Utils.Merge.start b)
         (Utils.Merge.start a + Utils.Merge.duration a + 0.5)%float = false
    /\ PrimFloat.ltb (Utils.Merge.start b) (Utils.Merge.start a) = false.
Proof.
  intros seg segments merged.
  destruct (merge_overlapping_segments_spec float PrimFloat.add PrimFloat.sub
              PrimFloat.leb PrimFloat.ltb segments 0.5%float)
    as (Hapart & Hord & _).
  - split.
    + intros a b Ha Hb.
      repeat (apply elem_of_cons in Ha as [-> | Ha]);
        try (by apply elem_of_nil in Ha);
        repeat (apply elem_of_cons in Hb as [-> | Hb]);
        try (by apply elem_of_nil in Hb);
        vm_compute; congruence.
    + intros a b c Ha Hb Hc.
      repeat (apply elem_of_cons in Ha as [-> | Ha]);
        try (by apply elem_of_nil in Ha);
        repeat (apply elem_of_cons in Hb as [-> | Hb]);
        try (by apply elem_of_nil in Hb);
        repeat (apply elem_of_cons in Hc as [-> | Hc]);
        try (by apply elem_of_nil in Hc);
        vm_compute; congruence.
  - fold merged in Hapart, Hord.
    assert (Hm : merged = [seg "a b" 0.2%float 0.7%float;
                           seg "c" 5%float 1%float]) by (by vm_compute).
    eexists _, _. split; [exact Hm |]. split.
    + apply (Hapart 0%nat); by rewrite Hm.
    + apply (Hord 0%nat 1%nat); [lia | by rewrite Hm..].
Defined.

(** On doubles: the segments (0.2, 0.0) and (0.4, 0.5) are merged into one
    that starts at 0.2 and lasts 0.7, and whose end,
    0.2 + 0.7 = 0.8999999999999999, is before the end 0.9 of the second
    segment. *)
Example merge_overlapping_segments_doubles :
  let seg t s d := {| Utils.Merge.text := t; Utils.Merge.start := s;
                      Utils.Merge.duration := d |} in
  let merged :=
    Utils.Merge.merge_overlapping_segments float PrimFloat.add PrimFloat.sub
      PrimFloat.leb PrimFloat.ltb
      [seg "b" 0.4%float 0.5%float; seg "a" 0.2%float 0%float] 0.5%float in
  merged = [seg "a b" 0.2%float 0.7%float]
  /\ PrimFloat.ltb (0.2 + 0.7)%float (0.4 + 0.5)%float = true.
Proof. vm_compute. done. Qed.
